(** * Hypokei: the recursive harmonic structure engine of [src/App.js]

    A shallow embedding of the engine's functions and the properties the
    specification states about them.

    Numbers.  A JavaScript number is an IEEE 754 binary64 value; frequencies
    are modelled by Rocq's primitive [float], which is the same format with
    the same rounding, so overflow to [infinity] and [nan] behave as they do
    in the program.  Array indices, breadths and depths are [nat]; levels are
    [Z] because the base frequency sits at level -1.  The layout pass is
    embedded over exact rationals ([Q]): its ordering properties are stated
    for exact arithmetic.

    Errors.  [throw new Error(..)] is the [Throw] constructor of [result]. *)

From Stdlib Require Import Floats ZArith QArith Qminmax List String Ascii Bool Lia Arith.
From Stdlib Require Import DecimalString DecimalNat Sorted Permutation Lqa.
Import ListNotations.

Close Scope Q_scope.
Set Implicit Arguments.
Set Warnings "-register-all".

(* ================================================================== *)
(** * Part I: the embedding *)
(* ================================================================== *)

(** ** JavaScript values used by the engine *)

Module JS.

Local Open Scope float_scope.

(** The outcome of a call that may throw. *)
Inductive result (A : Type) : Type :=
| Ok (a : A)
| Throw (msg : string).

Arguments Ok {A} a.
Arguments Throw {A} msg.

Definition bind {A B : Type} (r : result A) (k : A -> result B) : result B :=
  match r with
  | Ok a => k a
  | Throw m => Throw m
  end.

Notation "x <- r ;; k" := (bind r (fun x => k))
  (at level 61, r at next level, right associativity).

(** [mapM f l]: [l.map(f)] when [f] may throw; the first exception wins. *)
Fixpoint mapM {A B : Type} (f : A -> result B) (l : list A) : result (list B) :=
  match l with
  | [] => Ok []
  | a :: l' => b <- f a ;; bs <- mapM f l' ;; Ok (b :: bs)
  end.

Definition succeeds {A : Type} (r : result A) : Prop :=
  exists a, r = Ok a.

(** The global [isNaN] on a number. *)
Definition isNaN (x : float) : bool := is_nan x.

(** An array index or a count as a number (exact below 2^53). *)
Definition ofNat (n : nat) : float :=
  of_uint63 (Uint63.of_Z (Z.of_nat n)).

(** A number that is neither NaN, an infinity nor a zero. *)
Definition finiteNonzero (x : float) : bool :=
  match Prim2SF x with
  | S754_finite _ _ _ => true
  | _ => false
  end.

(** [ToNumber] on a value that is a number or [null]. *)
Definition toNumber (v : option float) : float :=
  match v with
  | Some x => x
  | None => 0
  end.

(** Decimal rendering of an index, as a template literal prints it. *)
Definition showNat (n : nat) : string :=
  NilEmpty.string_of_uint (Nat.to_uint n).

Definition showZ (z : Z) : string :=
  match z with
  | Zneg p => String "-" (showNat (Pos.to_nat p))
  | _ => showNat (Z.to_nat z)
  end.

(** [arr.join(sep)] on an array of indices. *)
Fixpoint join (sep : string) (l : list nat) : string :=
  match l with
  | [] => EmptyString
  | [n] => showNat n
  | n :: l' => showNat n ++ sep ++ join sep l'
  end.

(** [arr.sort((a, b) => a - b)]: a stable ascending sort; [x] is placed
    before the first element [y] with [y - x > 0]. *)
Fixpoint insertNum (x : float) (l : list float) : list float :=
  match l with
  | [] => [x]
  | y :: l' => if 0 <? y - x then x :: y :: l' else y :: insertNum x l'
  end.

Definition sortNum (l : list float) : list float :=
  fold_left (fun acc x => insertNum x acc) l [].

(** [for (i = 0; i < n; i++) for (j = i + 1; j < n; j++) body(arr[i], arr[j])],
    collecting what the body pushes.  An index outside the array reads
    [undefined], and both loops of the program skip such a turn. *)
Definition forPairs {A B : Type} (arr : list A) (n : nat)
    (body : A -> A -> list B) : list B :=
  flat_map
    (fun i =>
       flat_map
         (fun j =>
            match nth_error arr i, nth_error arr j with
            | Some a, Some b => body a b
            | _, _ => []
            end)
         (seq (i + 1) (n - (i + 1))))
    (seq 0 n).

End JS.

Import JS.

(** ** TuningRule: [generateBaseFrequencies] *)

Module TuningRule.

Local Open Scope float_scope.

(** [Object.values(JUST_INTONATION_RATIOS)], in insertion order. *)
Definition JUST_INTONATION_RATIOS : list float :=
  [ 1 / 1; 16 / 15; 9 / 8; 6 / 5; 5 / 4; 4 / 3; 45 / 32;
    3 / 2; 8 / 5; 5 / 3; 9 / 5; 15 / 8; 2 / 1 ].

(** [Array.from({ length: 12 }, (_, i) => Math.pow(2, i / 12))]: the twelve
    doubles that [Math.pow] returns for these arguments.  [Math.pow] is
    implementation-approximated; the table holds the results of V8, which
    for [i] = 9, 10 and 11 lie one unit in the last place above the
    correctly rounded powers (1.6817928305074292, 1.7817974362806788 and
    1.887748625363387). *)
Definition EQUAL_TEMPERAMENT_RATIOS : list float :=
  [ 0x1.0000000000000p+0; 0x1.0f38f92d97963p+0; 0x1.1f59ac3c7d6c0p+0;
    0x1.306fe0a31b715p+0; 0x1.428a2f98d728bp+0; 0x1.55b8108f0ec5ep+0;
    0x1.6a09e667f3bcdp+0; 0x1.7f910d768cfb0p+0; 0x1.965fea53d6e3cp+0;
    0x1.ae89f995ad3aep+0; 0x1.c823e074ec12ap+0; 0x1.e3437e7101344p+0 ].

Definition generateHarmonicSeries (f : float) (nHarmonics : nat) : list float :=
  map (fun i => f * ofNat (i + 1)) (seq 0 nHarmonics).

Definition modeError : string :=
  "Mode must be 'harmonic', 'just', 'equal', or 'custom'".

(** [customRatios] is an array or [null]; an array, even an empty one, is
    truthy. *)
Definition generateBaseFrequencies (f : float) (nHarmonics : nat)
    (mode : string) (customRatios : option (list float)) : result (list float) :=
  if String.eqb mode "harmonic" then
    Ok (generateHarmonicSeries f nHarmonics)
  else if String.eqb mode "just" then
    Ok (map (fun ratio => f * ratio)
            (firstn nHarmonics (sortNum JUST_INTONATION_RATIOS)))
  else if String.eqb mode "equal" then
    Ok (map (fun ratio => f * ratio)
            (firstn nHarmonics EQUAL_TEMPERAMENT_RATIOS))
  else
    match String.eqb mode "custom", customRatios with
    | true, Some ratios =>
        Ok (map (fun ratio => f * ratio) (firstn nHarmonics ratios))
    | _, _ => Throw modeError
    end.

(** The ratios a mode multiplies the frequency by, when the mode is valid. *)
Definition ratiosOf (nHarmonics : nat) (mode : string)
    (customRatios : option (list float)) : option (list float) :=
  if String.eqb mode "harmonic" then
    Some (map (fun i => ofNat (i + 1)) (seq 0 nHarmonics))
  else if String.eqb mode "just" then
    Some (firstn nHarmonics (sortNum JUST_INTONATION_RATIOS))
  else if String.eqb mode "equal" then
    Some (firstn nHarmonics EQUAL_TEMPERAMENT_RATIOS)
  else
    match String.eqb mode "custom", customRatios with
    | true, Some ratios => Some (firstn nHarmonics ratios)
    | _, _ => None
    end.

End TuningRule.

Import TuningRule.

(** ** StructureGenerator: [generateHarmonicStructure] *)

Module StructureGenerator.

(** The nested arrays of [structure.levels]: an element of an array is a
    number or another array. *)
Inductive nested : Type :=
| Num (x : float)
| Arr (items : list nested).

Record HarmonicStructure : Type := mkStructure {
  base : float;
  levels : list nested
}.

Definition numbers (l : list float) : nested := Arr (map Num l).

Section Generate.

Variables (nHarmonics : nat) (mode : string) (customRatios : option (list float)).

Definition generate (f : float) : result (list float) :=
  generateBaseFrequencies f nHarmonics mode customRatios.

(** The [level === 1] branch: [prevLevel.forEach] pushes one series per
    element that is a number and not NaN; other elements push nothing. *)
Fixpoint levelOne (prevLevel : list nested) : result (list nested) :=
  match prevLevel with
  | [] => Ok []
  | Num freq :: rest =>
      if isNaN freq then levelOne rest
      else
        series <- generate freq ;;
        more <- levelOne rest ;;
        Ok (numbers series :: more)
  | Arr _ :: rest => levelOne rest
  end.

(** The callback of [data.map] in the branch taken when [data[0]] is a
    number. *)
Definition expandLeaf (item : nested) : result nested :=
  match item with
  | Num freq =>
      if isNaN freq then Ok (Arr [])
      else series <- generate freq ;; Ok (numbers series)
  | Arr _ => Ok (Arr [])
  end.

(** [processNestedLevel], for levels 2 and above. *)
Fixpoint processNestedLevel (data : nested) : result nested :=
  match data with
  | Arr items =>
      match items with
      | Num _ :: _ => r <- mapM expandLeaf items ;; Ok (Arr r)
      | _ =>
          r <- (fix each (l : list nested) : result (list nested) :=
                  match l with
                  | [] => Ok []
                  | subArray :: l' =>
                      b <- processNestedLevel subArray ;;
                      bs <- each l' ;;
                      Ok (b :: bs)
                  end) items ;;
          Ok (Arr r)
      end
  | Num _ => Ok (Arr [])
  end.

(** One turn of the [for (level = 1; level <= maxLevel; level++)] loop:
    [acc] holds [structure.levels] built so far and [prevLevel] is its last
    entry. *)
Definition nextLevel (level : nat) (prevLevel : nested) : result nested :=
  if Nat.eqb level 1 then
    match prevLevel with
    | Arr items => r <- levelOne items ;; Ok (Arr r)
    | Num _ => Ok (Arr [])
    end
  else processNestedLevel prevLevel.

Fixpoint buildLevels (count level : nat) (prevLevel : nested)
    : result (list nested) :=
  match count with
  | O => Ok []
  | S count' =>
      cur <- nextLevel level prevLevel ;;
      rest <- buildLevels count' (S level) cur ;;
      Ok (cur :: rest)
  end.

Definition generateHarmonicStructure (baseFreq : float) (maxLevel : nat)
    : result HarmonicStructure :=
  H0 <- generate baseFreq ;;
  higher <- buildLevels maxLevel 1 (numbers H0) ;;
  Ok (mkStructure baseFreq (numbers H0 :: higher)).

End Generate.

End StructureGenerator.

Import StructureGenerator.

(** ** PathExtractor: [extractAllFrequenciesWithPaths] *)

Module PathExtractor.

Record FrequencyRecord : Type := mkRecord {
  frequency : float;
  level : Z;
  path : list nat;
  pathString : string
}.

Definition levelLabel (levelIndex : nat) (fullPath : list nat) : string :=
  ("H^" ++ showNat levelIndex ++ "[" ++ join "," fullPath ++ "]")%string.

(** [data.forEach((item, index) => ..)] from [index] on, collecting what the
    callback pushes. *)
Fixpoint forEachIndexed {A B : Type} (f : A -> nat -> list B)
    (index : nat) (data : list A) : list B :=
  match data with
  | [] => []
  | item :: rest => f item index ++ forEachIndexed f (S index) rest
  end.

(** The [depth === 0] callback of [processLevel], also the callback of the
    [levelIndex === 0] branch. *)
Definition leafRecord (levelIndex : nat) (currentPath : list nat)
    (freq : nested) (index : nat) : list FrequencyRecord :=
  match freq with
  | Num x =>
      if isNaN x then []
      else
        let fullPath := currentPath ++ [index] in
        [ mkRecord x (Z.of_nat levelIndex) fullPath
            (levelLabel levelIndex fullPath) ]
  | Arr _ => []
  end.

(** [processLevel(data, currentPath, depth)]; a [data] that is not an array
    yields nothing. *)
Fixpoint processLevel (levelIndex : nat) (depth : nat) (data : nested)
    (currentPath : list nat) : list FrequencyRecord :=
  match data with
  | Num _ => []
  | Arr items =>
      match depth with
      | O => forEachIndexed (leafRecord levelIndex currentPath) 0 items
      | S depth' =>
          forEachIndexed
            (fun subArray index =>
               match subArray with
               | Arr _ =>
                   processLevel levelIndex depth' subArray (currentPath ++ [index])
               | Num _ => []
               end)
            0 items
      end
  end.

(** The callback of [structure.levels.forEach]. *)
Definition extractLevel (level : nested) (levelIndex : nat)
    : list FrequencyRecord :=
  match levelIndex with
  | O =>
      match level with
      | Arr items => forEachIndexed (leafRecord 0 []) 0 items
      | Num _ => []
      end
  | S _ => processLevel levelIndex levelIndex level []
  end.

(** A number is falsy when it is NaN or a zero. *)
Definition falsyNumber (x : float) : bool :=
  (isNaN x || PrimFloat.eqb x 0%float)%bool.

Definition baseRecord (b : float) : list FrequencyRecord :=
  if isNaN b then [] else [ mkRecord b (-1) [] "Base" ].

Definition extractAllFrequenciesWithPaths (structure : HarmonicStructure)
    : list FrequencyRecord :=
  if falsyNumber (base structure) then []
  else
    baseRecord (base structure)
      ++ forEachIndexed extractLevel 0 (levels structure).

Definition flattenFrequencies (structure : HarmonicStructure) : list float :=
  map frequency (extractAllFrequenciesWithPaths structure).

End PathExtractor.

Import PathExtractor.

(** ** ProximityAnalyzer: [findCloseFrequencies] *)

Module ProximityAnalyzer.

Local Open Scope float_scope.

(** [Math.max] on two numbers: NaN when either is NaN, and [+0] is larger
    than [-0]. *)
Definition Math_max (a b : float) : float :=
  if (isNaN a || isNaN b)%bool then nan
  else if a <? b then b
  else if b <? a then a
  else if get_sign a then b else a.

Record ProximityPair : Type := mkPair {
  freq1 : float;
  freq2 : float;
  path1 : string;
  path2 : string;
  difference : float;
  level1 : Z;
  level2 : Z
}.

Definition relativeDifference (a b : float) : float :=
  abs (a - b) / Math_max a b.

(** The body of the inner loop for one pair of records. *)
Definition closePair (threshold : float) (r1 r2 : FrequencyRecord)
    : list ProximityPair :=
  if (isNaN (frequency r1) || isNaN (frequency r2))%bool then []
  else
    let relDiff := relativeDifference (frequency r1) (frequency r2) in
    if ((relDiff <? threshold) && (0 <? relDiff))%bool then
      [ mkPair (frequency r1) (frequency r2) (pathString r1) (pathString r2)
          relDiff (level r1) (level r2) ]
    else [].

Definition closePairs (allFreqs : list FrequencyRecord) (threshold : float)
    : list ProximityPair :=
  forPairs allFreqs (List.length allFreqs) (closePair threshold).

Definition findCloseFrequencies (structure : HarmonicStructure)
    (threshold : float) : list ProximityPair :=
  closePairs (extractAllFrequenciesWithPaths structure) threshold.

End ProximityAnalyzer.

Import ProximityAnalyzer.

(** ** RationalApproximator: [analyzeFrequencyRatios] *)

Module RationalApproximator.

Local Open Scope float_scope.

(** [gcd(a, b) = b === 0 ? a : gcd(b, a % b)] on non-negative integers; the
    second argument decreases at every call, so [S b] turns suffice. *)
Fixpoint gcdLoop (turns a b : nat) : nat :=
  match turns with
  | O => a
  | S turns' => if Nat.eqb b 0 then a else gcdLoop turns' b (a mod b)
  end.

Definition gcd (a b : nat) : nat := gcdLoop (S b) a b.

Record RatioEntry : Type := mkRatio {
  rfreq1 : float;
  rfreq2 : float;
  rpath1 : string;
  rpath2 : string;
  actualRatio : float;
  simpleRatio : nat * nat;
  rdifference : float
}.

(** The pair [(bestDiff, bestRatio)] carried through the search. *)
Definition best : Type := (float * (nat * nat))%type.

Definition sentinel : best := (infinity, (0%nat, 0%nat)).

(** The fractions examined, in the order the two [for] loops reach them. *)
Definition candidates (maxDenominator : nat) : list (nat * nat) :=
  flat_map
    (fun denom =>
       flat_map
         (fun num => if Nat.eqb (gcd num denom) 1 then [(num, denom)] else [])
         (seq 1 denom))
    (seq 1 maxDenominator).

Definition diffTo (actual : float) (c : nat * nat) : float :=
  abs (actual - ofNat (fst c) / ofNat (snd c)).

(** One examined fraction: [if (diff < bestDiff) { .. }]. *)
Definition consider (actual : float) (b : best) (c : nat * nat) : best :=
  let diff := diffTo actual c in
  if diff <? fst b then (diff, c) else b.

Definition closestSimpleRatio (actual : float) (maxDenominator : nat) : best :=
  fold_left (consider actual) (candidates maxDenominator) sentinel.

Definition ratioOf (f1 f2 : float) : float :=
  if f1 <? f2 then f1 / f2 else f2 / f1.

Definition ratioEntry (maxDenominator : nat) (r1 r2 : FrequencyRecord)
    : list RatioEntry :=
  if (isNaN (frequency r1) || isNaN (frequency r2))%bool then []
  else
    let actual := ratioOf (frequency r1) (frequency r2) in
    let b := closestSimpleRatio actual maxDenominator in
    [ mkRatio (frequency r1) (frequency r2) (pathString r1) (pathString r2)
        actual (snd b) (fst b) ].

(** Both loops also stop at index 100. *)
Definition ratiosOfRecords (allFreqs : list FrequencyRecord)
    (maxDenominator : nat) : list RatioEntry :=
  forPairs allFreqs (Nat.min (List.length allFreqs) 100)
    (ratioEntry maxDenominator).

Definition analyzeFrequencyRatios (structure : HarmonicStructure)
    (maxDenominator : nat) : list RatioEntry :=
  ratiosOfRecords (extractAllFrequenciesWithPaths structure) maxDenominator.

End RationalApproximator.

Import RationalApproximator.

(** ** TreeModel: [createFrequencyTree], [generateChildrenForNode],
       [toggleNode], [getVisibleNodes] *)

Module TreeModel.

Local Open Scope string_scope.

Inductive NodeType : Type := root | frequency.

Definition isRoot (t : NodeType) : bool :=
  match t with root => true | frequency => false end.

Definition isFrequency (t : NodeType) : bool :=
  match t with root => false | frequency => true end.

(** A tree node.  [value], [baseFreq] and [parentFreq] hold a number or
    [null] ([None]); [index] and [parentFreq] are absent on some nodes (the
    outer [option]). *)
Inductive TreeNode : Type := mkNode {
  id : string;
  name : string;
  value : option float;
  level : Z;
  nodeType : NodeType;
  index : option nat;
  baseFreq : option float;
  parentFreq : option (option float);
  recursionIndices : list nat;
  children : list TreeNode
}.

Definition setChildren (node : TreeNode) (newChildren : list TreeNode)
    : TreeNode :=
  mkNode (id node) (name node) (value node) (level node) (nodeType node)
    (index node) (baseFreq node) (parentFreq node) (recursionIndices node)
    newChildren.

(** [JSON.parse(JSON.stringify(x))] on a number: NaN and the infinities
    come back as [null], a zero as [+0], any other number unchanged. *)
Definition jsonNumber (x : float) : option float :=
  if (is_nan x || is_infinity x)%bool then None
  else if PrimFloat.eqb x 0%float then Some 0%float
  else Some x.

Definition jsonValue (v : option float) : option float :=
  match v with
  | Some x => jsonNumber x
  | None => None
  end.

(** [JSON.parse(JSON.stringify(node))]: a deep copy. *)
Fixpoint jsonCopy (node : TreeNode) : TreeNode :=
  match node with
  | mkNode i n v l t ix bf pf ri cs =>
      mkNode i n (jsonValue v) l t ix (jsonValue bf) (option_map jsonValue pf)
        ri (map jsonCopy cs)
  end.

(** The [Set] of expanded ids, in insertion order. *)
Definition has (s : list string) (x : string) : bool :=
  existsb (String.eqb x) s.

Definition add (s : list string) (x : string) : list string :=
  if has s x then s else s ++ [x].

Definition delete (s : list string) (x : string) : list string :=
  filter (fun y => negb (String.eqb x y)) s.

(** [s.startsWith(p)] and [s.includes(p)]. *)
Definition startsWith (s p : string) : bool := String.prefix p s.

Fixpoint includes (s p : string) : bool :=
  (String.prefix p s
   || match s with
      | EmptyString => false
      | String _ s' => includes s' p
      end)%bool.

Section Model.

(** [Number.prototype.toFixed], used only to print display names. *)
Variable toFixed : float -> nat -> string.

Definition createFrequencyTree (f : float) : TreeNode :=
  mkNode "root" ("Base: " ++ toFixed f 2 ++ " Hz") (Some f) (-1) root
    None (Some f) None [] [].

(** The props of the [HierarchicalTree] component. *)
Variables (theBaseFreq : float) (nHarmonics : nat) (mode : string)
          (maxLevel : nat) (customRatios : option (list float)).

(** [arr.map((freq, i) => ..)] from index [i] on. *)
Fixpoint mapIndexed {A B : Type} (f : A -> nat -> B) (i : nat) (l : list A)
    : list B :=
  match l with
  | [] => []
  | a :: l' => f a i :: mapIndexed f (S i) l'
  end.

Definition rootChild (freq : float) (i : nat) : TreeNode :=
  mkNode ("h0-" ++ showNat i)
    (toFixed freq 1 ++ " Hz (H^0[" ++ showNat i ++ "])")
    (Some freq) 0 frequency (Some i) (Some theBaseFreq) None [i] [].

Definition frequencyChild (node : TreeNode) (next : Z) (freq : float)
    (i : nat) : TreeNode :=
  mkNode ("h" ++ showZ next ++ "-" ++ id node ++ "-" ++ showNat i)
    (toFixed freq 1 ++ " Hz (H^" ++ showZ next ++ "["
       ++ join "," (recursionIndices node ++ [i]) ++ "])")
    (Some freq) next frequency (Some i) (baseFreq node) (Some (value node))
    (recursionIndices node ++ [i]) [].

Definition generateChildrenForNode (node : TreeNode) : result (list TreeNode) :=
  match nodeType node with
  | root =>
      h0Frequencies <-
        generateBaseFrequencies theBaseFreq nHarmonics mode customRatios ;;
      Ok (mapIndexed rootChild 0 h0Frequencies)
  | frequency =>
      let next := (level node + 1)%Z in
      if (Z.of_nat maxLevel <? next)%Z then Ok []
      else
        frequencies <-
          generateBaseFrequencies (toNumber (value node)) nHarmonics mode
            customRatios ;;
        Ok (mapIndexed (frequencyChild node next) 0 frequencies)
  end.

(** [findAndUpdateNode(currentNode, targetId)].  The function assigns
    [currentNode.children] only on the path that returns [true]; the result
    is [Some] of the updated node for [true] and [None] for [false]. *)
Fixpoint findAndUpdateNode (currentNode : TreeNode) (targetId : string)
    : result (option TreeNode) :=
  match currentNode with
  | mkNode i n v l t ix bf pf ri cs =>
      if String.eqb i targetId then
        match cs with
        | [] =>
            newChildren <- generateChildrenForNode currentNode ;;
            match newChildren with
            | [] => Ok None
            | _ :: _ => Ok (Some (setChildren currentNode newChildren))
            end
        | _ :: _ => Ok None
        end
      else
        r <- (fix each (l : list TreeNode) : result (option (list TreeNode)) :=
                match l with
                | [] => Ok None
                | child :: l' =>
                    u <- findAndUpdateNode child targetId ;;
                    match u with
                    | Some child' => Ok (Some (child' :: l'))
                    | None =>
                        us <- each l' ;;
                        Ok (option_map (cons child) us)
                    end
                end) cs ;;
        Ok (option_map (setChildren currentNode) r)
  end.

(** The component state: [treeData] and [expandedNodes]. *)
Record State : Type := mkState {
  treeData : TreeNode;
  expandedNodes : list string
}.

(** The filter of the collapse branch. *)
Definition removedBy (nodeId : string) (i : string) : bool :=
  (String.eqb i nodeId
   || startsWith i (nodeId ++ "-")
   || includes i ("-" ++ nodeId ++ "-"))%bool.

(** The branch of [toggleNode] taken when the id is expanded. *)
Definition collapse (st : State) (nodeId : string) : State :=
  let newExpanded := expandedNodes st in
  let toRemove := filter (removedBy nodeId) newExpanded in
  mkState (treeData st) (fold_left delete toRemove newExpanded).

(** The branch of [toggleNode] taken when the id is not expanded. *)
Definition expand (st : State) (nodeId : string) : result State :=
  let newExpanded := add (expandedNodes st) nodeId in
  let newTreeData := jsonCopy (treeData st) in
  u <- findAndUpdateNode newTreeData nodeId ;;
  match u with
  | Some updated => Ok (mkState updated newExpanded)
  | None => Ok (mkState (treeData st) newExpanded)
  end.

Definition toggleNode (st : State) (nodeId : string) : result State :=
  if has (expandedNodes st) nodeId then Ok (collapse st nodeId)
  else expand st nodeId.

(** The state the component starts in. *)
Definition initialState (f : float) : State :=
  mkState (createFrequencyTree f) ["root"].

End Model.

(** [findNode t i]: the first node with id [i], in the order
    [findAndUpdateNode] searches. *)
Fixpoint findNode (t : TreeNode) (i : string) : option TreeNode :=
  match t with
  | mkNode i' _ _ _ _ _ _ _ _ cs =>
      if String.eqb i' i then Some t
      else
        (fix each (l : list TreeNode) : option TreeNode :=
           match l with
           | [] => None
           | c :: l' =>
               match findNode c i with
               | Some r => Some r
               | None => each l'
               end
           end) cs
  end.

(** The ids of a tree, in the order [findAndUpdateNode] visits them. *)
Fixpoint ids (t : TreeNode) : list string :=
  match t with
  | mkNode i _ _ _ _ _ _ _ _ cs => i :: flat_map ids cs
  end.

(** The [for (let child of currentNode.children)] loop of
    [findAndUpdateNode] with the recursive call abstracted as [f]: the first
    child for which [f] answers [true] is replaced by its update. *)
Fixpoint updateFirst (f : TreeNode -> result (option TreeNode))
    (l : list TreeNode) : result (option (list TreeNode)) :=
  match l with
  | [] => Ok None
  | child :: l' =>
      u <- f child ;;
      match u with
      | Some child' => Ok (Some (child' :: l'))
      | None => us <- updateFirst f l' ;; Ok (option_map (cons child) us)
      end
  end.

End TreeModel.

(** ** LayoutEngine: [getVisibleNodes], [calculatePositions] *)

Module LayoutEngine.

Import TreeModel.

Local Open Scope Q_scope.

(** The [nodeInfo] objects.  [parent] is a reference to the parent's
    [nodeInfo]: here the position of that object in the array of visible
    nodes, which is the store the layout pass writes [x] and [y] into. *)
Record NodeInfo : Type := mkInfo {
  nid : string;
  nname : string;
  nvalue : option float;
  nnodeType : NodeType;
  nlevel : Z;
  hasChildren : bool;
  isExpanded : bool;
  parent : option nat;
  x : Q;
  y : Q
}.

Definition nonEmpty {A : Type} (l : list A) : bool :=
  match l with [] => false | _ :: _ => true end.

(** [getVisibleNodes(node, result, parent)], with [expandedNodes] the set
    the component holds. *)
Fixpoint getVisibleNodes (expandedNodes : list string) (node : TreeNode)
    (result : list NodeInfo) (parentRef : option nat) : list NodeInfo :=
  match node with
  | mkNode i n v l t _ _ _ _ cs =>
      let expanded := has expandedNodes i in
      let nodeInfo := mkInfo i n v t l (nonEmpty cs) expanded parentRef 0 0 in
      let self := List.length result in
      let result1 := result ++ [nodeInfo] in
      if (expanded && nonEmpty cs)%bool then
        (fix each (l : list TreeNode) (acc : list NodeInfo) : list NodeInfo :=
           match l with
           | [] => acc
           | child :: l' =>
               each l' (getVisibleNodes expandedNodes child acc (Some self))
           end) cs result1
      else result1
  end.

Definition visibleNodes (st : State) : list NodeInfo :=
  getVisibleNodes (expandedNodes st) (treeData st) [] None.

(** *** The layout pass *)

Definition horizontalSpacing : Q := 250.
Definition minNodeSpacing : Q := 20.
Definition maxNodeSpacing : Q := 50.
Definition minGroupSpacing : Q := 10.
Definition maxGroupSpacing : Q := 40.

Definition ofCount (n : nat) : Q := inject_Z (Z.of_nat n).

Definition blank : NodeInfo :=
  mkInfo EmptyString EmptyString None frequency 0 false false None 0 0.

Definition setXY (nx ny : Q) (n : NodeInfo) : NodeInfo :=
  mkInfo (nid n) (nname n) (nvalue n) (nnodeType n) (nlevel n)
    (hasChildren n) (isExpanded n) (parent n) nx ny.

(** Assignment to the fields of the object at position [i]. *)
Fixpoint update (i : nat) (f : NodeInfo -> NodeInfo) (store : list NodeInfo)
    : list NodeInfo :=
  match store, i with
  | [], _ => []
  | n :: rest, O => f n :: rest
  | n :: rest, S i' => n :: update i' f rest
  end.

Definition get (store : list NodeInfo) (i : nat) : NodeInfo :=
  nth i store blank.

(** [visibleNodes.find(n => n.nodeType === 'root')], as a position. *)
Fixpoint findRoot (nodes : list NodeInfo) (i : nat) : option nat :=
  match nodes with
  | [] => None
  | n :: rest => if isRoot (nnodeType n) then Some i else findRoot rest (S i)
  end.

Definition positionRoot (nodes : list NodeInfo) : list NodeInfo :=
  match findRoot nodes 0 with
  | Some i => update i (setXY 50 200) nodes
  | None => nodes
  end.

(** The keys of [nodesByLevel], parsed and sorted ascending. *)
Fixpoint insertLevel (l : Z) (ls : list Z) : list Z :=
  match ls with
  | [] => [l]
  | k :: rest =>
      if (l <? k)%Z then l :: k :: rest
      else if (l =? k)%Z then k :: rest
      else k :: insertLevel l rest
  end.

Definition levelsOf (nodes : list NodeInfo) : list Z :=
  fold_left (fun acc n => insertLevel (nlevel n) acc) nodes [].

(** [nodesByLevel[level]]: the nodes of a level, by position, in array
    order. *)
Definition levelNodes (nodes : list NodeInfo) (level : Z) : list nat :=
  filter (fun i => (nlevel (get nodes i) =? level)%Z)
         (seq 0 (List.length nodes)).

(** [node.parent ? node.parent.id : 'none']. *)
Definition parentId (nodes : list NodeInfo) (i : nat) : string :=
  match parent (get nodes i) with
  | Some p => nid (get nodes p)
  | None => "none"%string
  end.

(** [nodesByParent[parentId].push(node)], creating the entry at the end
    when the key is new. *)
Fixpoint pushTo (key : string) (i : nat) (groups : list (string * list nat))
    : list (string * list nat) :=
  match groups with
  | [] => [(key, [i])]
  | (k, members) :: rest =>
      if String.eqb k key then (k, members ++ [i]) :: rest
      else (k, members) :: pushTo key i rest
  end.

(** [Object.values(nodesByParent)]: the sibling groups of a level in the
    order their keys were created (the ids of this program are never
    array-index strings, so key order is insertion order). *)
Definition siblingGroups (nodes : list NodeInfo) (level : Z)
    : list (list nat) :=
  map snd
    (fold_left (fun groups i => pushTo (parentId nodes i) i groups)
       (levelNodes nodes level) []).

Definition totalNodes (nodes : list NodeInfo) : nat :=
  List.length (filter (fun n => isFrequency (nnodeType n)) nodes).

Definition nodeSpacingFactor (nodes : list NodeInfo) : Q :=
  Qmax 0 (Qmin 1 ((60 - ofCount (totalNodes nodes)) / 60)).

Definition nodeSpacing (nodes : list NodeInfo) : Q :=
  minNodeSpacing + (maxNodeSpacing - minNodeSpacing) * nodeSpacingFactor nodes.

Definition groupSpacing (nodes : list NodeInfo) : Q :=
  minGroupSpacing + (maxGroupSpacing - minGroupSpacing) * nodeSpacingFactor nodes.

(** [siblings.forEach((node, index) => { node.x = x; node.y = .. })]. *)
Fixpoint placeSiblings (siblings : list nat) (index : nat) (gx startY ns : Q)
    (store : list NodeInfo) : list NodeInfo :=
  match siblings with
  | [] => store
  | i :: rest =>
      placeSiblings rest (S index) gx startY ns
        (update i (setXY gx (startY + ofCount index * ns)) store)
  end.

(** The variables of one level's pass. *)
Record Cursor : Type := mkCursor {
  store : list NodeInfo;
  globalY : Q;
  isFirstGroup : bool
}.

(** The callback of [Object.values(nodesByParent).forEach]. *)
Definition placeGroup (ns gs : Q) (c : Cursor) (siblings : list nat) : Cursor :=
  match siblings with
  | [] => c
  | first :: _ =>
      match parent (get (store c) first) with
      | None => c
      | Some p =>
          let par := get (store c) p in
          let gx := x par + horizontalSpacing in
          let groupHeight := ofCount (List.length siblings - 1) * ns in
          let startY :=
            if isFirstGroup c then Qmax (-500) (y par - 100)
            else Qmax (globalY c) (y par - 200) in
          mkCursor (placeSiblings siblings 0 gx startY ns (store c))
            (Qmax (globalY c) (startY + groupHeight + gs))
            false
      end
  end.

(** The callback of the second [levels.forEach]; [nodes] is the array as it
    was passed in, whose [level], [parent] and [id] fields the pass never
    writes. *)
Definition placeLevel (nodes : list NodeInfo) (ns gs : Q)
    (st : list NodeInfo) (level : Z) : list NodeInfo :=
  if (level =? -1)%Z then st
  else
    store (fold_left (placeGroup ns gs) (siblingGroups nodes level)
             (mkCursor st (-10) true)).

Definition calculatePositions (nodes : list NodeInfo) : list NodeInfo :=
  fold_left (placeLevel nodes (nodeSpacing nodes) (groupSpacing nodes))
    (levelsOf nodes) (positionRoot nodes).

End LayoutEngine.

(** ** Example states *)

Module Examples.

Import TreeModel.

(** A sequence of clicks on nodes, from left to right. *)
Fixpoint clicks (toFixed : float -> nat -> string) (theBaseFreq : float)
    (nHarmonics : nat) (mode : string) (maxLevel : nat)
    (customRatios : option (list float)) (st : State) (nodeIds : list string)
    : result State :=
  match nodeIds with
  | [] => Ok st
  | i :: rest =>
      st' <- toggleNode toFixed theBaseFreq nHarmonics mode maxLevel
               customRatios st i ;;
      clicks toFixed theBaseFreq nHarmonics mode maxLevel customRatios st' rest
  end.

(** A stand-in for [toFixed] that prints nothing. *)
Definition noName (x : float) (digits : nat) : string := EmptyString.

(** The bare root for base 440 with nothing expanded, and the state after
    expanding it (harmonic mode, breadth 3, depth 2). *)
Definition start : State :=
  mkState (createFrequencyTree noName 440%float) [].

Definition afterExpand : State :=
  match expand noName 440%float 3 "harmonic" 2 None start "root" with
  | Ok st => st
  | Throw _ => start
  end.

(** A state reached by clicks: the root collapsed and expanded again, then
    two of its children expanded. *)
Definition explored : State :=
  match clicks noName 440%float 3 "harmonic" 2 None
          (initialState noName 440%float)
          ["root"; "root"; "h0-1"; "h0-2"]%string with
  | Ok st => st
  | Throw _ => start
  end.

End Examples.

(** ** Vocabulary of the properties *)

Module Vocabulary.

(** [full m d t]: [t] is an array nested [d + 1] levels deep with [m]
    entries in every array, and every leaf is a number that is not NaN. *)
Fixpoint full (m d : nat) (t : nested) {struct d} : Prop :=
  match t with
  | Num _ => False
  | Arr items =>
      List.length items = m
      /\ match d with
         | O => Forall (fun it => exists x, it = Num x /\ isNaN x = false) items
         | S d' => Forall (full m d') items
         end
  end.

(** [m + m^2 + .. + m^(maxLevel+1)]. *)
Fixpoint sumPowers (m maxLevel : nat) : nat :=
  match maxLevel with
  | O => m
  | S k => sumPowers m k + m ^ (S (S k))
  end.

(** [m^(k+1) + m^(k+2) + ..], [n] terms. *)
Fixpoint sumFrom (m k n : nat) : nat :=
  match n with
  | O => 0
  | S n' => m ^ S k + sumFrom m (S k) n'
  end.

(** The number of frequencies a valid mode returns for a breadth: the
    breadth, capped by the size of the mode's ratio table. *)
Definition seriesLength (breadth : nat) (mode : string)
    (customRatios : option (list float)) : nat :=
  if String.eqb mode "harmonic" then breadth
  else if String.eqb mode "just" then Nat.min breadth 13
  else if String.eqb mode "equal" then Nat.min breadth 12
  else match customRatios with
       | Some ratios => Nat.min breadth (List.length ratios)
       | None => 0
       end.

(** The pairs [(l[i], l[j])] with [i < j], in the order of [(i, j)]. *)
Fixpoint pairsInOrder {A : Type} (l : list A) : list (A * A) :=
  match l with
  | [] => []
  | a :: l' => map (pair a) l' ++ pairsInOrder l'
  end.

(** A pair of records whose relative difference lies strictly between 0 and
    the threshold, and the entry reported for it. *)
Definition isClose (threshold : float) (p : FrequencyRecord * FrequencyRecord)
    : bool :=
  let d := relativeDifference (frequency (fst p)) (frequency (snd p)) in
  (PrimFloat.ltb 0%float d && PrimFloat.ltb d threshold)%bool.

Definition proximityPair (p : FrequencyRecord * FrequencyRecord)
    : ProximityPair :=
  mkPair (frequency (fst p)) (frequency (snd p)) (pathString (fst p))
    (pathString (snd p))
    (relativeDifference (frequency (fst p)) (frequency (snd p)))
    (level (fst p)) (level (snd p)).

(** [Math.min] on two numbers: NaN when either is NaN, and [-0] is smaller
    than [+0]. *)
Definition Math_min (a b : float) : float :=
  if (isNaN a || isNaN b)%bool then nan
  else if PrimFloat.ltb a b then a
  else if PrimFloat.ltb b a then b
  else if get_sign a then a else b.

(** A fraction the search may return: reduced, with
    [1 <= numerator <= denominator <= maxDenominator]. *)
Definition isCandidate (maxDenominator : nat) (c : nat * nat) : Prop :=
  1 <= fst c /\ fst c <= snd c /\ snd c <= maxDenominator
  /\ Nat.gcd (fst c) (snd c) = 1.

(** Ascending (denominator, numerator) order. *)
Definition examinedBefore (c c' : nat * nat) : Prop :=
  snd c < snd c' \/ (snd c = snd c' /\ fst c < fst c').

(** [b] is the closest candidate to [actual], distances being computed in
    doubles as the program does: no candidate is strictly closer, and no
    candidate examined earlier is equally close. *)
Definition closestAmong (maxDenominator : nat) (actual : float) (b : best)
    : Prop :=
  isCandidate maxDenominator (snd b)
  /\ fst b = diffTo actual (snd b)
  /\ PrimFloat.ltb (fst b) infinity = true
  /\ (forall c, isCandidate maxDenominator c ->
         PrimFloat.ltb (diffTo actual c) (fst b) = false)
  /\ (forall c, isCandidate maxDenominator c -> examinedBefore c (snd b) ->
         PrimFloat.eqb (diffTo actual c) (fst b) = false).

(** A sibling group the layout pass positions: its first member has a
    parent. *)
Definition placed (nodes : list LayoutEngine.NodeInfo) (g : list nat) : Prop :=
  match g with
  | first :: _ =>
      LayoutEngine.parent (LayoutEngine.get nodes first) <> None
  | [] => False
  end.

(** The [y] the layout pass leaves at position [i]. *)
Definition finalY (nodes : list LayoutEngine.NodeInfo) (i : nat) : Q :=
  LayoutEngine.y (LayoutEngine.get (LayoutEngine.calculatePositions nodes) i).

(** The layout property at one level of the visible nodes: with positive
    spacings, (1) every node of the level is in a sibling group, (2) two
    different nodes of the level under the same parent get different [y],
    (3) consecutive siblings of a group are [nodeSpacing] apart, and (4)
    every node of a group lies at least [groupSpacing], so strictly, above
    every node of a group placed later at that level. *)
Definition noOverlap (nodes : list LayoutEngine.NodeInfo) (level : Z) : Prop :=
  (0 < LayoutEngine.nodeSpacing nodes)%Q
  /\ (0 < LayoutEngine.groupSpacing nodes)%Q
  /\ (forall i, i < List.length nodes ->
         LayoutEngine.nlevel (LayoutEngine.get nodes i) = level ->
         exists g, In g (LayoutEngine.siblingGroups nodes level) /\ In i g)
  /\ (forall i j p, i <> j ->
         i < List.length nodes -> j < List.length nodes ->
         LayoutEngine.nlevel (LayoutEngine.get nodes i) = level ->
         LayoutEngine.nlevel (LayoutEngine.get nodes j) = level ->
         LayoutEngine.parent (LayoutEngine.get nodes i) = Some p ->
         LayoutEngine.parent (LayoutEngine.get nodes j) = Some p ->
         ~ (finalY nodes i == finalY nodes j)%Q)
  /\ (forall g r i i',
         In g (LayoutEngine.siblingGroups nodes level) ->
         nth_error g r = Some i -> nth_error g (S r) = Some i' ->
         (finalY nodes i' == finalY nodes i + LayoutEngine.nodeSpacing nodes)%Q)
  /\ (forall a b ga gb i j,
         a < b ->
         nth_error (LayoutEngine.siblingGroups nodes level) a = Some ga ->
         nth_error (LayoutEngine.siblingGroups nodes level) b = Some gb ->
         In i ga -> In j gb ->
         (finalY nodes i + LayoutEngine.groupSpacing nodes <= finalY nodes j)%Q
         /\ (finalY nodes i < finalY nodes j)%Q).

(** A string without the character [-]. *)
Fixpoint noDash (s : string) : Prop :=
  match s with
  | EmptyString => True
  | String c s' => c <> "-"%char /\ noDash s'
  end.

(** The id of the frequency node reached from the root by the child
    positions [path], given last position first: [h0-i] below the root and
    [h<depth>-<id of the parent>-<i>] further down. *)
Fixpoint idOfPath (path : list nat) : string :=
  match path with
  | [] => EmptyString
  | [i] => ("h0-" ++ showNat i)%string
  | i :: parentPath =>
      ("h" ++ showNat (List.length parentPath) ++ "-" ++ idOfPath parentPath
         ++ "-" ++ showNat i)%string
  end.

(** A well-formed frequency node at [path] (last position first): it
    carries the id and the level of its path, and its children sit at the
    paths that extend it by their positions 0, 1, 2, ... *)
Fixpoint wellFormedAt (path : list nat) (n : TreeModel.TreeNode) : Prop :=
  match n with
  | TreeModel.mkNode i _ _ l ty _ _ _ _ cs =>
      i = idOfPath path
      /\ l = (Z.of_nat (List.length path) - 1)%Z
      /\ ty = TreeModel.frequency
      /\ (fix kids (k : nat) (cs : list TreeModel.TreeNode) : Prop :=
            match cs with
            | [] => True
            | c :: cs' => wellFormedAt (k :: path) c /\ kids (S k) cs'
            end) 0 cs
  end.

Fixpoint wellFormedKids (path : list nat) (k : nat)
    (cs : list TreeModel.TreeNode) : Prop :=
  match cs with
  | [] => True
  | c :: cs' => wellFormedAt (k :: path) c /\ wellFormedKids path (S k) cs'
  end.

(** A well-formed tree: the root as [createFrequencyTree] makes it, over
    well-formed children. *)
Definition wellFormed (t : TreeModel.TreeNode) : Prop :=
  TreeModel.id t = "root"%string
  /\ TreeModel.level t = (-1)%Z
  /\ TreeModel.nodeType t = TreeModel.root
  /\ wellFormedKids [] 0 (TreeModel.children t).

(** A leaf that is a number and not NaN. *)
Definition goodLeaf (it : nested) : Prop :=
  exists x, it = Num x /\ isNaN x = false.

(** The entries of [structure.levels] from depth [d] on, each full at its
    own depth. *)
Fixpoint fullLevels (m d : nat) (ls : list nested) : Prop :=
  match ls with
  | [] => True
  | t :: ls' => full m d t /\ fullLevels m (S d) ls'
  end.

Definition atLevel (d : nat) (r : FrequencyRecord) : bool :=
  (level r =? Z.of_nat d)%Z.

(** What the extractor emits for level [levelIndex]: the level index and a
    frequency that is not NaN. *)
Definition emitted (levelIndex : nat) (r : FrequencyRecord) : Prop :=
  level r = Z.of_nat levelIndex /\ isNaN (frequency r) = false.

End Vocabulary.

Import Vocabulary.

(** ** MatchFinder: [findMatches] of the tree component *)

Module MatchFinder.

Import TreeModel LayoutEngine.

Local Open Scope float_scope.

(** An entry of [allFrequencies]. *)
Record Shown : Type := mkShown {
  sid : string;
  sfreq : float;
  sx : Q;
  sy : Q;
  sname : string
}.

(** [node.value && ..]: a value that is a number other than NaN and the
    zeros; [null] is falsy. *)
Definition truthyValue (v : option float) : bool :=
  match v with
  | Some f => negb (falsyNumber f)
  | None => false
  end.

(** The callback of [visibleNodes.forEach]. *)
Definition shown (node : NodeInfo) : list Shown :=
  if (truthyValue (nvalue node) && isFrequency (nnodeType node))%bool then
    [ mkShown (nid node) (toNumber (nvalue node)) (x node) (y node)
        (nname node) ]
  else [].

Record CloseMatch : Type := mkMatch {
  id1 : string;
  id2 : string;
  mfreq1 : float;
  mfreq2 : float;
  x1 : Q;
  x2 : Q;
  y1 : Q;
  y2 : Q;
  mdifference : float;
  name1 : string;
  name2 : string
}.

(** The body of the inner loop. *)
Definition matchPair (threshold : float) (f1 f2 : Shown) : list CloseMatch :=
  let relDiff := abs (sfreq f1 - sfreq f2) / Math_max (sfreq f1) (sfreq f2) in
  if ((relDiff <? threshold) && (0 <? relDiff))%bool then
    [ mkMatch (sid f1) (sid f2) (sfreq f1) (sfreq f2) (sx f1) (sx f2)
        (sy f1) (sy f2) relDiff (sname f1) (sname f2) ]
  else [].

(** [findMatches()], returning what it passes to [setCloseMatches]. *)
Definition findMatches (st : State) (threshold : float) : list CloseMatch :=
  let rawVisibleNodes := LayoutEngine.visibleNodes st in
  let visibleNodes := calculatePositions rawVisibleNodes in
  let allFrequencies := flat_map shown visibleNodes in
  forPairs allFrequencies (List.length allFrequencies) (matchPair threshold).

End MatchFinder.

(** ** The connection lines drawn by [renderTree] *)

Module TreeRender.

Import TreeModel LayoutEngine.

Local Open Scope Q_scope.







End TreeRender.

(** ** PhaseSpaceView: the points of the phase space chart *)

Module PhaseSpace.

Local Open Scope float_scope.

Record Point : Type := mkPoint {
  px : float;
  py : float;
  pathKey : string;
  ratio01 : float;
  ratio12 : float;
  isStable : bool;
  stabilityError : float;
  avgRatio : float
}.

Definition atLevelZ (l : Z) (f : FrequencyRecord) : bool := (level f =? l)%Z.

(** [f.path[k] === i]; a missing entry is [undefined] and equals no
    index. *)
Definition pathIs (f : FrequencyRecord) (k i : nat) : bool :=
  match nth_error (path f) k with
  | Some j => Nat.eqb j i
  | None => false
  end.

(** An entry of a path inside a template literal. *)
Definition showEntry (f : FrequencyRecord) (k : nat) : string :=
  match nth_error (path f) k with
  | Some j => showNat j
  | None => "undefined"
  end.

Definition h0Freqs (allFreqs : list FrequencyRecord) : list FrequencyRecord :=
  firstn 8 (filter (atLevelZ 0) allFreqs).

Definition h1Freqs (allFreqs : list FrequencyRecord) (index : nat)
    : list FrequencyRecord :=
  firstn 8
    (filter
       (fun f => (atLevelZ 1 f && (2 <=? List.length (path f))%nat
                  && pathIs f 0 index)%bool)
       allFreqs).

Definition h2Freqs (allFreqs : list FrequencyRecord) (index h1Index : nat)
    : list FrequencyRecord :=
  firstn 4
    (filter
       (fun f => (atLevelZ 2 f && (3 <=? List.length (path f))%nat
                  && pathIs f 0 index && pathIs f 1 h1Index)%bool)
       allFreqs).

(** The callback of [h2Freqs.forEach]; 0.05 is the double nearest to it. *)
Definition point (h0 h1 h2 : FrequencyRecord) (index h1Index : nat)
    : list Point :=
  if ((0 <? frequency h0) && (0 <? frequency h1) && (0 <? frequency h2))%bool
  then
    let r01 := frequency h1 / frequency h0 in
    let r12 := frequency h2 / frequency h1 in
    if ((1 <=? r01) && (r01 <=? 8) && (1 <=? r12) && (r12 <=? 8))%bool then
      [ mkPoint r01 r12
          (showNat index ++ "-" ++ showNat h1Index ++ "-" ++ showEntry h2 2)
          r01 r12
          (abs (r01 - r12) <? 0x1.999999999999ap-5)
          (abs (r01 - r12))
          ((r01 + r12) / 2) ]
    else []
  else [].

Definition phaseSpaceData (allFreqs : list FrequencyRecord) : list Point :=
  forEachIndexed
    (fun h0 index =>
       forEachIndexed
         (fun h1 h1Index =>
            flat_map (fun h2 => point h0 h1 h2 index h1Index)
                     (h2Freqs allFreqs index h1Index))
         0 (h1Freqs allFreqs index))
    0 (h0Freqs allFreqs).

(** The component computes the points only when a base record exists;
    [None] is the early return [No base frequency found]. *)
Definition phaseSpacePoints (structure : HarmonicStructure)
    : option (list Point) :=
  let allFreqs := extractAllFrequenciesWithPaths structure in
  if existsb (atLevelZ (-1)) allFreqs then Some (phaseSpaceData allFreqs)
  else None.

End PhaseSpace.

(** ** Text *)

Module Text.

(** [s.split(sep)] for a separator of one character: the pieces between
    the separators, the empty ones included; a string without the
    separator is its own single piece. *)
Fixpoint split (sep : ascii) (s : string) : list string :=
  match s with
  | EmptyString => [EmptyString]
  | String c s' =>
      if Ascii.eqb c sep then EmptyString :: split sep s'
      else
        match split sep s' with
        | piece :: rest => String c piece :: rest
        | [] => [String c EmptyString]
        end
  end.

End Text.

(** ** The explorer's inputs: [handleCustomRatiosChange] *)

Module Explorer.

Import Text.

Local Open Scope float_scope.

Record Inputs : Type := mkInputs {
  customRatios : list float;
  customRatiosInput : string
}.

(** [useState] of the two fields. *)
Definition initialInputs : Inputs :=
  mkInputs [1; 1.25; 1.5; 1.75; 2; 2.25; 2.5; 2.75]
           "1, 1.25, 1.5, 1.75, 2, 2.25, 2.5, 2.75".

(** [n => !isNaN(n) && n > 0]. *)
Definition accepted (n : float) : bool := (negb (isNaN n) && (0 <? n))%bool.

Section Handler.

(** [s => parseFloat(s.trim())], a function of the platform. *)
Variable parseNumber : string -> float.

Definition parseRatios (value : string) : list float :=
  filter accepted (map parseNumber (split "," value)).

(** Nothing inside the [try] throws on a string, so the [catch] is never
    entered. *)
Definition handleCustomRatiosChange (st : Inputs) (value : string) : Inputs :=
  let ratios := parseRatios value in
  if ((2 <=? List.length ratios) && (List.length ratios <=? 20))%nat%bool then
    mkInputs ratios value
  else mkInputs (customRatios st) value.

End Handler.

(** The three results [calculateResults] stores. *)
Record Results : Type := mkResults {
  harmonicStructure : option HarmonicStructure;
  closePairs : list ProximityPair;
  ratios : list RatioEntry
}.

Definition initialResults : Results := mkResults None [] [].

(** [calculateResults()]: [baseFrequency] is the parsed base; an exception
    of the generator is caught and logged, and no result is stored. *)
Definition calculateResults (baseFrequency : float) (recursionLevel : nat)
    (nHarmonics : nat) (mode : string) (ratiosKept : list float)
    (threshold : float) (maxDenominator : nat) (previous : Results)
    : Results :=
  match
    generateHarmonicStructure nHarmonics mode
      (if String.eqb mode "custom" then Some ratiosKept else None)
      baseFrequency recursionLevel
  with
  | Ok structure =>
      mkResults (Some structure)
        (findCloseFrequencies structure threshold)
        (analyzeFrequencyRatios structure maxDenominator)
  | Throw _ => previous
  end.

End Explorer.

(** ** Notions of the further properties *)

Module Notions.

(** The pieces of an id between its dashes, for the id of a path (last
    position first): the level tags [h<d>], .., [h0], then the child
    positions from the root down. *)
Definition tags (path : list nat) : list string :=
  map (fun k => ("h" ++ showNat k)%string) (rev (seq 0 (List.length path))).

Definition positions (path : list nat) : list string :=
  map showNat (rev path).

Definition isTag (s : string) : bool :=
  match s with
  | String c _ => Ascii.eqb c "h"
  | EmptyString => false
  end.

(** A mode the tuning rule accepts. *)
Definition validMode (mode : string) (customRatios : option (list float))
    : Prop :=
  (mode = "harmonic" \/ mode = "just" \/ mode = "equal"
   \/ (mode = "custom" /\ customRatios <> None))%string.

(** The index paths of the records of level [d] over arrays of [m] entries,
    in the order the extractor visits them: the first index varies
    slowest. *)
Fixpoint tuples (m d : nat) : list (list nat) :=
  match d with
  | O => map (fun i => [i]) (seq 0 m)
  | S d' => flat_map (fun i => map (cons i) (tuples m d')) (seq 0 m)
  end.

(** The frequency reached from [f] by multiplying, from left to right, by
    the ratios at the indices of a path. *)
Definition frequencyAt (rs : list float) (f : float) (p : list nat) : float :=
  fold_left (fun x i => (x * nth i rs nan)%float) p f.

Definition recordAt (rs : list float) (f : float) (d : nat) (p : list nat)
    : FrequencyRecord :=
  mkRecord (frequencyAt rs f p) (Z.of_nat d) p (levelLabel d p).

(** The nested array of level [d] that grows below the frequency [f]:
    the series of [f] at level 0, and at level [d + 1] one array of level
    [d] below every member of the series of [f]. *)
Fixpoint levelBelow (rs : list float) (d : nat) (f : float) : nested :=
  match d with
  | O => numbers (map (fun ratio => (f * ratio)%float) rs)
  | S d' => Arr (map (fun ratio => levelBelow rs d' (f * ratio)%float) rs)
  end.

(** A number that is neither NaN nor an infinity. *)
Definition finiteNumber (x : float) : bool :=
  match Prim2SF x with
  | S754_finite _ _ _ | S754_zero _ => true
  | _ => false
  end.

(** The nodes of a tree, parents before children. *)
Fixpoint treeNodes (t : TreeModel.TreeNode) : list TreeModel.TreeNode :=
  match t with
  | TreeModel.mkNode _ _ _ _ _ _ _ _ _ cs => t :: flat_map treeNodes cs
  end.

(** The nodes of a tree lie no deeper than [maxLevel]. *)
Definition withinDepth (maxLevel : nat) (t : TreeModel.TreeNode) : Prop :=
  Forall (fun n => (TreeModel.level n <= Z.of_nat maxLevel)%Z) (treeNodes t).

(** Every child sits one level below its parent. *)
Definition stepsDown (t : TreeModel.TreeNode) : Prop :=
  Forall
    (fun n =>
       Forall (fun c => TreeModel.level c = (TreeModel.level n + 1)%Z)
              (TreeModel.children n))
    (treeNodes t).

(** The parent references of a run of visible nodes that starts at index
    [start] of the array: every entry but the first refers to an earlier
    entry of the run, which is expanded, has children and sits one level
    up. *)
Definition linked (start : nat) (l : list LayoutEngine.NodeInfo) : Prop :=
  forall k n,
    nth_error l (S k) = Some n ->
    exists p m,
      LayoutEngine.parent n = Some (start + p)
      /\ p <= k
      /\ nth_error l p = Some m
      /\ LayoutEngine.nlevel n = (LayoutEngine.nlevel m + 1)%Z
      /\ LayoutEngine.isExpanded m = true
      /\ LayoutEngine.hasChildren m = true.

(** Ratios the input handler stores: between 2 and 20 numbers, each
    greater than zero. *)
Definition storable (rs : list float) : Prop :=
  2 <= List.length rs <= 20
  /\ Forall (fun r => Explorer.accepted r = true) rs.

(** The column of a level: the root's [x] plus one horizontal spacing
    per level below the root. *)
Definition columnOf (level : Z) : Q :=
  (50 + 250 * inject_Z (level + 1))%Q.

(** The [x] the layout pass leaves at position [i]. *)
Definition finalX (nodes : list LayoutEngine.NodeInfo) (i : nat) : Q :=
  LayoutEngine.x (LayoutEngine.get (LayoutEngine.calculatePositions nodes) i).

End Notions.

Import Notions.

(** ** Further example states *)

Module MoreExamples.

Import TreeModel Examples.

(** The root collapsed and expanded again, then its child [h0-1] and that
    child's first child expanded (base 440, harmonic mode, breadth 3,
    depth 2). *)
Definition deep : State :=
  match clicks noName 440%float 3 "harmonic" 2 None
          (initialState noName 440%float)
          ["root"; "root"; "h0-1"; "h1-h0-1-0"]%string with
  | Ok st => st
  | Throw _ => start
  end.

End MoreExamples.

(* ================================================================== *)
(** * Part II: properties *)
(* ================================================================== *)

(** ** Facts about binary64 arithmetic *)

Module FloatFacts.

Local Open Scope float_scope.

Lemma SFcompare_refl (s : spec_float) :
  s <> S754_nan -> SFcompare s s = Some Eq.
Proof.
  destruct s as [sg | sg | | sg m e]; simpl; intros H; try congruence.
  - destruct sg; reflexivity.
  - rewrite Z.compare_refl.
    change (PosDef.Pos.compare_cont Eq m m) with (Pos.compare m m).
    rewrite Pos.compare_refl. destruct sg; reflexivity.
Qed.

Lemma isNaN_true (x : float) : isNaN x = true <-> Prim2SF x = S754_nan.
Proof.
  unfold isNaN, is_nan. rewrite FloatAxioms.eqb_spec. unfold SFeqb. split.
  - intros H. destruct (Prim2SF x) eqn:E; try reflexivity;
      rewrite SFcompare_refl in H by congruence; discriminate.
  - intros ->. reflexivity.
Qed.

Lemma isNaN_false (x : float) : isNaN x = false <-> Prim2SF x <> S754_nan.
Proof.
  rewrite <- isNaN_true. destruct (isNaN x); split; congruence.
Qed.

Lemma isNaN_nan (x : float) : isNaN x = true -> x = nan.
Proof.
  intros H. apply Prim2SF_inj. apply isNaN_true in H. rewrite H. reflexivity.
Qed.

Lemma mul_nan_l (x y : float) : isNaN x = true -> isNaN (x * y) = true.
Proof.
  rewrite !isNaN_true, mul_spec. intros ->. reflexivity.
Qed.

(** Rounding never yields NaN from a non-negative mantissa. *)
Lemma shr_1_nonneg (r : shr_record) :
  (0 <= shr_m r)%Z -> (0 <= shr_m (shr_1 r))%Z.
Proof.
  destruct r as [m rb sb]. simpl. intros H.
  destruct m as [| p | p]; simpl; try lia; destruct p; simpl; lia.
Qed.

Lemma iter_shr_1_nonneg (p : positive) (r : shr_record) :
  (0 <= shr_m r)%Z -> (0 <= shr_m (SpecFloat.iter_pos shr_1 p r))%Z.
Proof.
  revert r. induction p as [p IH | p IH |]; intros r H; simpl.
  - apply IH, IH, shr_1_nonneg, H.
  - apply IH, IH, H.
  - apply shr_1_nonneg, H.
Qed.

Lemma shr_fexp_nonneg (m e : Z) (l : location) :
  (0 <= m)%Z -> (0 <= shr_m (fst (shr_fexp prec emax m e l)))%Z.
Proof.
  intros H. unfold shr_fexp, shr.
  assert (H0 : (0 <= shr_m (shr_record_of_loc m l))%Z).
  { unfold shr_record_of_loc. destruct l as [| []]; simpl; exact H. }
  destruct (fexp prec emax (Zdigits2 m + e) - e)%Z; simpl; auto.
  apply iter_shr_1_nonneg, H0.
Qed.

Lemma round_nearest_even_nonneg (m : Z) (l : location) :
  (0 <= m)%Z -> (0 <= round_nearest_even m l)%Z.
Proof.
  intros H. unfold round_nearest_even.
  destruct l as [| []]; try lia. destruct (IntDef.Z.even m); lia.
Qed.

Lemma binary_round_aux_not_nan (sx : bool) (mx ex : Z) (lx : location) :
  (0 <= mx)%Z -> binary_round_aux prec emax sx mx ex lx <> S754_nan.
Proof.
  intros H. unfold binary_round_aux.
  pose proof (@shr_fexp_nonneg mx ex lx H) as H1.
  destruct (shr_fexp prec emax mx ex lx) as [mrs' e'] eqn:E1. simpl in H1.
  pose proof (@round_nearest_even_nonneg _ (loc_of_shr_record mrs') H1) as H2.
  pose proof (@shr_fexp_nonneg _ e' loc_Exact H2) as H3.
  destruct (shr_fexp prec emax _ e' loc_Exact) as [mrs'' e''] eqn:E2.
  simpl in H3.
  destruct (shr_m mrs'') as [| p | p]; try discriminate; try lia.
  destruct (e'' <=? emax - prec)%Z; discriminate.
Qed.

Lemma mul_not_nan (x r : float) :
  isNaN x = false -> finiteNonzero r = true -> isNaN (x * r) = false.
Proof.
  rewrite !isNaN_false, mul_spec. unfold finiteNonzero.
  destruct (Prim2SF r) as [| | | sr mr er]; try discriminate.
  intros Hx _. destruct (Prim2SF x) as [sx | sx | | sx mx ex]; simpl;
    try discriminate; try congruence.
  apply binary_round_aux_not_nan. lia.
Qed.

End FloatFacts.

Import FloatFacts.

Module FloatOrder.

Local Open Scope float_scope.

(** The comparison of two finite numbers of the same sign is the
    lexicographic comparison of (exponent, mantissa), reversed for negative
    numbers. *)
Abbreviation lexCompare e1 m1 e2 m2 :=
  (match (e1 ?= e2)%Z with
   | Eq => PosDef.Pos.compare_cont Eq m1 m2
   | Lt => Lt
   | Gt => Gt
   end) (only parsing).

Abbreviation lexCompareOpp e1 m1 e2 m2 :=
  (match (e1 ?= e2)%Z with
   | Eq => CompOpp (PosDef.Pos.compare_cont Eq m1 m2)
   | Lt => Gt
   | Gt => Lt
   end) (only parsing).

Ltac lexCases e1 m1 e2 m2 :=
  change (PosDef.Pos.compare_cont Eq m1 m2) with (Pos.compare m1 m2);
  destruct (Z.compare_spec e1 e2); destruct (Pos.compare_spec m1 m2);
  simpl; split; intros; try discriminate; try reflexivity; try lia.

Lemma lexCompare_Lt e1 m1 e2 m2 :
  lexCompare e1 m1 e2 m2 = Lt <->
  (e1 < e2 \/ e1 = e2 /\ Z.pos m1 < Z.pos m2)%Z.
Proof. lexCases e1 m1 e2 m2. Qed.

Lemma lexCompare_Gt e1 m1 e2 m2 :
  lexCompare e1 m1 e2 m2 = Gt <->
  (e2 < e1 \/ e1 = e2 /\ Z.pos m2 < Z.pos m1)%Z.
Proof. lexCases e1 m1 e2 m2. Qed.

Lemma lexCompare_Eq e1 m1 e2 m2 :
  lexCompare e1 m1 e2 m2 = Eq <-> (e1 = e2 /\ Z.pos m1 = Z.pos m2).
Proof. lexCases e1 m1 e2 m2; split; lia. Qed.

Lemma lexCompareOpp_Lt e1 m1 e2 m2 :
  lexCompareOpp e1 m1 e2 m2 = Lt <->
  (e2 < e1 \/ e1 = e2 /\ Z.pos m2 < Z.pos m1)%Z.
Proof. lexCases e1 m1 e2 m2. Qed.

Lemma lexCompareOpp_Gt e1 m1 e2 m2 :
  lexCompareOpp e1 m1 e2 m2 = Gt <->
  (e1 < e2 \/ e1 = e2 /\ Z.pos m1 < Z.pos m2)%Z.
Proof. lexCases e1 m1 e2 m2. Qed.

Lemma lexCompareOpp_Eq e1 m1 e2 m2 :
  lexCompareOpp e1 m1 e2 m2 = Eq <-> (e1 = e2 /\ Z.pos m1 = Z.pos m2).
Proof. lexCases e1 m1 e2 m2; split; lia. Qed.

Ltac lex :=
  repeat match goal with
  | H : Some _ = Some _ |- _ => injection H as H
  end;
  rewrite ?lexCompare_Lt, ?lexCompare_Gt, ?lexCompare_Eq,
    ?lexCompareOpp_Lt, ?lexCompareOpp_Gt, ?lexCompareOpp_Eq in *.

Ltac cases3 a b c :=
  destruct a as [[] | [] | | [] ? ?]; destruct b as [[] | [] | | [] ? ?];
  destruct c as [[] | [] | | [] ? ?]; simpl; try congruence.

Ltac cases2 a b :=
  destruct a as [[] | [] | | [] ? ?]; destruct b as [[] | [] | | [] ? ?];
  simpl; try congruence.

Lemma SFcompare_Lt_trans (a b c : spec_float) :
  SFcompare a b = Some Lt -> SFcompare b c = Some Lt ->
  SFcompare a c = Some Lt.
Proof.
  cases3 a b c; intros H1 H2; try discriminate; f_equal; lex.
  all: lia.
Qed.

Lemma SFcompare_Eq_Lt (a b c : spec_float) :
  SFcompare a b = Some Eq -> SFcompare b c = Some Lt ->
  SFcompare a c = Some Lt.
Proof.
  cases3 a b c; intros H1 H2; try discriminate; f_equal; lex; lia.
Qed.

Lemma SFcompare_Lt_Gt (a b : spec_float) :
  SFcompare a b = Some Lt -> SFcompare b a = Some Gt.
Proof.
  cases2 a b; intros H1; try discriminate; f_equal; lex; lia.
Qed.

Lemma SFcompare_not_Lt_refl (a : spec_float) : SFcompare a a <> Some Lt.
Proof.
  destruct a as [[] | [] | | [] ? ?]; simpl; try congruence;
    intros H; lex; lia.
Qed.

Lemma ltb_trans (a b c : float) :
  (a <? b) = true -> (b <? c) = true -> (a <? c) = true.
Proof.
  rewrite !ltb_spec. unfold SFltb.
  destruct (SFcompare (Prim2SF a) (Prim2SF b)) as [[] |] eqn:E1; try discriminate.
  destruct (SFcompare (Prim2SF b) (Prim2SF c)) as [[] |] eqn:E2; try discriminate.
  rewrite (SFcompare_Lt_trans _ _ _ E1 E2). reflexivity.
Qed.

Lemma eqb_ltb_trans (a b c : float) :
  (a =? b) = true -> (b <? c) = true -> (a <? c) = true.
Proof.
  rewrite FloatAxioms.eqb_spec, !ltb_spec. unfold SFltb, SFeqb.
  destruct (SFcompare (Prim2SF a) (Prim2SF b)) as [[] |] eqn:E1; try discriminate.
  destruct (SFcompare (Prim2SF b) (Prim2SF c)) as [[] |] eqn:E2; try discriminate.
  rewrite (SFcompare_Eq_Lt _ _ _ E1 E2). reflexivity.
Qed.

Lemma ltb_irrefl (a : float) : (a <? a) = false.
Proof.
  rewrite ltb_spec. unfold SFltb.
  destruct (SFcompare (Prim2SF a) (Prim2SF a)) as [[] |] eqn:E; try reflexivity.
  exfalso. exact (SFcompare_not_Lt_refl _ E).
Qed.

Lemma ltb_leb_false (a b : float) : (a <? b) = true -> (b <=? a) = false.
Proof.
  rewrite ltb_spec, leb_spec. unfold SFltb, SFleb.
  destruct (SFcompare (Prim2SF a) (Prim2SF b)) as [[] |] eqn:E1; try discriminate.
  rewrite (SFcompare_Lt_Gt _ _ E1). reflexivity.
Qed.

Lemma ltb_eqb_false (a b : float) : (a <? b) = true -> (b =? a) = false.
Proof.
  rewrite ltb_spec, FloatAxioms.eqb_spec. unfold SFltb, SFeqb.
  destruct (SFcompare (Prim2SF a) (Prim2SF b)) as [[] |] eqn:E1; try discriminate.
  rewrite (SFcompare_Lt_Gt _ _ E1). reflexivity.
Qed.

End FloatOrder.

Import FloatOrder.

(** ** TuningRule *)

Section TuningRuleFacts.

Local Open Scope float_scope.

Variables (f : float) (nHarmonics : nat).

Lemma sortNum_just :
  sortNum JUST_INTONATION_RATIOS = JUST_INTONATION_RATIOS.
Proof. vm_compute. reflexivity. Qed.

Lemma length_just : List.length (sortNum JUST_INTONATION_RATIOS) = 13%nat.
Proof. rewrite sortNum_just. reflexivity. Qed.

Lemma length_equal : List.length EQUAL_TEMPERAMENT_RATIOS = 12%nat.
Proof. reflexivity. Qed.

(** Every valid mode multiplies [f] by a list of ratios that does not
    depend on [f]. *)
Lemma generate_ratios (mode : string) (customRatios : option (list float))
    (rs : list float) :
  ratiosOf nHarmonics mode customRatios = Some rs ->
  generateBaseFrequencies f nHarmonics mode customRatios
  = Ok (map (fun ratio => f * ratio) rs).
Proof.
  unfold ratiosOf, generateBaseFrequencies, generateHarmonicSeries.
  destruct (String.eqb mode "harmonic").
  { intros [= <-]. rewrite map_map. reflexivity. }
  destruct (String.eqb mode "just"). { intros [= <-]. reflexivity. }
  destruct (String.eqb mode "equal"). { intros [= <-]. reflexivity. }
  destruct (String.eqb mode "custom"); [| discriminate].
  destruct customRatios as [ratios |]; [| discriminate].
  intros [= <-]. reflexivity.
Qed.

Lemma generate_throws (mode : string) (customRatios : option (list float)) :
  ratiosOf nHarmonics mode customRatios = None ->
  generateBaseFrequencies f nHarmonics mode customRatios = Throw modeError.
Proof.
  unfold ratiosOf, generateBaseFrequencies.
  destruct (String.eqb mode "harmonic"); [discriminate |].
  destruct (String.eqb mode "just"); [discriminate |].
  destruct (String.eqb mode "equal"); [discriminate |].
  destruct (String.eqb mode "custom"); [| reflexivity].
  destruct customRatios; [discriminate | reflexivity].
Qed.

Lemma ratiosOf_valid (mode : string) (customRatios : option (list float)) :
  (exists rs, ratiosOf nHarmonics mode customRatios = Some rs) <->
  (mode = "harmonic" \/ mode = "just" \/ mode = "equal"
   \/ (mode = "custom" /\ customRatios <> None))%string.
Proof.
  unfold ratiosOf.
  destruct (String.eqb_spec mode "harmonic") as [-> | H1].
  { split; eauto. }
  destruct (String.eqb_spec mode "just") as [-> | H2].
  { split; eauto. }
  destruct (String.eqb_spec mode "equal") as [-> | H3].
  { split; eauto. }
  destruct (String.eqb_spec mode "custom") as [-> | H4].
  - destruct customRatios as [ratios |].
    + split; [intros _ | eauto]. do 3 right. split; congruence.
    + split; [intros [rs H]; discriminate |].
      intros [H | [H | [H | [_ H]]]]; congruence.
  - split; [intros [rs H]; discriminate |].
    intros [H | [H | [H | [H _]]]]; congruence.
Qed.

End TuningRuleFacts.

(** C2 (as amended).  For every [f] (NaN included) the tuning rule returns
    as many frequencies as the breadth asks for, capped by the size of the
    ratio table of the mode: [breadth] in harmonic mode, [min breadth 13] in
    just mode, [min breadth 12] in equal mode and [min breadth
    (length customRatios)] in custom mode.  The length is [breadth] exactly
    when breadth does not exceed the table. *)
Theorem C2_generate_length (f : float) (breadth : nat)
    (customRatios : option (list float)) :
  (exists l, generateBaseFrequencies f breadth "harmonic" customRatios = Ok l
             /\ List.length l = breadth)
  /\ (exists l, generateBaseFrequencies f breadth "just" customRatios = Ok l
                /\ List.length l = Nat.min breadth 13)
  /\ (exists l, generateBaseFrequencies f breadth "equal" customRatios = Ok l
                /\ List.length l = Nat.min breadth 12)
  /\ (forall ratios,
        exists l, generateBaseFrequencies f breadth "custom" (Some ratios) = Ok l
                  /\ List.length l = Nat.min breadth (List.length ratios)).
Proof.
  split; [| split; [| split]].
  - eexists. split; [reflexivity |].
    unfold generateHarmonicSeries. now rewrite length_map, length_seq.
  - eexists. split; [reflexivity |].
    now rewrite length_map, length_firstn, length_just.
  - eexists. split; [reflexivity |].
    now rewrite length_map, length_firstn, length_equal.
  - intros ratios. eexists. split; [reflexivity |].
    now rewrite length_map, length_firstn.
Qed.

(** C2, the claim as stated fails: breadth 13 is in the documented range,
    and equal mode returns 12 frequencies for it. *)
Lemma C2_equal_13_counterexample :
  exists l, generateBaseFrequencies 440%float 13 "equal" None = Ok l
            /\ List.length l = 12%nat /\ List.length l <> 13%nat.
Proof.
  eexists. split; [reflexivity |]. split; [reflexivity | discriminate].
Qed.

(** C3 (as amended).  The tuning rule succeeds exactly for the modes
    harmonic, just and equal and for custom with a [customRatios] that is
    not [null]; every other call throws.  In custom mode any array is
    accepted, whatever its length, and the result is its first [breadth]
    entries each multiplied by [f]. *)
Theorem C3_generate_errors (f : float) (breadth : nat) (mode : string)
    (customRatios : option (list float)) :
  (succeeds (generateBaseFrequencies f breadth mode customRatios) <->
   (mode = "harmonic" \/ mode = "just" \/ mode = "equal"
    \/ (mode = "custom" /\ customRatios <> None))%string)
  /\ (succeeds (generateBaseFrequencies f breadth mode customRatios)
      \/ generateBaseFrequencies f breadth mode customRatios = Throw modeError)
  /\ generateBaseFrequencies f breadth "custom" None = Throw modeError
  /\ (forall ratios,
        generateBaseFrequencies f breadth "custom" (Some ratios)
        = Ok (map (fun ratio => (f * ratio)%float) (firstn breadth ratios))).
Proof.
  assert (Hcase :
    (exists rs, ratiosOf breadth mode customRatios = Some rs)
    \/ ratiosOf breadth mode customRatios = None).
  { destruct (ratiosOf breadth mode customRatios); eauto. }
  split; [split | split; [| split]].
  - intros [l Hl]. apply (ratiosOf_valid breadth).
    destruct Hcase as [H | H]; [exact H |].
    rewrite (generate_throws f _ _ _ H) in Hl. discriminate.
  - intros H. apply (ratiosOf_valid breadth) in H. destruct H as [rs H].
    eexists. apply generate_ratios, H.
  - destruct Hcase as [[rs H] | H].
    + left. eexists. apply generate_ratios, H.
    + right. apply generate_throws, H.
  - reflexivity.
  - reflexivity.
Qed.

(** C3, the claim as stated fails: an array with a single entry is fewer
    than 2 entries, and the call returns without an error. *)
Lemma C3_short_ratios_counterexample :
  generateBaseFrequencies 440%float 3 "custom" (Some [1.5%float])
  = Ok [660%float]
  /\ generateBaseFrequencies 440%float 3 "custom" (Some []) = Ok [].
Proof. split; reflexivity. Qed.

(** ** StructureGenerator and PathExtractor *)

Section NestedInduction.

Variable P : nested -> Prop.
Hypothesis HNum : forall x, P (Num x).
Hypothesis HArr : forall items, Forall P items -> P (Arr items).

Fixpoint nested_induction (t : nested) : P t :=
  match t with
  | Num x => HNum x
  | Arr items =>
      HArr ((fix all (l : list nested) : Forall P l :=
               match l with
               | [] => Forall_nil P
               | a :: l' => Forall_cons a (nested_induction a) (all l')
               end) items)
  end.

End NestedInduction.

Lemma mapM_Ok {A B : Type} (f : A -> result B) (g : A -> B) (l : list A) :
  Forall (fun a => f a = Ok (g a)) l -> mapM f l = Ok (map g l).
Proof.
  induction 1 as [| a l Ha _ IH]; simpl; [reflexivity |].
  rewrite Ha. simpl. rewrite IH. reflexivity.
Qed.

Lemma mapM_succeeds {A B : Type} (f : A -> result B) (l : list A) :
  Forall (fun a => succeeds (f a)) l -> succeeds (mapM f l).
Proof.
  induction 1 as [| a l [b Hb] _ [bs IH]]; simpl.
  - eexists. reflexivity.
  - rewrite Hb. simpl. rewrite IH. eexists. reflexivity.
Qed.

Lemma mapM_Forall2 {A B : Type} (f : A -> result B) (R : A -> B -> Prop)
    (l : list A) :
  Forall (fun a => exists b, f a = Ok b /\ R a b) l ->
  exists bs, mapM f l = Ok bs /\ Forall2 R l bs.
Proof.
  induction 1 as [| a l [b [Hb Rb]] _ [bs [IH Rbs]]]; simpl.
  - eexists. split; [reflexivity | constructor].
  - rewrite Hb. simpl. rewrite IH. eexists. split; [reflexivity |].
    constructor; assumption.
Qed.

Section StructureFacts.

Variables (nHarmonics : nat) (mode : string) (customRatios : option (list float)).
Variable rs : list float.
Hypothesis Hvalid : ratiosOf nHarmonics mode customRatios = Some rs.

Local Notation "'gen'" := (generate nHarmonics mode customRatios).
Local Notation "'series' f" := (map (fun ratio => (f * ratio)%float) rs)
  (at level 10, f at level 9).

Lemma generate_Ok (f : float) : gen f = Ok (series f).
Proof. apply generate_ratios, Hvalid. Qed.

(** *** Every step of the construction returns *)

Lemma levelOne_succeeds (items : list nested) :
  succeeds (levelOne nHarmonics mode customRatios items).
Proof.
  induction items as [| [x | sub] rest [r IH]]; simpl.
  - eexists. reflexivity.
  - destruct (isNaN x); [eexists; exact IH |].
    rewrite generate_Ok. simpl. rewrite IH. eexists. reflexivity.
  - eexists. exact IH.
Qed.

Lemma expandLeaf_succeeds (item : nested) :
  succeeds (expandLeaf nHarmonics mode customRatios item).
Proof.
  destruct item as [x | sub]; simpl; [| eexists; reflexivity].
  destruct (isNaN x); [eexists; reflexivity |].
  rewrite generate_Ok. eexists. reflexivity.
Qed.

Lemma processNestedLevel_Arr (items : list nested) :
  processNestedLevel nHarmonics mode customRatios (Arr items)
  = match items with
    | Num _ :: _ =>
        r <- mapM (expandLeaf nHarmonics mode customRatios) items ;; Ok (Arr r)
    | _ =>
        r <- mapM (processNestedLevel nHarmonics mode customRatios) items ;;
        Ok (Arr r)
    end.
Proof.
  assert (Heach : forall l,
    (fix each (l : list nested) : result (list nested) :=
       match l with
       | [] => Ok []
       | subArray :: l' =>
           b <- processNestedLevel nHarmonics mode customRatios subArray ;;
           bs <- each l' ;;
           Ok (b :: bs)
       end) l
    = mapM (processNestedLevel nHarmonics mode customRatios) l).
  { induction l as [| a l IH]; [reflexivity |]. simpl. rewrite IH. reflexivity. }
  destruct items as [| [x | sub] rest]; try reflexivity.
  rewrite <- Heach. reflexivity.
Qed.

Lemma processNestedLevel_succeeds (data : nested) :
  succeeds (processNestedLevel nHarmonics mode customRatios data).
Proof.
  induction data as [x | items IH] using nested_induction.
  - eexists. reflexivity.
  - rewrite processNestedLevel_Arr.
    assert (H1 : succeeds (mapM (expandLeaf nHarmonics mode customRatios) items)).
    { apply mapM_succeeds, Forall_forall. intros a _. apply expandLeaf_succeeds. }
    assert (H2 : succeeds
              (mapM (processNestedLevel nHarmonics mode customRatios) items)).
    { apply mapM_succeeds, IH. }
    destruct H1 as [r1 H1], H2 as [r2 H2].
    destruct items as [| [x | sub] rest].
    + rewrite H2. eexists. reflexivity.
    + rewrite H1. eexists. reflexivity.
    + rewrite H2. eexists. reflexivity.
Qed.

Lemma nextLevel_succeeds (level : nat) (prev : nested) :
  succeeds (nextLevel nHarmonics mode customRatios level prev).
Proof.
  unfold nextLevel. destruct (Nat.eqb level 1).
  - destruct prev as [x | items]; [eexists; reflexivity |].
    destruct (levelOne_succeeds items) as [r H]. rewrite H.
    eexists. reflexivity.
  - apply processNestedLevel_succeeds.
Qed.

Lemma buildLevels_succeeds (count level : nat) (prev : nested) :
  succeeds (buildLevels nHarmonics mode customRatios count level prev).
Proof.
  revert level prev. induction count as [| count IH]; intros level prev; simpl.
  - eexists. reflexivity.
  - destruct (nextLevel_succeeds level prev) as [cur H]. rewrite H. simpl.
    destruct (IH (S level) cur) as [rest H']. rewrite H'.
    eexists. reflexivity.
Qed.

Lemma generateHarmonicStructure_succeeds (baseFreq : float) (maxLevel : nat) :
  exists higher,
    generateHarmonicStructure nHarmonics mode customRatios baseFreq maxLevel
    = Ok (mkStructure baseFreq (numbers (series baseFreq) :: higher)).
Proof.
  unfold generateHarmonicStructure. rewrite generate_Ok. simpl.
  destruct (buildLevels_succeeds maxLevel 1 (numbers (series baseFreq)))
    as [higher H].
  rewrite H. eexists. reflexivity.
Qed.

End StructureFacts.

Section ShapeFacts.

Variables (nHarmonics : nat) (mode : string) (customRatios : option (list float)).
Variable rs : list float.
Hypothesis Hvalid : ratiosOf nHarmonics mode customRatios = Some rs.
Hypothesis Hfinite : Forall (fun r => finiteNonzero r = true) rs.

Local Notation "'m'" := (List.length rs).
Local Notation "'series' f" := (map (fun ratio => (f * ratio)%float) rs)
  (at level 10, f at level 9).

(** *** Shapes: level [d] is a full [m]-ary array nested [d + 1] deep *)

Lemma series_full (f : float) : isNaN f = false -> full m 0 (numbers (series f)).
Proof.
  intros Hf. unfold numbers. simpl. split.
  - now rewrite !length_map.
  - rewrite Forall_map, Forall_map. apply Forall_forall. intros r Hr.
    exists (f * r)%float. split; [reflexivity |].
    apply mul_not_nan; [exact Hf |].
    rewrite Forall_forall in Hfinite. apply Hfinite, Hr.
Qed.

Lemma levelOne_full (items : list nested) :
  Forall goodLeaf items ->
  exists r, levelOne nHarmonics mode customRatios items = Ok r
            /\ List.length r = List.length items /\ Forall (full m 0) r.
Proof.
  induction 1 as [| it rest [x [-> Hx]] _ [r [IH [Hlen Hr]]]]; simpl.
  - exists []. repeat split. constructor.
  - rewrite Hx. unfold generate. rewrite (generate_ratios _ _ _ _ Hvalid).
    simpl. rewrite IH. eexists. split; [reflexivity |]. split.
    + simpl. now rewrite Hlen.
    + constructor; [apply series_full, Hx | exact Hr].
Qed.

Lemma expandLeaf_full (it : nested) :
  goodLeaf it ->
  exists t, expandLeaf nHarmonics mode customRatios it = Ok t /\ full m 0 t.
Proof.
  intros [x [-> Hx]]. simpl. rewrite Hx. unfold generate.
  rewrite (generate_ratios _ _ _ _ Hvalid). simpl.
  eexists. split; [reflexivity | apply series_full, Hx].
Qed.

Lemma Forall2_length_Forall {A B : Type} (R : A -> B -> Prop) (Q : B -> Prop)
    (l : list A) (l' : list B) :
  Forall2 R l l' -> (forall a b, R a b -> Q b) ->
  List.length l' = List.length l /\ Forall Q l'.
Proof.
  intros HR HQ. induction HR as [| a b l l' Hab _ [IHlen IHQ]]; simpl.
  - split; [reflexivity | constructor].
  - split; [now rewrite IHlen |].
    constructor; [eapply HQ, Hab | apply IHQ].
Qed.

Lemma processNestedLevel_full (d : nat) (t : nested) :
  full m d t ->
  exists t', processNestedLevel nHarmonics mode customRatios t = Ok t'
             /\ full m (S d) t'.
Proof.
  revert t. induction d as [| d IH]; intros [x | items] Hfull;
    try contradiction; rewrite processNestedLevel_Arr.
  - destruct Hfull as [Hlen Hleaves].
    assert (Hmap : exists bs,
              mapM (expandLeaf nHarmonics mode customRatios) items = Ok bs
              /\ Forall2 (fun _ b => full m 0 b) items bs).
    { apply mapM_Forall2. revert Hleaves. apply Forall_impl.
      intros it Hit. destruct (expandLeaf_full Hit) as [t [H1 H2]]. eauto. }
    destruct Hmap as [bs [Hbs HR]].
    destruct (@Forall2_length_Forall _ _ _ (full m 0) _ _ HR) as [Hl HQ];
      [auto |].
    destruct items as [| [x | sub] rest].
    + inversion HR; subst. simpl. eexists. split; [reflexivity |].
      simpl. split; [assumption | constructor].
    + rewrite Hbs. simpl. eexists. split; [reflexivity |].
      simpl. split; [congruence | exact HQ].
    + exfalso. inversion Hleaves as [| ? ? [x [Hx _]] _]. discriminate.
  - destruct Hfull as [Hlen Hsubs].
    assert (Hmap : exists bs,
              mapM (processNestedLevel nHarmonics mode customRatios) items = Ok bs
              /\ Forall2 (fun _ b => full m (S d) b) items bs).
    { apply mapM_Forall2. revert Hsubs. apply Forall_impl.
      intros it Hit. destruct (IH it Hit) as [t [H1 H2]]. eauto. }
    destruct Hmap as [bs [Hbs HR]].
    destruct (@Forall2_length_Forall _ _ _ (full m (S d)) _ _ HR) as [Hl HQ];
      [auto |].
    destruct items as [| [x | sub] rest].
    + rewrite Hbs. simpl. eexists. split; [reflexivity |].
      split; [congruence | exact HQ].
    + exfalso. inversion Hsubs as [| ? ? Hx _]. destruct d; exact Hx.
    + rewrite Hbs. simpl. eexists. split; [reflexivity |].
      split; [congruence | exact HQ].
Qed.

Lemma nextLevel_full (level : nat) (prev : nested) :
  full m level prev ->
  exists cur, nextLevel nHarmonics mode customRatios (S level) prev = Ok cur
              /\ full m (S level) cur.
Proof.
  intros Hfull. unfold nextLevel. destruct level as [| level].
  - simpl. destruct prev as [x | items]; [contradiction |].
    destruct Hfull as [Hlen Hleaves].
    destruct (levelOne_full Hleaves) as [r [Hr [Hl Hf]]].
    rewrite Hr. simpl. eexists. split; [reflexivity |].
    split; [congruence | exact Hf].
  - change (Nat.eqb (S (S level)) 1) with false. cbv iota.
    apply processNestedLevel_full, Hfull.
Qed.

Lemma buildLevels_full (count level : nat) (prev : nested) :
  full m level prev ->
  exists higher,
    buildLevels nHarmonics mode customRatios count (S level) prev = Ok higher
    /\ List.length higher = count /\ fullLevels m (S level) higher.
Proof.
  revert level prev. induction count as [| count IH]; intros level prev Hfull.
  - exists []. repeat split.
  - simpl. destruct (@nextLevel_full level prev Hfull) as [cur [Hcur Hf]].
    rewrite Hcur. simpl.
    destruct (IH (S level) cur Hf) as [rest [Hrest [Hlen Hfrom]]].
    rewrite Hrest. eexists. split; [reflexivity |].
    simpl. repeat split; auto.
Qed.

Lemma generateHarmonicStructure_full (baseFreq : float) (maxLevel : nat) :
  isNaN baseFreq = false ->
  exists ls,
    generateHarmonicStructure nHarmonics mode customRatios baseFreq maxLevel
    = Ok (mkStructure baseFreq ls)
    /\ List.length ls = S maxLevel /\ fullLevels m 0 ls.
Proof.
  intros Hb. unfold generateHarmonicStructure, generate.
  rewrite (generate_ratios _ _ _ _ Hvalid). simpl.
  pose proof (@series_full baseFreq Hb) as H0.
  destruct (@buildLevels_full maxLevel 0 _ H0) as [higher [Hh [Hlen Hfrom]]].
  rewrite Hh. eexists. split; [reflexivity |].
  simpl. repeat split; auto; apply H0.
Qed.

End ShapeFacts.

Section ExtractionFacts.

Lemma length_forEachIndexed {A B : Type} (f : A -> nat -> list B) (c : nat)
    (l : list A) (k : nat) :
  (forall a i, In a l -> List.length (f a i) = c) ->
  List.length (forEachIndexed f k l) = List.length l * c.
Proof.
  revert k. induction l as [| a l IH]; intros k H; simpl; [reflexivity |].
  rewrite length_app, H by (left; reflexivity).
  rewrite IH by (intros; apply H; right; assumption). reflexivity.
Qed.

Lemma Forall_forEachIndexed {A B : Type} (f : A -> nat -> list B)
    (P : B -> Prop) (l : list A) (k : nat) :
  (forall a i, Forall P (f a i)) -> Forall P (forEachIndexed f k l).
Proof.
  intros H. revert k. induction l as [| a l IH]; intros k; simpl.
  - constructor.
  - apply Forall_app. split; [apply H | apply IH].
Qed.

Lemma leafRecord_emitted (levelIndex : nat) (currentPath : list nat)
    (freq : nested) (i : nat) :
  Forall (emitted levelIndex) (leafRecord levelIndex currentPath freq i).
Proof.
  destruct freq as [x | sub]; simpl; [| constructor].
  destruct (isNaN x) eqn:E; constructor; [| constructor].
  split; [reflexivity | exact E].
Qed.

Lemma processLevel_emitted (levelIndex depth : nat) (data : nested)
    (currentPath : list nat) :
  Forall (emitted levelIndex) (processLevel levelIndex depth data currentPath).
Proof.
  revert data currentPath.
  induction depth as [| depth IH]; intros [x | items] currentPath; simpl;
    try constructor; apply Forall_forEachIndexed; intros a i.
  - apply leafRecord_emitted.
  - destruct a as [x | sub]; [constructor | apply IH].
Qed.

Lemma extractLevel_processLevel (t : nested) (k : nat) :
  extractLevel t k = processLevel k k t [].
Proof. destruct k, t; reflexivity. Qed.

Lemma extract_not_nan (s : HarmonicStructure) :
  Forall (fun r => isNaN (frequency r) = false)
         (extractAllFrequenciesWithPaths s).
Proof.
  unfold extractAllFrequenciesWithPaths.
  destruct (falsyNumber (base s)); [constructor |].
  apply Forall_app. split.
  - unfold baseRecord. destruct (isNaN (base s)) eqn:E; repeat constructor.
    exact E.
  - apply Forall_forEachIndexed. intros t k.
    rewrite extractLevel_processLevel.
    eapply Forall_impl; [| apply processLevel_emitted].
    intros r [_ H]. exact H.
Qed.

Variable m : nat.

Lemma processLevel_count (levelIndex d : nat) (t : nested)
    (currentPath : list nat) :
  full m d t ->
  List.length (processLevel levelIndex d t currentPath) = m ^ S d.
Proof.
  revert t currentPath.
  induction d as [| d IH]; intros [x | items] currentPath Hfull;
    try contradiction; destruct Hfull as [Hlen Hitems];
    cbn [processLevel]; rewrite Forall_forall in Hitems.
  - rewrite (@length_forEachIndexed _ _ _ 1).
    + rewrite Hlen. simpl. lia.
    + intros a i Ha. destruct (Hitems a Ha) as [x [-> Hx]].
      simpl. rewrite Hx. reflexivity.
  - rewrite (@length_forEachIndexed _ _ _ (m ^ S d)).
    + rewrite Hlen. simpl. lia.
    + intros a i Ha. specialize (Hitems a Ha).
      destruct a as [x | sub]; [destruct d; contradiction |].
      apply IH, Hitems.
Qed.

Lemma sumFrom_snoc (k n : nat) :
  sumFrom m k (S n) = sumFrom m k n + m ^ S (k + n).
Proof.
  revert k. induction n as [| n IH]; intros k.
  - cbn [sumFrom]. rewrite !Nat.add_0_r. reflexivity.
  - change (sumFrom m k (S (S n))) with (m ^ S k + sumFrom m (S k) (S n)).
    rewrite IH. change (sumFrom m k (S n)) with (m ^ S k + sumFrom m (S k) n).
    replace (S k + n) with (k + S n) by lia. lia.
Qed.

Lemma sumPowers_sumFrom (maxLevel : nat) :
  sumPowers m maxLevel = sumFrom m 0 (S maxLevel).
Proof.
  induction maxLevel as [| n IH].
  - simpl. lia.
  - rewrite sumFrom_snoc, <- IH. reflexivity.
Qed.

Lemma levels_count (ls : list nested) (k : nat) :
  fullLevels m k ls ->
  List.length (forEachIndexed extractLevel k ls) = sumFrom m k (List.length ls).
Proof.
  revert k. induction ls as [| t ls IH]; intros k H; simpl; [reflexivity |].
  destruct H as [Ht Hls]. rewrite length_app, IH by exact Hls.
  rewrite extractLevel_processLevel, processLevel_count by exact Ht.
  reflexivity.
Qed.

Lemma filter_emitted_same (d : nat) (l : list FrequencyRecord) :
  Forall (emitted d) l -> filter (atLevel d) l = l.
Proof.
  induction 1 as [| r l [Hr _] _ IH]; simpl; [reflexivity |].
  unfold atLevel at 1. rewrite Hr, Z.eqb_refl, IH. reflexivity.
Qed.

Lemma filter_emitted_other (d k : nat) (l : list FrequencyRecord) :
  d <> k -> Forall (emitted k) l -> filter (atLevel d) l = [].
Proof.
  intros Hne. induction 1 as [| r l [Hr _] _ IH]; simpl; [reflexivity |].
  unfold atLevel at 1. rewrite Hr.
  destruct (Z.eqb_spec (Z.of_nat k) (Z.of_nat d)); [lia | exact IH].
Qed.

Lemma window_head (d k n : nat) :
  ((k <=? d) && (d <? k + S n))%bool
  = (Nat.eqb d k || ((S k <=? d) && (d <? S k + n)))%bool.
Proof.
  destruct (Nat.leb_spec k d), (Nat.leb_spec (S k) d),
    (Nat.ltb_spec d (k + S n)), (Nat.ltb_spec d (S k + n)),
    (Nat.eqb_spec d k); simpl; try reflexivity; lia.
Qed.

Lemma levels_count_at (d : nat) (ls : list nested) (k : nat) :
  fullLevels m k ls ->
  List.length (filter (atLevel d) (forEachIndexed extractLevel k ls))
  = if ((k <=? d) && (d <? k + List.length ls))%bool then m ^ S d else 0.
Proof.
  revert k. induction ls as [| t ls IH]; intros k H.
  - simpl. destruct (Nat.leb_spec k d), (Nat.ltb_spec d (k + 0));
      simpl; try reflexivity; lia.
  - destruct H as [Ht Hls].
    cbn [forEachIndexed List.length].
    rewrite filter_app, length_app, IH by exact Hls.
    rewrite extractLevel_processLevel, window_head.
    pose proof (processLevel_emitted k k t []) as He.
    destruct (Nat.eqb_spec d k) as [-> | Hne].
    + rewrite (filter_emitted_same He), (@processLevel_count k k t [] Ht).
      destruct (Nat.leb_spec (S k) k); [lia |]. simpl. lia.
    + rewrite (filter_emitted_other Hne He). reflexivity.
Qed.

End ExtractionFacts.

Lemma ratiosOf_length (breadth : nat) (mode : string)
    (customRatios : option (list float)) (rs : list float) :
  ratiosOf breadth mode customRatios = Some rs ->
  List.length rs = seriesLength breadth mode customRatios.
Proof.
  unfold ratiosOf, seriesLength.
  destruct (String.eqb mode "harmonic").
  { intros [= <-]. now rewrite length_map, length_seq. }
  destruct (String.eqb mode "just").
  { intros [= <-]. now rewrite length_firstn, length_just. }
  destruct (String.eqb mode "equal").
  { intros [= <-]. now rewrite length_firstn, length_equal. }
  destruct (String.eqb mode "custom"); [| discriminate].
  destruct customRatios as [ratios |]; [| discriminate].
  intros [= <-]. now rewrite length_firstn.
Qed.

Lemma Forall_firstn {A : Type} (P : A -> Prop) (n : nat) (l : list A) :
  Forall P l -> Forall P (firstn n l).
Proof.
  intros H. revert n. induction H as [| a l Ha _ IH]; intros [| n]; simpl;
    constructor; auto.
Qed.

(** The ratios of the three built-in modes are finite and non-zero, for
    every breadth up to the configuration limit of 20. *)
Lemma builtin_ratios_finite (breadth : nat) (mode : string) (rs : list float) :
  breadth <= 20 ->
  ratiosOf breadth mode None = Some rs ->
  Forall (fun r => finiteNonzero r = true) rs.
Proof.
  intros Hb. unfold ratiosOf.
  destruct (String.eqb mode "harmonic").
  { intros [= <-]. rewrite Forall_map. apply Forall_forall. intros i Hi.
    apply in_seq in Hi.
    do 20 (destruct i as [| i]; [vm_compute; reflexivity |]). lia. }
  destruct (String.eqb mode "just").
  { intros [= <-]. apply Forall_firstn. rewrite sortNum_just.
    repeat constructor. }
  destruct (String.eqb mode "equal").
  { intros [= <-]. apply Forall_firstn. repeat constructor. }
  destruct (String.eqb mode "custom"); discriminate.
Qed.

(** C1 (as amended).  For every base that is a number other than NaN and
    zero, every maximum depth, every valid mode and breadth whose ratios are
    finite and non-zero, building the structure and flattening it yields the
    base record (level -1, empty path) followed by [m + m^2 + .. +
    m^(maxDepth+1)] records, [m^(d+1)] of them at each depth [d] from 0 to
    [maxDepth], where [m] is the number of frequencies the tuning rule
    returns: the breadth capped by the size of the mode's ratio table. *)
Theorem C1_record_count (baseFreq : float) (maxLevel breadth : nat)
    (mode : string) (customRatios : option (list float)) (rs : list float) :
  falsyNumber baseFreq = false ->
  ratiosOf breadth mode customRatios = Some rs ->
  Forall (fun r => finiteNonzero r = true) rs ->
  exists s rest,
    generateHarmonicStructure breadth mode customRatios baseFreq maxLevel = Ok s
    /\ extractAllFrequenciesWithPaths s
       = mkRecord baseFreq (-1) [] "Base" :: rest
    /\ List.length rs = seriesLength breadth mode customRatios
    /\ List.length rest = sumPowers (List.length rs) maxLevel
    /\ Forall (fun r => (0 <= level r)%Z) rest
    /\ forall d, d <= maxLevel ->
         List.length (filter (atLevel d) rest) = List.length rs ^ (d + 1).
Proof.
  intros Hbase Hvalid Hfinite.
  assert (Hnan : isNaN baseFreq = false).
  { unfold falsyNumber in Hbase. apply orb_false_iff in Hbase. tauto. }
  destruct (@generateHarmonicStructure_full breadth mode customRatios rs
              Hvalid Hfinite baseFreq maxLevel Hnan)
    as [ls [Hs [Hlen Hfull]]].
  exists (mkStructure baseFreq ls), (forEachIndexed extractLevel 0 ls).
  split; [exact Hs |]. split.
  { unfold extractAllFrequenciesWithPaths, baseRecord. simpl.
    rewrite Hbase, Hnan. reflexivity. }
  split; [apply ratiosOf_length, Hvalid |]. split.
  { rewrite (@levels_count _ ls 0 Hfull), Hlen. symmetry.
    apply sumPowers_sumFrom. }
  split.
  { apply Forall_forEachIndexed. intros t k. rewrite extractLevel_processLevel.
    eapply Forall_impl; [| apply processLevel_emitted].
    intros r [Hr _]. rewrite Hr. lia. }
  intros d Hd. rewrite (@levels_count_at _ d ls 0 Hfull), Hlen.
  destruct (Nat.leb_spec 0 d); [| lia].
  destruct (Nat.ltb_spec d (0 + S maxLevel)); [| lia].
  simpl. now rewrite Nat.add_1_r.
Qed.

(** C1 at base 440, harmonic mode, breadth 3, depth 2: 3 + 9 + 27 records
    follow the base record. *)
Lemma C1_record_count_witness :
  exists s rest,
    generateHarmonicStructure 3 "harmonic" None 440%float 2 = Ok s
    /\ extractAllFrequenciesWithPaths s
       = mkRecord 440%float (-1) [] "Base" :: rest
    /\ 3 = seriesLength 3 "harmonic" None
    /\ List.length rest = sumPowers 3 2
    /\ Forall (fun r => (0 <= level r)%Z) rest
    /\ forall d, d <= 2 -> List.length (filter (atLevel d) rest) = 3 ^ (d + 1).
Proof.
  apply (@C1_record_count 440%float 2 3 "harmonic" None
           [1%float; 2%float; 3%float]).
  - vm_compute. reflexivity.
  - vm_compute. reflexivity.
  - repeat constructor.
Defined.

(** C1, the claim as stated fails: with breadth 13 in equal mode and depth
    1 the flattened list has 1 + 12 + 144 records, not 1 + 13 + 169; with
    the default custom ratios (8 entries) and breadth 12 it has 1 + 8. *)
Lemma C1_count_counterexample :
  (exists s,
     generateHarmonicStructure 13 "equal" None 440%float 1 = Ok s
     /\ List.length (extractAllFrequenciesWithPaths s) = 157
     /\ 157 <> 1 + sumPowers 13 1)
  /\ (exists s,
        generateHarmonicStructure 12 "custom"
          (Some [1; 1.25; 1.5; 1.75; 2; 2.25; 2.5; 2.75]%float) 440%float 0
        = Ok s
        /\ List.length (extractAllFrequenciesWithPaths s) = 9
        /\ 9 <> 1 + sumPowers 12 0).
Proof.
  split; eexists; (split; [vm_compute; reflexivity |]);
    (split; [vm_compute; reflexivity | vm_compute; discriminate]).
Qed.

(** C6.  With a valid mode the tuning rule returns for a NaN frequency, and
    every value it returns is NaN; building the structure returns for every
    base, NaN included, and flattening it emits no record whose frequency is
    NaN; for a NaN base it emits nothing at all. *)
Theorem C6_nan_is_filtered (f baseFreq : float) (breadth maxLevel : nat)
    (mode : string) (customRatios : option (list float)) (rs : list float) :
  ratiosOf breadth mode customRatios = Some rs ->
  (isNaN f = true ->
   exists l, generateBaseFrequencies f breadth mode customRatios = Ok l
             /\ List.length l = seriesLength breadth mode customRatios
             /\ Forall (fun x => isNaN x = true) l)
  /\ exists s,
       generateHarmonicStructure breadth mode customRatios baseFreq maxLevel
       = Ok s
       /\ Forall (fun r => isNaN (frequency r) = false)
                 (extractAllFrequenciesWithPaths s)
       /\ (isNaN baseFreq = true -> extractAllFrequenciesWithPaths s = []).
Proof.
  intros Hvalid. split.
  - intros Hf. eexists. split; [apply generate_ratios, Hvalid |]. split.
    + rewrite length_map. apply ratiosOf_length, Hvalid.
    + rewrite Forall_map. apply Forall_forall. intros r _.
      apply mul_nan_l, Hf.
  - destruct (@generateHarmonicStructure_succeeds breadth mode customRatios rs
                Hvalid baseFreq maxLevel)
      as [higher Hs].
    eexists. split; [exact Hs |]. split; [apply extract_not_nan |].
    intros Hb. unfold extractAllFrequenciesWithPaths, falsyNumber. simpl.
    rewrite Hb. reflexivity.
Qed.

(** C6 at a NaN frequency and a NaN base, harmonic mode, breadth 3,
    depth 2. *)
Lemma C6_nan_is_filtered_witness :
  (isNaN nan = true ->
   exists l, generateBaseFrequencies nan 3 "harmonic" None = Ok l
             /\ List.length l = seriesLength 3 "harmonic" None
             /\ Forall (fun x => isNaN x = true) l)
  /\ exists s,
       generateHarmonicStructure 3 "harmonic" None nan 2 = Ok s
       /\ Forall (fun r => isNaN (frequency r) = false)
                 (extractAllFrequenciesWithPaths s)
       /\ (isNaN nan = true -> extractAllFrequenciesWithPaths s = []).
Proof.
  apply (@C6_nan_is_filtered nan nan 3 2 "harmonic" None
           [1%float; 2%float; 3%float]).
  vm_compute. reflexivity.
Defined.

(** ** The pair loops *)

Section PairLoops.

Context {A B : Type}.

Lemma flat_map_nil (l : list nat) : flat_map (fun _ : nat => @nil B) l = [].
Proof. induction l; simpl; auto. Qed.

Lemma flat_map_shift (g : nat -> list B) (a n : nat) :
  flat_map g (seq (S a) n) = flat_map (fun j => g (S j)) (seq a n).
Proof.
  revert a. induction n as [| n IH]; intros a; simpl; [reflexivity |].
  now rewrite IH.
Qed.

(** Reading [arr[j]] for [j] from 0 to [n - 1] visits [arr.slice(0, n)]. *)
Lemma flat_map_nth_error (g : A -> list B) (l : list A) (n : nat) :
  flat_map (fun j => match nth_error l j with
                     | Some b => g b
                     | None => []
                     end) (seq 0 n)
  = flat_map g (firstn n l).
Proof.
  revert l. induction n as [| n IH]; intros l; [reflexivity |].
  destruct l as [| b l].
  - rewrite (flat_map_ext _ (fun _ => [])); [apply flat_map_nil |].
    intros j. now destruct j.
  - cbn [seq flat_map firstn nth_error]. rewrite flat_map_shift.
    cbn [nth_error]. now rewrite IH.
Qed.

Lemma forPairs_cons (body : A -> A -> list B) (a : A) (arr : list A) (n : nat) :
  forPairs (a :: arr) (S n) body
  = flat_map (body a) (firstn n arr) ++ forPairs arr n body.
Proof.
  unfold forPairs. cbn [seq flat_map]. f_equal.
  - cbn [Nat.add Nat.sub nth_error]. rewrite Nat.sub_0_r, flat_map_shift.
    cbn [nth_error]. apply flat_map_nth_error.
  - rewrite flat_map_shift. apply flat_map_ext. intros i.
    replace (S i + 1) with (S (i + 1)) by lia.
    cbn [Nat.sub]. rewrite flat_map_shift. reflexivity.
Qed.

Lemma forPairs_nil (body : A -> A -> list B) (n : nat) :
  forPairs [] n body = [].
Proof.
  unfold forPairs. induction (seq 0 n) as [| i l IH]; [reflexivity |].
  cbn [flat_map]. rewrite IH, app_nil_r.
  rewrite (flat_map_ext _ (fun _ => [])); [apply flat_map_nil |].
  intros j. now destruct i.
Qed.

(** The two nested loops visit the pairs of [arr.slice(0, n)] in order. *)
Lemma forPairs_pairsInOrder (body : A -> A -> list B) (arr : list A) (n : nat) :
  forPairs arr n body
  = flat_map (fun p => body (fst p) (snd p)) (pairsInOrder (firstn n arr)).
Proof.
  revert n. induction arr as [| a arr IH]; intros n.
  - rewrite forPairs_nil. now destruct n.
  - destruct n as [| n]; [reflexivity |].
    rewrite forPairs_cons, IH. cbn [firstn pairsInOrder].
    rewrite flat_map_app. f_equal.
    induction (firstn n arr) as [| b l IHl]; [reflexivity |].
    simpl. now rewrite IHl.
Qed.

End PairLoops.

Section PairsInOrder.

Context {A : Type}.

Lemma in_pairsInOrder (l : list A) (a b : A) :
  In (a, b) (pairsInOrder l) <->
  exists i j, i < j /\ nth_error l i = Some a /\ nth_error l j = Some b.
Proof.
  revert a b. induction l as [| c l IH]; intros a b; simpl.
  - split; [contradiction |]. intros [i [j [_ [H _]]]]. now destruct i.
  - rewrite in_app_iff, in_map_iff, IH. split.
    + intros [[x [[= <- <-] Hx]] | [i [j [Hlt [Hi Hj]]]]].
      * apply In_nth_error in Hx. destruct Hx as [j Hj].
        exists 0, (S j). repeat split; [lia | exact Hj].
      * exists (S i), (S j). repeat split; [lia | exact Hi | exact Hj].
    + intros [i [j [Hlt [Hi Hj]]]].
      destruct j as [| j]; [lia |]. simpl in Hj.
      destruct i as [| i]; simpl in Hi.
      * injection Hi as ->. left. exists b. split; [reflexivity |].
        eapply nth_error_In, Hj.
      * right. exists i, j. repeat split; [lia | exact Hi | exact Hj].
Qed.

(** Every unordered pair of positions is visited once: [n (n - 1) / 2]
    pairs. *)
Lemma length_pairsInOrder (l : list A) :
  2 * List.length (pairsInOrder l) = List.length l * (List.length l - 1).
Proof.
  induction l as [| a l IH]; simpl; [reflexivity |].
  rewrite length_app, length_map, Nat.sub_0_r.
  destruct l as [| b l]; [reflexivity |].
  simpl in IH |- *. rewrite Nat.sub_0_r in IH. nia.
Qed.

End PairsInOrder.

(** ** ProximityAnalyzer *)

Lemma closePair_isClose (threshold : float) (p : FrequencyRecord * FrequencyRecord) :
  isNaN (frequency (fst p)) = false -> isNaN (frequency (snd p)) = false ->
  closePair threshold (fst p) (snd p)
  = if isClose threshold p then [proximityPair p] else [].
Proof.
  intros H1 H2. unfold closePair, isClose, proximityPair. rewrite H1, H2. simpl.
  rewrite (andb_comm (PrimFloat.ltb _ threshold)). reflexivity.
Qed.

Lemma flat_map_filter_map {A B : Type} (p : A -> bool) (g : A -> B)
    (f : A -> list B) (l : list A) :
  Forall (fun a => f a = if p a then [g a] else []) l ->
  flat_map f l = map g (filter p l).
Proof.
  induction 1 as [| a l Ha _ IH]; simpl; [reflexivity |].
  rewrite Ha, IH. now destruct (p a).
Qed.

Lemma closePairs_filter (recs : list FrequencyRecord) (threshold : float) :
  Forall (fun r => isNaN (frequency r) = false) recs ->
  closePairs recs threshold
  = map proximityPair (filter (isClose threshold) (pairsInOrder recs)).
Proof.
  intros Hrecs. unfold closePairs.
  rewrite forPairs_pairsInOrder, firstn_all.
  apply flat_map_filter_map, Forall_forall. intros [a b] Hab.
  apply in_pairsInOrder in Hab. destruct Hab as [i [j [_ [Hi Hj]]]].
  rewrite Forall_forall in Hrecs.
  apply closePair_isClose; apply Hrecs; eapply nth_error_In; eassumption.
Qed.

(** C4.  [findCloseFrequencies] returns, in the enumeration order of
    [(i, j)] with [i < j] over the flattened records, exactly the pairs
    whose relative difference [|f1 - f2| / max(f1, f2)] (computed in
    doubles) satisfies [0 < d < threshold]; no returned pair has a
    difference equal to 0 or greater than or equal to the threshold; and
    for base 440, harmonic mode, breadth 12, depth 0 and threshold 0.01 it
    returns nothing. *)
Theorem C4_close_pairs (structure : HarmonicStructure) (threshold : float) :
  findCloseFrequencies structure threshold
  = map proximityPair
      (filter (isClose threshold)
         (pairsInOrder (extractAllFrequenciesWithPaths structure)))
  /\ Forall
       (fun p =>
          difference p = relativeDifference (freq1 p) (freq2 p)
          /\ PrimFloat.ltb 0%float (difference p) = true
          /\ PrimFloat.ltb (difference p) threshold = true
          /\ PrimFloat.eqb (difference p) 0%float = false
          /\ PrimFloat.leb threshold (difference p) = false)
       (findCloseFrequencies structure threshold)
  /\ exists s,
       generateHarmonicStructure 12 "harmonic" None 440%float 0 = Ok s
       /\ findCloseFrequencies s 0x1.47ae147ae147bp-7%float = [].
Proof.
  assert (Heq : findCloseFrequencies structure threshold
                = map proximityPair
                    (filter (isClose threshold)
                       (pairsInOrder
                          (extractAllFrequenciesWithPaths structure)))).
  { apply closePairs_filter, extract_not_nan. }
  split; [exact Heq |]. split.
  - rewrite Heq, Forall_map. apply Forall_forall. intros p Hp.
    apply filter_In in Hp. destruct Hp as [_ Hp].
    unfold isClose in Hp. apply andb_true_iff in Hp. destruct Hp as [H0 Ht].
    cbn [difference freq1 freq2 proximityPair].
    repeat split; auto using ltb_eqb_false, ltb_leb_false.
  - eexists. split; [vm_compute; reflexivity |]. vm_compute. reflexivity.
Qed.

(** ** RationalApproximator *)

Section Gcd.

Lemma gcdLoop_gcd (turns a b : nat) :
  b < turns -> gcdLoop turns a b = Nat.gcd a b.
Proof.
  revert a b. induction turns as [| turns IH]; intros a b Hb; [lia |].
  simpl. destruct (Nat.eqb_spec b 0) as [-> | Hne].
  - now rewrite Nat.gcd_0_r.
  - rewrite IH.
    + rewrite (Nat.gcd_comm b), Nat.Lcm0.gcd_mod. apply Nat.gcd_comm.
    + pose proof (Nat.mod_upper_bound a b Hne). lia.
Qed.

Lemma gcd_gcd (a b : nat) : gcd a b = Nat.gcd a b.
Proof. apply gcdLoop_gcd. lia. Qed.

End Gcd.

Section Candidates.

(** The fractions with denominator [denom] and numerators [a .. a+k-1]. *)
Let block (denom a k : nat) : list (nat * nat) :=
  flat_map (fun num => if Nat.eqb (gcd num denom) 1 then [(num, denom)] else [])
           (seq a k).

Let blocks (a k : nat) : list (nat * nat) :=
  flat_map (fun denom => block denom 1 denom) (seq a k).

Lemma in_block (denom a k : nat) (c : nat * nat) :
  In c (block denom a k) <->
  snd c = denom /\ a <= fst c < a + k /\ Nat.gcd (fst c) (snd c) = 1.
Proof.
  unfold block. rewrite in_flat_map. split.
  - intros [num [Hnum Hc]]. apply in_seq in Hnum.
    destruct (Nat.eqb_spec (gcd num denom) 1) as [Hg | Hg]; [| contradiction].
    destruct Hc as [<- | []]. simpl. rewrite <- gcd_gcd. auto.
  - intros [Hd [Hn Hg]]. exists (fst c). split; [apply in_seq, Hn |].
    subst denom. rewrite gcd_gcd, Hg. simpl. left. now destruct c.
Qed.

Lemma in_blocks (a k : nat) (c : nat * nat) :
  In c (blocks a k) <->
  a <= snd c < a + k /\ 1 <= fst c <= snd c /\ Nat.gcd (fst c) (snd c) = 1.
Proof.
  unfold blocks. rewrite in_flat_map. split.
  - intros [denom [Hd Hc]]. apply in_seq in Hd. apply in_block in Hc.
    destruct Hc as [<- [Hn Hg]]. repeat split; first [lia | assumption].
  - intros [Hd [Hn Hg]]. exists (snd c). split; [apply in_seq, Hd |].
    apply in_block. repeat split; first [lia | assumption].
Qed.

Lemma in_candidates (maxDenominator : nat) (c : nat * nat) :
  In c (candidates maxDenominator) <-> isCandidate maxDenominator c.
Proof.
  change (candidates maxDenominator) with (blocks 1 maxDenominator).
  rewrite in_blocks. unfold isCandidate. intuition lia.
Qed.

Lemma StronglySorted_app {A : Type} (R : A -> A -> Prop) (l1 l2 : list A) :
  StronglySorted R l1 -> StronglySorted R l2 ->
  (forall x y, In x l1 -> In y l2 -> R x y) ->
  StronglySorted R (l1 ++ l2).
Proof.
  intros H1 H2 H. induction H1 as [| a l1 Hl1 IH Ha]; simpl; [exact H2 |].
  constructor.
  - apply IH. intros x y Hx Hy. apply H; [right |]; assumption.
  - apply Forall_app. split; [exact Ha |].
    apply Forall_forall. intros y Hy. apply H; [left; reflexivity | exact Hy].
Qed.

Lemma StronglySorted_after {A : Type} (R : A -> A -> Prop) (l1 l2 : list A)
    (c : A) :
  StronglySorted R (l1 ++ c :: l2) -> Forall (R c) l2.
Proof.
  induction l1 as [| a l1 IH]; simpl; intros H;
    apply StronglySorted_inv in H; destruct H as [H1 H2]; auto.
Qed.

Lemma block_sorted (denom a k : nat) :
  StronglySorted examinedBefore (block denom a k).
Proof.
  revert a. induction k as [| k IH]; intros a; [constructor |].
  change (block denom a (S k))
    with ((if Nat.eqb (gcd a denom) 1 then [(a, denom)] else [])
            ++ block denom (S a) k).
  apply StronglySorted_app; [| apply IH |].
  - destruct (Nat.eqb (gcd a denom) 1); repeat constructor.
  - intros x y Hx Hy. apply in_block in Hy. destruct Hy as [Hd [Hn _]].
    destruct (Nat.eqb (gcd a denom) 1); [| contradiction].
    destruct Hx as [<- | []]. right. simpl. lia.
Qed.

Lemma blocks_sorted (a k : nat) : StronglySorted examinedBefore (blocks a k).
Proof.
  revert a. induction k as [| k IH]; intros a; [constructor |].
  change (blocks a (S k)) with (block a 1 a ++ blocks (S a) k).
  apply StronglySorted_app; [apply block_sorted | apply IH |].
  intros x y Hx Hy. apply in_block in Hx. apply in_blocks in Hy.
  left. lia.
Qed.

(** The loops reach the candidates in ascending (denominator, numerator)
    order. *)
Lemma candidates_sorted (maxDenominator : nat) :
  StronglySorted examinedBefore (candidates maxDenominator).
Proof. apply (blocks_sorted 1 maxDenominator). Qed.

End Candidates.

Section MinMax.

Local Open Scope float_scope.

Lemma SFcompare_Gt_Lt (a b : spec_float) :
  SFcompare a b = Some Gt -> SFcompare b a = Some Lt.
Proof.
  cases2 a b; intros H1; try discriminate; f_equal; lex; lia.
Qed.

Lemma SFcompare_Eq_cases (a b : spec_float) :
  SFcompare a b = Some Eq ->
  a = b \/ exists s s', a = S754_zero s /\ b = S754_zero s'.
Proof.
  cases2 a b; intros H1; try discriminate; eauto; left; lex;
    destruct H1 as [-> [= ->]]; reflexivity.
Qed.

Lemma SFcompare_total (a b : spec_float) :
  a <> S754_nan -> b <> S754_nan -> exists c, SFcompare a b = Some c.
Proof.
  destruct a, b; simpl; intros Ha Hb; try congruence; eauto.
Qed.

Lemma ltb_asym (a b : float) : (a <? b) = true -> (b <? a) = false.
Proof.
  intros H. destruct (b <? a) eqn:E; [| reflexivity].
  pose proof (ltb_trans H E) as H'. now rewrite ltb_irrefl in H'.
Qed.

Lemma abs_not_negative (x : float) : (abs x <? 0) = false.
Proof.
  rewrite ltb_spec, abs_spec. unfold SFltb.
  destruct (Prim2SF x) as [[] | [] | | [] ? ?]; reflexivity.
Qed.

(** Two numbers neither of which is smaller than the other are the same
    number, or two zeros; their quotient is the same either way round. *)
Lemma div_swap_equal (f1 f2 : float) :
  isNaN f1 = false -> isNaN f2 = false ->
  (f1 <? f2) = false -> (f2 <? f1) = false -> f1 / f2 = f2 / f1.
Proof.
  rewrite !isNaN_false, !ltb_spec. unfold SFltb. intros H1 H2 Hlt Hgt.
  destruct (SFcompare_total H1 H2) as [c Hc]. rewrite Hc in Hlt.
  destruct c; try discriminate.
  - apply Prim2SF_inj. rewrite !div_spec.
    destruct (SFcompare_Eq_cases _ _ Hc) as [-> | [s [s' [-> ->]]]];
      reflexivity.
  - rewrite (SFcompare_Gt_Lt _ _ Hc) in Hgt. discriminate.
Qed.

Lemma ratioOf_min_max (f1 f2 : float) :
  isNaN f1 = false -> isNaN f2 = false ->
  ratioOf f1 f2 = Math_min f1 f2 / Math_max f1 f2.
Proof.
  intros H1 H2. unfold ratioOf, Math_min, Math_max. rewrite H1, H2. simpl.
  destruct (f1 <? f2) eqn:E1; [reflexivity |].
  destruct (f2 <? f1) eqn:E2; [reflexivity |].
  destruct (get_sign f1); [| reflexivity].
  symmetry. apply div_swap_equal; assumption.
Qed.

End MinMax.

Section Search.

Local Open Scope float_scope.

Variable actual : float.

Local Notation "'d' c" := (diffTo actual c) (at level 10, c at level 9).

(** The search over any list of candidates, from any starting pair: either
    no candidate beats the start, or the result is a candidate that beat
    it, that no candidate beats, and that no earlier candidate equals. *)
Lemma search_invariant (cands : list (nat * nat)) (b0 : best) :
  let b := fold_left (consider actual) cands b0 in
  (b = b0 /\ forall c, In c cands -> (d c <? fst b0) = false)
  \/ (exists l1 c l2,
        cands = l1 ++ c :: l2
        /\ b = (d c, c)
        /\ (d c <? fst b0) = true
        /\ (forall c', In c' cands -> (d c' <? d c) = false)
        /\ (forall c', In c' l1 -> (d c' =? d c) = false)).
Proof.
  revert b0. induction cands as [| a rest IH]; intros b0; simpl.
  { left. split; [reflexivity | contradiction]. }
  change (consider actual b0 a)
    with (if d a <? fst b0 then (d a, a) else b0).
  destruct (d a <? fst b0) eqn:Ea.
  - destruct (IH (d a, a)) as [[Hb Hrest] | [l1 [c [l2 [Hl [Hb [Hc [Hmin Hfirst]]]]]]]];
      right.
    + exists [], a, rest. simpl in Hrest. repeat split; auto.
      * intros c' [<- | Hc']; [apply ltb_irrefl | auto].
      * contradiction.
    + simpl in Hc. subst rest. exists (a :: l1), c, l2. repeat split; auto.
      * eapply ltb_trans; eassumption.
      * intros c' [<- | Hc']; [apply ltb_asym, Hc | apply Hmin, Hc'].
      * intros c' [<- | Hc']; [apply ltb_eqb_false, Hc | auto].
  - destruct (IH b0) as [[Hb Hrest] | [l1 [c [l2 [Hl [Hb [Hc [Hmin Hfirst]]]]]]]].
    + left. split; [exact Hb |]. intros c [<- | Hc]; auto.
    + right. subst rest. exists (a :: l1), c, l2. repeat split; auto.
      * intros c' [<- | Hc']; [| apply Hmin, Hc'].
        destruct (d a <? d c) eqn:E; [| reflexivity].
        rewrite (ltb_trans E Hc) in Ea. discriminate.
      * intros c' [<- | Hc']; [| auto].
        destruct (d a =? d c) eqn:E; [| reflexivity].
        rewrite (eqb_ltb_trans E Hc) in Ea. discriminate.
Qed.

(** When some candidate lies at a finite distance from [actual], the search
    returns the closest candidate, the first one among equally close
    ones. *)
Lemma closest_is_closest (maxDenominator : nat) (c0 : nat * nat) :
  isCandidate maxDenominator c0 ->
  (d c0 <? infinity) = true ->
  closestAmong maxDenominator actual (closestSimpleRatio actual maxDenominator).
Proof.
  intros Hc0 Hfin. unfold closestSimpleRatio.
  destruct (search_invariant (candidates maxDenominator) sentinel)
    as [[_ Hnone] | [l1 [c [l2 [Hl [Hb [Hc [Hmin Hfirst]]]]]]]].
  - apply in_candidates in Hc0. apply Hnone in Hc0. simpl in Hc0.
    rewrite Hfin in Hc0. discriminate.
  - rewrite Hb. unfold closestAmong. simpl fst. simpl snd.
    assert (Hin : In c (candidates maxDenominator)).
    { rewrite Hl. apply in_elt. }
    split; [apply in_candidates, Hin |]. split; [reflexivity |].
    split; [exact Hc |]. split.
    + intros c' Hc'. apply Hmin, in_candidates, Hc'.
    + intros c' Hc' Hbefore. apply Hfirst.
      apply in_candidates in Hc'. rewrite Hl in Hc'.
      apply in_app_or in Hc'. destruct Hc' as [H1 | [-> | H2]]; [exact H1 | |].
      * exfalso. unfold examinedBefore in Hbefore. lia.
      * exfalso. pose proof (candidates_sorted maxDenominator) as Hs.
        rewrite Hl in Hs. apply StronglySorted_after in Hs.
        rewrite Forall_forall in Hs. specialize (Hs c' H2).
        unfold examinedBefore in Hs, Hbefore. lia.
Qed.

End Search.

(** Once a candidate at distance 0 is held, no later candidate replaces
    it. *)
Lemma search_keeps_zero (actual : float) (cands : list (nat * nat))
    (c : nat * nat) :
  fold_left (consider actual) cands (0%float, c) = (0%float, c).
Proof.
  induction cands as [| a rest IH]; [reflexivity |].
  simpl.
  change (consider actual (0%float, c) a)
    with (if diffTo actual a <? 0 then (diffTo actual a, a) else (0, c))%float.
  unfold diffTo. rewrite abs_not_negative. exact IH.
Qed.

Lemma closest_to_half (maxDenominator : nat) :
  2 <= maxDenominator ->
  closestSimpleRatio 0.5%float maxDenominator = (0%float, (1, 2)).
Proof.
  intros H. destruct maxDenominator as [| [| k]]; try lia.
  unfold closestSimpleRatio, candidates.
  change (seq 1 (S (S k))) with (1 :: 2 :: seq 3 k).
  cbn [flat_map]. rewrite fold_left_app.
  change (fold_left (consider 0.5%float)
            (flat_map
               (fun num => if Nat.eqb (gcd num 1) 1 then [(num, 1)] else [])
               (seq 1 1)) sentinel)
    with (0.5%float, (1, 1)).
  rewrite fold_left_app.
  change (fold_left (consider 0.5%float)
            (flat_map
               (fun num => if Nat.eqb (gcd num 2) 1 then [(num, 2)] else [])
               (seq 1 2)) (0.5%float, (1, 1)))
    with (0%float, (1, 2)).
  apply search_keeps_zero.
Qed.

Lemma in_firstn {A : Type} (n : nat) (l : list A) (a : A) :
  In a (firstn n l) -> In a l.
Proof.
  revert l. induction n as [| n IH]; intros [| b l]; simpl; try contradiction.
  intros [-> | H]; [left; reflexivity | right; apply IH, H].
Qed.

Lemma analyze_pairs (structure : HarmonicStructure) (maxDenominator : nat) :
  analyzeFrequencyRatios structure maxDenominator
  = flat_map (fun p => ratioEntry maxDenominator (fst p) (snd p))
      (pairsInOrder (firstn 100 (extractAllFrequenciesWithPaths structure))).
Proof.
  unfold analyzeFrequencyRatios, ratiosOfRecords.
  rewrite forPairs_pairsInOrder. do 2 f_equal.
  set (recs := extractAllFrequenciesWithPaths structure).
  destruct (Nat.le_ge_cases (List.length recs) 100) as [H | H].
  - rewrite Nat.min_l by exact H. now rewrite !firstn_all2 by lia.
  - now rewrite Nat.min_r by exact H.
Qed.

(** A NaN ratio is at a NaN distance from every fraction, so no examined
    fraction replaces what the search holds. *)
Lemma search_nan (cands : list (nat * nat)) (b : best) :
  fold_left (consider nan) cands b = b.
Proof.
  induction cands as [| c rest IH]; [reflexivity |].
  simpl. unfold consider at 2.
  assert (H : PrimFloat.ltb (diffTo nan c) (fst b) = false).
  { rewrite ltb_spec. unfold diffTo. rewrite abs_spec, sub_spec.
    change (Prim2SF nan) with S754_nan. reflexivity. }
  cbv zeta. rewrite H. exact IH.
Qed.

Lemma closest_nan (maxDenominator : nat) :
  closestSimpleRatio nan maxDenominator = sentinel.
Proof. apply search_nan. Qed.

Lemma Forall2_flat_map_single (A B : Type) (R : A -> B -> Prop)
    (f : A -> list B) (l : list A) :
  (forall a, In a l -> exists b, f a = [b] /\ R a b) ->
  Forall2 R l (flat_map f l).
Proof.
  induction l as [| a l IH]; intros H; [constructor |].
  destruct (H a (or_introl eq_refl)) as [b [E Hb]].
  cbn [flat_map]. rewrite E. cbn [List.app]. constructor; [exact Hb |].
  apply IH. intros a' Ha'. apply H. right. exact Ha'.
Qed.

(** Where the ratio is finite the analysis does what is expected of it.
    With [maxDenominator >= 1], every pair among the first 100 records gets
    exactly one entry, in the order of the loops; the entry carries the two
    frequencies and path strings, [actualRatio = min(f1, f2) / max(f1, f2)]
    and the result of the search for that ratio; whenever the ratio lies at
    a finite distance from 1/1, which every finite ratio does, that result
    is a reduced fraction [n/d] with [1 <= n <= d <= maxDenominator] such
    that no candidate is strictly closer to the ratio and no candidate
    earlier in ascending (denominator, numerator) order is equally close,
    distances being the doubles [|actualRatio - n/d|] the program computes.
    For the ratio 0.5 and [maxDenominator >= 2] the result is 1/2 at
    distance 0. *)
Lemma ratio_entries_closest (structure : HarmonicStructure)
    (maxDenominator : nat) :
  1 <= maxDenominator ->
  Forall2
    (fun p e =>
       rfreq1 e = frequency (fst p) /\ rfreq2 e = frequency (snd p)
       /\ rpath1 e = pathString (fst p) /\ rpath2 e = pathString (snd p)
       /\ actualRatio e
          = (Math_min (rfreq1 e) (rfreq2 e) / Math_max (rfreq1 e) (rfreq2 e))%float
       /\ (rdifference e, simpleRatio e)
          = closestSimpleRatio (actualRatio e) maxDenominator
       /\ (PrimFloat.ltb (diffTo (actualRatio e) (1, 1)) infinity = true ->
           closestAmong maxDenominator (actualRatio e)
             (rdifference e, simpleRatio e)))
    (pairsInOrder (firstn 100 (extractAllFrequenciesWithPaths structure)))
    (analyzeFrequencyRatios structure maxDenominator)
  /\ (2 <= maxDenominator ->
      closestSimpleRatio 0.5%float maxDenominator = (0%float, (1, 2))).
Proof.
  intros Hmax. split; [| apply closest_to_half].
  rewrite analyze_pairs. apply Forall2_flat_map_single.
  intros [r1 r2] Hp.
  apply in_pairsInOrder in Hp. destruct Hp as [i [j [_ [Hi Hj]]]].
  pose proof (extract_not_nan structure) as Hnan.
  rewrite Forall_forall in Hnan.
  assert (H1 : isNaN (frequency r1) = false).
  { apply Hnan. eapply (@in_firstn _ 100), nth_error_In, Hi. }
  assert (H2 : isNaN (frequency r2) = false).
  { apply Hnan. eapply (@in_firstn _ 100), nth_error_In, Hj. }
  unfold ratioEntry. cbn [fst snd]. rewrite H1, H2. cbn [orb].
  eexists. split; [reflexivity |].
  cbn [actualRatio rfreq1 rfreq2 rpath1 rpath2 rdifference simpleRatio].
  do 4 (split; [reflexivity |]).
  split; [apply ratioOf_min_max; assumption |].
  rewrite <- surjective_pairing. split; [reflexivity |].
  intros Hfin. apply (@closest_is_closest _ maxDenominator (1, 1)).
  - unfold isCandidate. simpl. repeat split; lia.
  - exact Hfin.
Qed.

(** C5, evaluated at base 1e308, harmonic mode, breadth 3, depth 0: the
    second and third harmonics overflow to Infinity and pass the guard that
    rejects only NaN frequencies, so the pair is analyzed; its ratio
    Infinity / Infinity is NaN, and for every [maxDenominator] the fraction
    returned for it is 0/0 at distance Infinity: it has no numerator of at
    least 1 and is none of the fractions the search examines. *)
Theorem C5_infinite_pair_gets_no_fraction (maxDenominator : nat) :
  exists s e,
    generateHarmonicStructure 3 "harmonic" None 0x1.1ccf385ebc8ap+1023%float 0
    = Ok s
    /\ nth_error (analyzeFrequencyRatios s maxDenominator) 5 = Some e
    /\ rfreq1 e = infinity /\ rfreq2 e = infinity
    /\ rpath1 e = "H^0[1]"%string /\ rpath2 e = "H^0[2]"%string
    /\ isNaN (actualRatio e) = true
    /\ simpleRatio e = (0, 0)
    /\ rdifference e = infinity
    /\ ~ isCandidate maxDenominator (simpleRatio e).
Proof.
  eexists.
  exists (mkRatio infinity infinity "H^0[1]" "H^0[2]" nan (0, 0) infinity).
  split; [vm_compute; reflexivity |].
  split.
  - transitivity
      (Some (mkRatio infinity infinity "H^0[1]" "H^0[2]" nan
               (snd (closestSimpleRatio nan maxDenominator))
               (fst (closestSimpleRatio nan maxDenominator)))).
    + vm_compute. reflexivity.
    + rewrite closest_nan. reflexivity.
  - cbn [rfreq1 rfreq2 rpath1 rpath2 actualRatio simpleRatio rdifference].
    repeat split. unfold isCandidate. cbn [fst snd]. lia.
Qed.

(** C10, evaluated at base 1e308, harmonic mode, breadth 3, depth 0,
    [maxDenominator = 12]: the second and third harmonics overflow to
    Infinity, their ratio is NaN, and the entry for that pair carries the
    initial values: fraction 0/0 and difference Infinity. *)
Theorem C10_sentinel_reached :
  exists s,
    generateHarmonicStructure 3 "harmonic" None 0x1.1ccf385ebc8ap+1023%float 0
    = Ok s
    /\ 1 <= 12
    /\ nth_error (analyzeFrequencyRatios s 12) 5
       = Some (mkRatio infinity infinity "H^0[1]" "H^0[2]" nan (0, 0) infinity).
Proof.
  eexists. split; [vm_compute; reflexivity |].
  split; [lia |]. vm_compute. reflexivity.
Qed.

(** ** TreeModel *)

Section TreeInduction.

Import TreeModel.

Variable P : TreeNode -> Prop.
Hypothesis Hnode :
  forall i n v l t ix bf pf ri cs,
    Forall P cs -> P (mkNode i n v l t ix bf pf ri cs).

Fixpoint tree_induction (t : TreeNode) : P t :=
  match t with
  | mkNode i n v l ty ix bf pf ri cs =>
      Hnode i n v l ty ix bf pf ri
        ((fix all (l : list TreeNode) : Forall P l :=
            match l with
            | [] => Forall_nil P
            | c :: l' => Forall_cons c (tree_induction c) (all l')
            end) cs)
  end.

End TreeInduction.

Section UpdateFirst.

Import TreeModel.

Variable f : TreeNode -> result (option TreeNode).

Lemma updateFirst_None (l : list TreeNode) :
  Forall (fun c => f c = Ok None) l -> updateFirst f l = Ok None.
Proof.
  induction 1 as [| c l Hc _ IH]; simpl; [reflexivity |].
  rewrite Hc. simpl. rewrite IH. reflexivity.
Qed.

Lemma updateFirst_None_inv (l : list TreeNode) :
  updateFirst f l = Ok None -> Forall (fun c => f c = Ok None) l.
Proof.
  induction l as [| c l IH]; simpl; intros H; [constructor |].
  destruct (f c) as [[c' |] | msg] eqn:Hc; simpl in H; try discriminate.
  destruct (updateFirst f l) as [[l' |] | msg]; simpl in H; try discriminate.
  constructor; [exact Hc | apply IH; reflexivity].
Qed.

Lemma updateFirst_Some_inv (l l' : list TreeNode) :
  updateFirst f l = Ok (Some l') ->
  exists pre c c' post,
    l = pre ++ c :: post /\ l' = pre ++ c' :: post
    /\ f c = Ok (Some c') /\ Forall (fun p => f p = Ok None) pre.
Proof.
  revert l'. induction l as [| c l IH]; simpl; intros l' H; [discriminate |].
  destruct (f c) as [[c' |] | msg] eqn:Hc; simpl in H; try discriminate.
  - injection H as <-. exists [], c, c', l. repeat split; auto.
  - destruct (updateFirst f l) as [[l1 |] | msg]; simpl in H; try discriminate.
    injection H as <-.
    destruct (IH l1 eq_refl) as [pre [d [d' [post [-> [-> [Hd Hpre]]]]]]].
    exists (c :: pre), d, d', post. repeat split; auto.
Qed.

End UpdateFirst.

Section TreeFacts.

Import TreeModel.

Variable toFixed : float -> nat -> string.
Variables (theBaseFreq : float) (nHarmonics : nat) (mode : string)
          (maxLevel : nat) (customRatios : option (list float)).

Local Notation "'search'" :=
  (findAndUpdateNode toFixed theBaseFreq nHarmonics mode maxLevel customRatios).
Local Notation "'generated'" :=
  (generateChildrenForNode toFixed theBaseFreq nHarmonics mode maxLevel
     customRatios).

Lemma NoDup_app_disjoint {A : Type} (l1 l2 : list A) (a : A) :
  NoDup (l1 ++ l2) -> In a l1 -> In a l2 -> False.
Proof.
  induction l1 as [| b l1 IH]; simpl; intros H H1 H2; [contradiction |].
  apply NoDup_cons_iff in H. destruct H as [Hb H]. destruct H1 as [-> | H1].
  - apply Hb, in_or_app. now right.
  - exact (IH H H1 H2).
Qed.

(** [findAndUpdateNode] on a node whose id is not the target searches the
    children in order. *)
Lemma search_unfold (t : TreeNode) (targetId : string) :
  search t targetId
  = if String.eqb (id t) targetId then
      match children t with
      | [] =>
          newChildren <- generated t ;;
          match newChildren with
          | [] => Ok None
          | _ :: _ => Ok (Some (setChildren t newChildren))
          end
      | _ :: _ => Ok None
      end
    else
      r <- updateFirst (fun c => search c targetId) (children t) ;;
      Ok (option_map (setChildren t) r).
Proof.
  destruct t as [i n v l ty ix bf pf ri cs]. simpl.
  destruct (String.eqb i targetId); [reflexivity |].
  f_equal. induction cs as [| c cs IH]; [reflexivity |].
  simpl. destruct (search c targetId) as [[c' |] | msg]; simpl; try reflexivity.
  rewrite IH. reflexivity.
Qed.

Lemma ids_jsonCopy (t : TreeNode) : ids (jsonCopy t) = ids t.
Proof.
  induction t as [i n v l ty ix bf pf ri cs IH] using tree_induction.
  simpl. f_equal. induction IH as [| c cs Hc _ IHcs]; [reflexivity |].
  simpl. now rewrite Hc, IHcs.
Qed.

Lemma id_jsonCopy (t : TreeNode) : id (jsonCopy t) = id t.
Proof. now destruct t. Qed.

Lemma children_jsonCopy (t : TreeNode) :
  children (jsonCopy t) = map jsonCopy (children t).
Proof. now destruct t. Qed.

Lemma mapIndexed_nil {A B : Type} (g : A -> nat -> B) (k : nat) (l : list A) :
  mapIndexed g k l = [] -> l = [].
Proof. destruct l; [reflexivity | discriminate]. Qed.

(** Whether a node has children to generate depends on its type and level
    and on the props, not on the numbers a JSON copy changes. *)
Lemma generated_nothing_jsonCopy (t : TreeNode) :
  generated t = Ok [] -> generated (jsonCopy t) = Ok [].
Proof.
  destruct t as [i n v l ty ix bf pf ri cs].
  unfold generateChildrenForNode. simpl.
  destruct ty; [auto |].
  destruct (Z.of_nat maxLevel <? l + 1)%Z; [auto |].
  destruct (ratiosOf nHarmonics mode customRatios) as [rs |] eqn:Hrs.
  - rewrite !(generate_ratios _ _ _ _ Hrs). simpl. intros [= H].
    apply mapIndexed_nil, map_eq_nil in H. subst rs. reflexivity.
  - rewrite !(generate_throws _ _ _ _ Hrs). discriminate.
Qed.

(** A search that changes nothing changes nothing on a JSON copy either. *)
Lemma search_None_jsonCopy (t : TreeNode) (targetId : string) :
  search t targetId = Ok None -> search (jsonCopy t) targetId = Ok None.
Proof.
  induction t as [i n v l ty ix bf pf ri cs IH] using tree_induction.
  rewrite !search_unfold, id_jsonCopy, children_jsonCopy.
  cbn [id children]. destruct (String.eqb i targetId).
  - destruct cs as [| c cs]; [| reflexivity]. simpl map. cbv iota.
    destruct (generated (mkNode i n v l ty ix bf pf ri [])) as [[| ? ?] | msg]
      eqn:Hg; simpl; try discriminate.
    intros _. pose proof (@generated_nothing_jsonCopy _ Hg) as Hg'.
    cbn [jsonCopy map] in Hg' |- *. rewrite Hg'. reflexivity.
  - destruct (updateFirst (fun c => search c targetId) cs) as [[r |] | msg]
      eqn:Hu; simpl; try discriminate.
    intros _. apply updateFirst_None_inv in Hu.
    rewrite updateFirst_None; [reflexivity |].
    rewrite Forall_map. rewrite Forall_forall in IH, Hu |- *.
    intros c Hc. apply IH; auto.
Qed.

Lemma search_absent (t : TreeNode) (targetId : string) :
  ~ In targetId (ids t) -> search t targetId = Ok None.
Proof.
  induction t as [i n v l ty ix bf pf ri cs IH] using tree_induction.
  intros Hnot. rewrite search_unfold. cbn [id children].
  simpl in Hnot. destruct (String.eqb_spec i targetId) as [-> | Hne].
  { exfalso. apply Hnot. now left. }
  rewrite updateFirst_None; [reflexivity |].
  rewrite Forall_forall in IH |- *. intros c Hc. apply IH; [exact Hc |].
  intros Hin. apply Hnot. right. apply in_flat_map. eauto.
Qed.

Lemma search_Some_present (t t' : TreeNode) (targetId : string) :
  search t targetId = Ok (Some t') -> In targetId (ids t).
Proof.
  destruct (in_dec string_dec targetId (ids t)) as [H | H]; [auto |].
  rewrite (@search_absent _ _ H). discriminate.
Qed.

(** After a search has materialized the children of the target, a second
    search, on a JSON copy of the result, changes nothing. *)
Lemma search_settled (t t' : TreeNode) (targetId : string) :
  NoDup (ids t) ->
  search t targetId = Ok (Some t') ->
  search (jsonCopy t') targetId = Ok None.
Proof.
  revert t'. induction t as [i n v l ty ix bf pf ri cs IH] using tree_induction.
  intros t' Hnodup. rewrite search_unfold. cbn [id children].
  destruct (String.eqb i targetId) eqn:Hi.
  - destruct cs as [| c cs]; [| discriminate].
    destruct (generated (mkNode i n v l ty ix bf pf ri [])) as [[| c1 cs1] | msg];
      simpl; try discriminate.
    intros [= <-]. rewrite search_unfold. simpl. rewrite Hi. reflexivity.
  - destruct (updateFirst (fun c => search c targetId) cs) as [[r |] | msg]
      eqn:Hu; simpl; try discriminate.
    intros [= <-]. apply updateFirst_Some_inv in Hu.
    destruct Hu as [pre [c [c' [post [-> [-> [Hc Hpre]]]]]]].
    rewrite search_unfold. simpl. rewrite Hi.
    rewrite updateFirst_None; [reflexivity |].
    simpl in Hnodup. apply NoDup_cons_iff in Hnodup.
    destruct Hnodup as [_ Hnodup]. rewrite flat_map_app in Hnodup. simpl in Hnodup.
    rewrite Forall_map. rewrite Forall_forall in IH.
    apply Forall_app. split; [| constructor].
    + revert Hpre. apply Forall_impl. intros p. apply search_None_jsonCopy.
    + apply (IH c); [apply in_elt | | exact Hc].
      apply NoDup_app_remove_l in Hnodup. eapply NoDup_app_remove_r, Hnodup.
    + apply Forall_forall. intros q Hq. apply search_absent.
      rewrite ids_jsonCopy. intros Hin.
      apply NoDup_app_remove_l in Hnodup.
      pose proof (@search_Some_present _ _ _ Hc) as Hhere.
      apply (@NoDup_app_disjoint _ _ _ targetId Hnodup Hhere).
      apply in_flat_map. eauto.
Qed.

End TreeFacts.

Section ExpandedSet.

Import TreeModel.

Lemma has_In (s : list string) (x : string) : has s x = true <-> In x s.
Proof.
  unfold has. rewrite existsb_exists. split.
  - intros [y [Hy He]]. apply String.eqb_eq in He. now subst.
  - intros H. exists x. split; [exact H | apply String.eqb_refl].
Qed.

Lemma has_add (s : list string) (x : string) : has (add s x) x = true.
Proof.
  unfold add. destruct (has s x) eqn:E; [exact E |].
  apply has_In, in_or_app. right. now left.
Qed.

Lemma in_delete (s : list string) (x y : string) :
  In y (delete s x) <-> In y s /\ x <> y.
Proof.
  unfold delete. rewrite filter_In, negb_true_iff, String.eqb_neq. tauto.
Qed.

Lemma in_delete_all (toRemove s : list string) (y : string) :
  In y (fold_left delete toRemove s) <-> In y s /\ ~ In y toRemove.
Proof.
  revert s. induction toRemove as [| x l IH]; intros s; simpl.
  - tauto.
  - rewrite IH, in_delete. intuition congruence.
Qed.

(** The expanded set after a collapse: the ids the filter did not select. *)
Lemma in_collapse (st : State) (nodeId y : string) :
  In y (expandedNodes (collapse st nodeId)) <->
  In y (expandedNodes st) /\ removedBy nodeId y = false.
Proof.
  unfold collapse. simpl. rewrite in_delete_all, filter_In.
  destruct (removedBy nodeId y); intuition congruence.
Qed.

Lemma removedBy_self (nodeId : string) : removedBy nodeId nodeId = true.
Proof. unfold removedBy. now rewrite String.eqb_refl. Qed.

Lemma collapse_removes_self (st : State) (nodeId : string) :
  has (expandedNodes (collapse st nodeId)) nodeId = false.
Proof.
  destruct (has _ nodeId) eqn:E; [| reflexivity].
  apply has_In, in_collapse in E. rewrite removedBy_self in E.
  destruct E; discriminate.
Qed.

End ExpandedSet.

Section RoundTrip.

Import TreeModel.

Variable toFixed : float -> nat -> string.
Variables (theBaseFreq : float) (nHarmonics : nat) (mode : string)
          (maxLevel : nat) (customRatios : option (list float)).

Local Notation "'expand''" :=
  (expand toFixed theBaseFreq nHarmonics mode maxLevel customRatios).
Local Notation "'toggle'" :=
  (toggleNode toFixed theBaseFreq nHarmonics mode maxLevel customRatios).

(** C8.  In a tree whose ids are unique, expanding a node, collapsing it
    and expanding it again leaves the whole tree, and so the children list
    of that node (ids, values, order), exactly as the first expansion left
    it: the collapse does not touch the tree, and the second expansion
    returns without generating anything.  The two later steps are the ones
    [toggleNode] takes on that id. *)
Theorem C8_expand_collapse_expand (st st1 : State) (nodeId : string) :
  NoDup (ids (treeData st)) ->
  expand' st nodeId = Ok st1 ->
  exists st3,
    toggle st1 nodeId = Ok (collapse st1 nodeId)
    /\ treeData (collapse st1 nodeId) = treeData st1
    /\ toggle (collapse st1 nodeId) nodeId = Ok st3
    /\ expand' (collapse st1 nodeId) nodeId = Ok st3
    /\ treeData st3 = treeData st1
    /\ findNode (treeData st3) nodeId = findNode (treeData st1) nodeId
    /\ has (expandedNodes st3) nodeId = true.
Proof.
  intros Hnodup Hexp.
  assert (Hsettled :
    findAndUpdateNode toFixed theBaseFreq nHarmonics mode maxLevel customRatios
      (jsonCopy (treeData st1)) nodeId = Ok None
    /\ has (expandedNodes st1) nodeId = true).
  { unfold TreeModel.expand in Hexp.
    destruct (findAndUpdateNode toFixed theBaseFreq nHarmonics mode maxLevel
                customRatios (jsonCopy (treeData st)) nodeId)
      as [[updated |] | msg] eqn:Hs; simpl in Hexp; try discriminate;
      injection Hexp as <-; simpl; (split; [| apply has_add]).
    - eapply search_settled; [| exact Hs]. now rewrite ids_jsonCopy.
    - exact Hs. }
  destruct Hsettled as [Hsettled Hhas].
  exists (mkState (treeData st1)
            (add (expandedNodes (collapse st1 nodeId)) nodeId)).
  assert (Hexp' : expand' (collapse st1 nodeId) nodeId
                  = Ok (mkState (treeData st1)
                          (add (expandedNodes (collapse st1 nodeId)) nodeId))).
  { unfold TreeModel.expand. cbn [treeData collapse]. rewrite Hsettled.
    reflexivity. }
  repeat split.
  - unfold toggleNode. now rewrite Hhas.
  - unfold toggleNode. now rewrite collapse_removes_self.
  - exact Hexp'.
  - apply has_add.
Qed.

End RoundTrip.

Section TreeExamples.

Import TreeModel Examples.

Variable toFixed : float -> nat -> string.

(** C7, evaluated on the tree for base 440, harmonic mode, breadth 3,
    depth 2.  From the initial state the root is collapsed, expanded (its
    three children are generated), the child [h0-1] is expanded, and the
    root is collapsed again: the id [h0-1] of a child of the root is still
    in the expanded set.  Collapsing [h0-1] instead does remove the ids of
    its own expanded descendants. *)
Theorem C7_root_collapse_keeps_descendants :
  exists st,
    clicks toFixed 440%float 3 "harmonic" 2 None
      (initialState toFixed 440%float)
      ["root"; "root"; "h0-1"; "h1-h0-1-0"]%string = Ok st
    /\ expandedNodes st = ["root"; "h0-1"; "h1-h0-1-0"]%string
    /\ map id (children (treeData st)) = ["h0-0"; "h0-1"; "h0-2"]%string
    /\ expandedNodes (collapse st "root") = ["h0-1"; "h1-h0-1-0"]%string
    /\ expandedNodes (collapse st "h0-1") = ["root"]%string
    /\ treeData (collapse st "root") = treeData st.
Proof.
  eexists. split; [vm_compute; reflexivity |].
  repeat split; vm_compute; reflexivity.
Qed.

End TreeExamples.

Section RoundTripExample.

Import TreeModel Examples.

(** C8 on the tree for base 440, harmonic mode, breadth 3, depth 2, at the
    root. *)
Lemma C8_expand_collapse_expand_witness :
  exists st3,
    toggleNode noName 440%float 3 "harmonic" 2 None afterExpand "root"
    = Ok (collapse afterExpand "root")
    /\ treeData (collapse afterExpand "root") = treeData afterExpand
    /\ toggleNode noName 440%float 3 "harmonic" 2 None
         (collapse afterExpand "root") "root" = Ok st3
    /\ expand noName 440%float 3 "harmonic" 2 None
         (collapse afterExpand "root") "root" = Ok st3
    /\ treeData st3 = treeData afterExpand
    /\ findNode (treeData st3) "root" = findNode (treeData afterExpand) "root"
    /\ has (expandedNodes st3) "root" = true.
Proof.
  apply (@C8_expand_collapse_expand noName 440%float 3 "harmonic" 2 None
           start afterExpand "root").
  - vm_compute. repeat constructor. intros [].
  - vm_compute. reflexivity.
Defined.

End RoundTripExample.

(** ** LayoutEngine *)

Section Store.

Import LayoutEngine.

Lemma length_update (i : nat) (f : NodeInfo -> NodeInfo) (st : list NodeInfo) :
  List.length (update i f st) = List.length st.
Proof.
  revert i. induction st as [| n st IH]; intros [| i]; simpl; auto.
Qed.

Lemma get_update_same (i : nat) (f : NodeInfo -> NodeInfo) (st : list NodeInfo) :
  i < List.length st -> get (update i f st) i = f (get st i).
Proof.
  revert i. induction st as [| n st IH]; intros [| i]; simpl; try lia; auto.
  intros H. apply IH. lia.
Qed.

Lemma get_update_other (i j : nat) (f : NodeInfo -> NodeInfo)
    (st : list NodeInfo) :
  i <> j -> get (update i f st) j = get st j.
Proof.
  revert i j. induction st as [| n st IH]; intros [| i] [| j] H; simpl;
    try reflexivity; try lia.
  apply IH. lia.
Qed.

(** The fields the layout pass never writes. *)
Definition sameShape (st st' : list NodeInfo) : Prop :=
  List.length st = List.length st'
  /\ forall j, parent (get st j) = parent (get st' j)
               /\ nid (get st j) = nid (get st' j)
               /\ nlevel (get st j) = nlevel (get st' j).

Lemma sameShape_refl (st : list NodeInfo) : sameShape st st.
Proof. split; auto. Qed.

Lemma sameShape_trans (a b c : list NodeInfo) :
  sameShape a b -> sameShape b c -> sameShape a c.
Proof.
  intros [H1 H2] [H3 H4]. split; [congruence |].
  intros j. destruct (H2 j) as [? [? ?]], (H4 j) as [? [? ?]].
  repeat split; congruence.
Qed.

Lemma sameShape_update (i : nat) (nx ny : Q) (st : list NodeInfo) :
  sameShape (update i (setXY nx ny) st) st.
Proof.
  split; [apply length_update |]. intros j.
  destruct (Nat.eq_dec i j) as [<- | Hne].
  - destruct (Nat.lt_ge_cases i (List.length st)) as [Hlt | Hge].
    + rewrite get_update_same by exact Hlt. auto.
    + unfold get. rewrite !nth_overflow; auto. now rewrite length_update.
  - rewrite get_update_other by exact Hne. auto.
Qed.

End Store.

Section Siblings.

Import LayoutEngine.

Local Open Scope Q_scope.

Variables (gx startY ns : Q).

Lemma placeSiblings_shape (g : list nat) (k : nat) (st : list NodeInfo) :
  sameShape (placeSiblings g k gx startY ns st) st.
Proof.
  revert k st. induction g as [| i g IH]; intros k st; simpl.
  - apply sameShape_refl.
  - eapply sameShape_trans; [apply IH | apply sameShape_update].
Qed.

Lemma placeSiblings_other (g : list nat) (k : nat) (st : list NodeInfo)
    (j : nat) :
  ~ In j g -> get (placeSiblings g k gx startY ns st) j = get st j.
Proof.
  revert k st. induction g as [| i g IH]; intros k st Hj; simpl; [reflexivity |].
  rewrite IH by (intros H; apply Hj; now right).
  apply get_update_other. intros ->. apply Hj. now left.
Qed.

(** The [r]-th sibling is written once, with [startY + (k + r) * ns]. *)
Lemma placeSiblings_member (g : list nat) (k : nat) (st : list NodeInfo)
    (r i : nat) :
  NoDup g -> (forall j, In j g -> (j < List.length st)%nat) ->
  nth_error g r = Some i ->
  y (get (placeSiblings g k gx startY ns st) i)
  = startY + ofCount (k + r) * ns.
Proof.
  revert k st r. induction g as [| a g IH]; intros k st r Hnd Hlt Hr.
  - now destruct r.
  - apply NoDup_cons_iff in Hnd. destruct Hnd as [Ha Hnd].
    destruct r as [| r]; simpl in Hr |- *.
    + injection Hr as ->. rewrite placeSiblings_other by exact Ha.
      rewrite get_update_same by (apply Hlt; now left).
      rewrite Nat.add_0_r. reflexivity.
    + rewrite (IH (S k) _ r Hnd).
      * now rewrite Nat.add_succ_r.
      * intros j Hj. rewrite length_update. apply Hlt. now right.
      * exact Hr.
Qed.

End Siblings.

Section Spacing.

Import LayoutEngine.

Local Open Scope Q_scope.

Lemma factor_nonneg (nodes : list NodeInfo) : 0 <= nodeSpacingFactor nodes.
Proof. apply Q.le_max_l. Qed.

Lemma nodeSpacing_pos (nodes : list NodeInfo) : 0 < nodeSpacing nodes.
Proof.
  pose proof (factor_nonneg nodes) as H.
  unfold nodeSpacing, minNodeSpacing, maxNodeSpacing. lra.
Qed.

Lemma groupSpacing_pos (nodes : list NodeInfo) : 0 < groupSpacing nodes.
Proof.
  pose proof (factor_nonneg nodes) as H.
  unfold groupSpacing, minGroupSpacing, maxGroupSpacing. lra.
Qed.

Lemma ofCount_succ (r : nat) : ofCount (S r) == ofCount r + 1.
Proof.
  unfold ofCount. rewrite Nat2Z.inj_succ, <- Z.add_1_r, inject_Z_plus.
  reflexivity.
Qed.

Lemma ofCount_le (a b : nat) : (a <= b)%nat -> ofCount a <= ofCount b.
Proof. intros H. unfold ofCount. rewrite <- Zle_Qle. lia. Qed.

Lemma ofCount_nonneg (a : nat) : 0 <= ofCount a.
Proof. apply (@ofCount_le 0 a). lia. Qed.

End Spacing.

Section GroupPass.

Import LayoutEngine.

Local Open Scope Q_scope.

Variable nodes : list NodeInfo.
Variables (ns gs : Q).
Hypothesis Hns : 0 < ns.

(** The store before the first group of the level is placed. *)
Variable st0 : list NodeInfo.

(** What holds once the groups [done] of a level have been visited. *)
Record passed (done : list (list nat)) (c : Cursor) : Prop := mkPassed {
  passed_shape : sameShape (store c) nodes;
  passed_frame :
    forall j, ~ In j (List.concat done) -> get (store c) j = get st0 j;
  passed_cursor :
    forall g i, In g done -> placed nodes g -> In i g ->
      y (get (store c) i) + gs <= globalY c;
  passed_order :
    forall a b ga gb i j,
      (a < b)%nat -> nth_error done a = Some ga -> nth_error done b = Some gb ->
      placed nodes ga -> placed nodes gb -> In i ga -> In j gb ->
      y (get (store c) i) + gs <= y (get (store c) j);
  passed_siblings :
    forall g, In g done -> placed nodes g ->
      exists startY, forall r i, nth_error g r = Some i ->
        y (get (store c) i) == startY + ofCount r * ns;
  passed_first :
    isFirstGroup c = true -> forall g, In g done -> ~ placed nodes g
}.

Lemma passed_start :
  sameShape st0 nodes -> passed [] (mkCursor st0 (-10) true).
Proof.
  intros H. constructor; simpl; auto; try contradiction.
  intros a b ga gb i j _ Ha. now destruct a.
Qed.

Lemma in_concat_member (done : list (list nat)) (g : list nat) (i : nat) :
  In g done -> In i g -> In i (List.concat done).
Proof. intros Hg Hi. apply in_concat. eauto. Qed.

Lemma member_position (g : list nat) (i : nat) :
  In i g -> exists r, nth_error g r = Some i /\ (r <= List.length g - 1)%nat.
Proof.
  intros H. apply In_nth_error in H. destruct H as [r Hr]. exists r.
  split; [exact Hr |].
  assert (r < List.length g)%nat by (apply nth_error_Some; congruence). lia.
Qed.

(** Visiting a group that is skipped changes nothing. *)
Lemma passed_skip (done : list (list nat)) (c : Cursor) (g : list nat) :
  passed done c -> ~ placed nodes g -> passed (done ++ [g]) c.
Proof.
  intros [Hshape Hframe Hcursor Horder Hsib Hfirst] Hg. constructor.
  - exact Hshape.
  - intros j Hj. apply Hframe. intros H. apply Hj.
    rewrite concat_app. apply in_or_app. now left.
  - intros g' i Hg' Hp Hi. apply in_app_or in Hg'.
    destruct Hg' as [Hg' | [<- | []]]; [eauto | contradiction].
  - intros a b ga gb i j Hab Ha Hb Hpa Hpb Hi Hj.
    destruct (Nat.lt_ge_cases b (List.length done)) as [Hlt | Hge].
    + rewrite nth_error_app1 in Ha, Hb by lia. eauto.
    + rewrite nth_error_app2 in Hb by exact Hge.
      destruct (b - List.length done)%nat as [| k]; simpl in Hb.
      * injection Hb as <-. contradiction.
      * now destruct k.
  - intros g' Hg' Hp. apply in_app_or in Hg'.
    destruct Hg' as [Hg' | [<- | []]]; [eauto | contradiction].
  - intros Hf g' Hg'. apply in_app_or in Hg'.
    destruct Hg' as [Hg' | [<- | []]]; [eauto | exact Hg].
Qed.

(** Visiting a group that has a parent places it below the cursor. *)
Lemma passed_place (done : list (list nat)) (c : Cursor) (g : list nat) :
  passed done c ->
  NoDup (List.concat (done ++ [g])) ->
  (forall i, In i g -> (i < List.length nodes)%nat) ->
  passed (done ++ [g]) (placeGroup ns gs c g).
Proof.
  intros Hpassed Hnd Hlt.
  destruct g as [| first rest].
  { apply passed_skip; [exact Hpassed | intros []]. }
  assert (Hparent : parent (get (store c) first) = parent (get nodes first)).
  { apply (passed_shape Hpassed). }
  unfold placeGroup. rewrite Hparent.
  destruct (parent (get nodes first)) as [p |] eqn:Ep.
  2:{ apply passed_skip; [exact Hpassed |]. simpl. congruence. }
  assert (Hplaced : placed nodes (first :: rest)) by (simpl; congruence).
  remember (first :: rest) as g eqn:Eg. clear Eg.
  destruct Hpassed as [Hshape Hframe Hcursor Horder Hsib Hfirst].
  set (gx := x (get (store c) p) + horizontalSpacing).
  set (startY := if isFirstGroup c
                 then Qmax (-500) (y (get (store c) p) - 100)
                 else Qmax (globalY c) (y (get (store c) p) - 200)).
  set (st' := placeSiblings g 0 gx startY ns (store c)).
  rewrite concat_app in Hnd. simpl in Hnd. rewrite app_nil_r in Hnd.
  assert (Hg_nd : NoDup g) by (eapply NoDup_app_remove_l, Hnd).
  assert (Hdisj : forall i, In i (List.concat done) -> ~ In i g).
  { intros i H1 H2. exact (@NoDup_app_disjoint _ _ _ i Hnd H1 H2). }
  assert (Hlen : List.length (store c) = List.length nodes) by apply Hshape.
  assert (Hlt' : forall j, In j g -> (j < List.length (store c))%nat).
  { intros j Hj. rewrite Hlen. auto. }
  assert (Hold : forall g' i, In g' done -> In i g' ->
                   get st' i = get (store c) i).
  { intros g' i Hg' Hi. apply placeSiblings_other.
    apply Hdisj. eapply in_concat_member; eassumption. }
  assert (Hnew : forall r i, nth_error g r = Some i ->
                   y (get st' i) = startY + ofCount r * ns).
  { intros r i Hr.
    apply (placeSiblings_member gx startY ns 0 (store c) r Hg_nd Hlt' Hr). }
  constructor; cbn [store globalY isFirstGroup].
  - eapply sameShape_trans; [apply placeSiblings_shape | exact Hshape].
  - intros j Hj. rewrite concat_app in Hj. simpl in Hj. rewrite app_nil_r in Hj.
    fold st'. unfold st'. rewrite placeSiblings_other.
    + apply Hframe. intros H. apply Hj, in_or_app. now left.
    + intros H. apply Hj, in_or_app. now right.
  - intros g' i Hg' Hp Hi. apply in_app_or in Hg'.
    destruct Hg' as [Hg' | [<- | []]].
    + fold st'. rewrite (Hold g' i Hg' Hi).
      eapply Qle_trans; [apply (Hcursor g' i Hg' Hp Hi) | apply Q.le_max_l].
    + destruct (member_position _ _ Hi) as [r [Hr Hrle]].
      fold st'. rewrite (Hnew r i Hr).
      eapply Qle_trans; [| apply Q.le_max_r].
      pose proof (ofCount_le Hrle) as Hc.
      assert (ofCount r * ns <= ofCount (List.length g - 1) * ns).
      { apply Qmult_le_compat_r; [exact Hc | lra]. }
      lra.
  - intros a b ga gb i j Hab Ha Hb Hpa Hpb Hi Hj. fold st'.
    destruct (Nat.lt_ge_cases b (List.length done)) as [Hblt | Hbge].
    + rewrite nth_error_app1 in Ha, Hb by lia.
      rewrite (Hold ga i (nth_error_In _ _ Ha) Hi).
      rewrite (Hold gb j (nth_error_In _ _ Hb) Hj). eauto.
    + rewrite nth_error_app2 in Hb by exact Hbge.
      destruct (b - List.length done)%nat as [| k] eqn:Ek; simpl in Hb;
        [| now destruct k].
      injection Hb as <-.
      rewrite nth_error_app1 in Ha by lia.
      pose proof (nth_error_In _ _ Ha) as Hga.
      rewrite (Hold ga i Hga Hi).
      destruct (member_position _ _ Hj) as [r [Hr _]].
      rewrite (Hnew r j Hr).
      assert (Hnotfirst : isFirstGroup c = false).
      { destruct (isFirstGroup c) eqn:E; [| reflexivity].
        exfalso. exact (Hfirst eq_refl ga Hga Hpa). }
      assert (Hstart : globalY c <= startY).
      { unfold startY. rewrite Hnotfirst. apply Q.le_max_l. }
      pose proof (Hcursor ga i Hga Hpa Hi) as Hi'.
      pose proof (ofCount_nonneg r) as Hr0.
      assert (0 <= ofCount r * ns) by (apply Qmult_le_0_compat; lra).
      lra.
  - intros g' Hg' Hp. apply in_app_or in Hg'.
    destruct Hg' as [Hg' | [<- | []]].
    + destruct (Hsib g' Hg' Hp) as [s Hs]. exists s. intros r i Hr.
      fold st'. rewrite (Hold g' i Hg' (nth_error_In _ _ Hr)). auto.
    + exists startY. intros r i Hr. fold st'. rewrite (Hnew r i Hr).
      reflexivity.
  - discriminate.
Qed.

Lemma passed_all (todo done : list (list nat)) (c : Cursor) :
  passed done c ->
  NoDup (List.concat (done ++ todo)) ->
  (forall g i, In g todo -> In i g -> (i < List.length nodes)%nat) ->
  passed (done ++ todo) (fold_left (placeGroup ns gs) todo c).
Proof.
  revert done c. induction todo as [| g todo IH]; intros done c Hp Hnd Hlt.
  - now rewrite app_nil_r.
  - simpl. replace (done ++ g :: todo) with ((done ++ [g]) ++ todo)
      by (now rewrite <- app_assoc).
    apply IH.
    + apply passed_place; [exact Hp | |].
      * replace (done ++ g :: todo) with ((done ++ [g]) ++ todo) in Hnd
          by (now rewrite <- app_assoc).
        rewrite concat_app in Hnd. eapply NoDup_app_remove_r, Hnd.
      * intros i Hi. apply (Hlt g i); [now left | exact Hi].
    + now rewrite <- app_assoc.
    + intros g' i Hg' Hi. apply (Hlt g' i); [now right | exact Hi].
Qed.

End GroupPass.

Section Groups.

Import LayoutEngine.

Lemma pushTo_members (key : string) (i : nat) (groups : list (string * list nat)) :
  Permutation (List.concat (map snd (pushTo key i groups)))
              (i :: List.concat (map snd groups)).
Proof.
  induction groups as [| [k members] rest IH]; simpl; [reflexivity |].
  destruct (String.eqb k key); simpl.
  - rewrite <- app_assoc. simpl.
    rewrite (Permutation_app_comm members (i :: List.concat (map snd rest))).
    simpl. apply perm_skip. apply Permutation_app_comm.
  - rewrite IH. symmetry. apply Permutation_middle.
Qed.

Lemma groups_members (key : nat -> string) (idxs : list nat)
    (groups : list (string * list nat)) :
  Permutation
    (List.concat (map snd (fold_left (fun gs i => pushTo (key i) i gs) idxs groups)))
    (List.concat (map snd groups) ++ idxs).
Proof.
  revert groups. induction idxs as [| i idxs IH]; intros groups; simpl.
  - now rewrite app_nil_r.
  - rewrite IH, pushTo_members. simpl. apply Permutation_middle.
Qed.

(** The sibling groups of a level partition the nodes of that level. *)
Lemma siblingGroups_members (nodes : list NodeInfo) (level : Z) :
  Permutation (List.concat (siblingGroups nodes level)) (levelNodes nodes level).
Proof. unfold siblingGroups. apply (groups_members _ _ []). Qed.

Lemma levelNodes_NoDup (nodes : list NodeInfo) (level : Z) :
  NoDup (levelNodes nodes level).
Proof. apply NoDup_filter, seq_NoDup. Qed.

Lemma in_levelNodes (nodes : list NodeInfo) (level : Z) (i : nat) :
  In i (levelNodes nodes level) <->
  i < List.length nodes /\ nlevel (get nodes i) = level.
Proof.
  unfold levelNodes. rewrite filter_In, in_seq, Z.eqb_eq. intuition lia.
Qed.

Lemma siblingGroups_NoDup (nodes : list NodeInfo) (level : Z) :
  NoDup (List.concat (siblingGroups nodes level)).
Proof.
  eapply Permutation_NoDup; [symmetry; apply siblingGroups_members |].
  apply levelNodes_NoDup.
Qed.

Lemma in_siblingGroups (nodes : list NodeInfo) (level : Z) (g : list nat)
    (i : nat) :
  In g (siblingGroups nodes level) -> In i g ->
  i < List.length nodes /\ nlevel (get nodes i) = level.
Proof.
  intros Hg Hi. apply in_levelNodes.
  eapply Permutation_in; [apply siblingGroups_members |].
  apply in_concat. eauto.
Qed.

Lemma in_insertLevel (l x : Z) (ls : list Z) :
  In x (insertLevel l ls) <-> x = l \/ In x ls.
Proof.
  induction ls as [| k ls IH]; simpl; [intuition |].
  destruct (Z.ltb_spec l k); simpl; [intuition |].
  destruct (Z.eqb_spec l k); simpl; [subst; intuition |].
  rewrite IH. intuition.
Qed.

Lemma in_levelsOf_fold (nodes : list NodeInfo) (acc : list Z) (x : Z) :
  In x (fold_left (fun acc n => insertLevel (nlevel n) acc) nodes acc) <->
  In x acc \/ exists n, In n nodes /\ nlevel n = x.
Proof.
  revert acc. induction nodes as [| n nodes IH]; intros acc; simpl.
  - split; [auto | intros [H | [n [[] _]]]; exact H].
  - rewrite IH, in_insertLevel. split.
    + intros [[-> | H] | [n' [H1 H2]]]; eauto.
    + intros [H | [n' [[<- | H1] H2]]]; eauto.
Qed.

Lemma in_levelsOf (nodes : list NodeInfo) (i : nat) :
  i < List.length nodes -> In (nlevel (get nodes i)) (levelsOf nodes).
Proof.
  intros H. apply in_levelsOf_fold. right. exists (get nodes i).
  split; [apply nth_In, H | reflexivity].
Qed.

End Groups.

Section LevelPass.

Import LayoutEngine.

Local Open Scope Q_scope.

Variable nodes : list NodeInfo.

Local Notation "'ns'" := (nodeSpacing nodes).
Local Notation "'gs'" := (groupSpacing nodes).

(** The layout of one level in a store: inside every placed group the
    siblings sit [ns] apart from a common start, and every member of a
    placed group lies at least [gs] above every member of a later one. *)
Definition laidOut (level : Z) (st : list NodeInfo) : Prop :=
  (forall g, In g (siblingGroups nodes level) -> placed nodes g ->
     exists startY, forall r i, nth_error g r = Some i ->
       y (get st i) == startY + ofCount r * ns)
  /\ (forall a b ga gb i j,
        (a < b)%nat ->
        nth_error (siblingGroups nodes level) a = Some ga ->
        nth_error (siblingGroups nodes level) b = Some gb ->
        placed nodes ga -> placed nodes gb -> In i ga -> In j gb ->
        y (get st i) + gs <= y (get st j)).

Lemma placeLevel_passed (st : list NodeInfo) (level : Z) :
  level <> (-1)%Z -> sameShape st nodes ->
  exists c,
    placeLevel nodes ns gs st level = store c
    /\ passed nodes ns gs st (siblingGroups nodes level) c.
Proof.
  intros Hl Hshape. unfold placeLevel.
  destruct (Z.eqb_spec level (-1)) as [-> | _]; [contradiction |].
  eexists. split; [reflexivity |].
  apply (@passed_all nodes ns gs (nodeSpacing_pos nodes) st
           (siblingGroups nodes level) []).
  - apply passed_start, Hshape.
  - apply siblingGroups_NoDup.
  - intros g i Hg Hi. eapply in_siblingGroups; eassumption.
Qed.

Lemma placeLevel_shape (st : list NodeInfo) (level : Z) :
  sameShape st nodes -> sameShape (placeLevel nodes ns gs st level) nodes.
Proof.
  intros Hshape. destruct (Z.eq_dec level (-1)) as [-> | Hl].
  - exact Hshape.
  - destruct (placeLevel_passed Hl Hshape) as [c [-> Hc]]. apply Hc.
Qed.

(** A level's pass writes only to the nodes of that level. *)
Lemma placeLevel_frame (st : list NodeInfo) (level : Z) (j : nat) :
  sameShape st nodes -> ~ In j (levelNodes nodes level) ->
  get (placeLevel nodes ns gs st level) j = get st j.
Proof.
  intros Hshape Hj. destruct (Z.eq_dec level (-1)) as [-> | Hl].
  - reflexivity.
  - destruct (placeLevel_passed Hl Hshape) as [c [-> Hc]].
    apply (passed_frame Hc). intros H. apply Hj.
    eapply Permutation_in; [apply siblingGroups_members | exact H].
Qed.

Lemma placeLevel_laidOut (st : list NodeInfo) (level : Z) :
  level <> (-1)%Z -> sameShape st nodes ->
  laidOut level (placeLevel nodes ns gs st level).
Proof.
  intros Hl Hshape. destruct (placeLevel_passed Hl Hshape) as [c [-> Hc]].
  split.
  - apply (passed_siblings Hc).
  - apply (passed_order Hc).
Qed.

Lemma laidOut_frame (level : Z) (st st' : list NodeInfo) :
  (forall j, In j (levelNodes nodes level) -> get st' j = get st j) ->
  laidOut level st -> laidOut level st'.
Proof.
  intros Hsame [Hsib Hord].
  assert (Hmem : forall g i, In g (siblingGroups nodes level) -> In i g ->
                   get st' i = get st i).
  { intros g i Hg Hi. apply Hsame, in_levelNodes.
    eapply in_siblingGroups; eassumption. }
  split.
  - intros g Hg Hp. destruct (Hsib g Hg Hp) as [s Hs]. exists s.
    intros r i Hr. rewrite (Hmem g i Hg (nth_error_In _ _ Hr)). auto.
  - intros a b ga gb i j Hab Ha Hb Hpa Hpb Hi Hj.
    rewrite (Hmem ga i (nth_error_In _ _ Ha) Hi).
    rewrite (Hmem gb j (nth_error_In _ _ Hb) Hj). eauto.
Qed.

Lemma laidOut_fold (level : Z) (levels : list Z) (st : list NodeInfo) :
  level <> (-1)%Z -> sameShape st nodes ->
  In level levels \/ laidOut level st ->
  laidOut level (fold_left (placeLevel nodes ns gs) levels st).
Proof.
  intros Hl. revert st. induction levels as [| l levels IH]; intros st Hshape H.
  - destruct H as [[] | H]. exact H.
  - simpl. apply IH; [apply placeLevel_shape, Hshape |].
    destruct (Z.eq_dec l level) as [-> | Hne].
    + right. apply placeLevel_laidOut; assumption.
    + destruct H as [[H | H] | H]; [contradiction | now left |].
      right. eapply laidOut_frame; [| exact H].
      intros j Hj. apply placeLevel_frame; [exact Hshape |].
      intros Hj'. apply in_levelNodes in Hj, Hj'. destruct Hj, Hj'. congruence.
Qed.

Lemma positionRoot_shape : sameShape (positionRoot nodes) nodes.
Proof.
  unfold positionRoot. destruct (findRoot nodes 0).
  - apply sameShape_update.
  - apply sameShape_refl.
Qed.

(** The finished layout is laid out at every level other than -1. *)
Lemma calculatePositions_laidOut (level : Z) :
  level <> (-1)%Z -> laidOut level (calculatePositions nodes).
Proof.
  intros Hl. unfold calculatePositions.
  apply laidOut_fold; [exact Hl | apply positionRoot_shape |].
  destruct (in_dec Z.eq_dec level (levelsOf nodes)) as [H | H]; [now left |].
  right.
  assert (Hnone : levelNodes nodes level = []).
  { destruct (levelNodes nodes level) as [| i l] eqn:E; [reflexivity |].
    exfalso. assert (Hi : In i (levelNodes nodes level)) by (rewrite E; now left).
    apply in_levelNodes in Hi. destruct Hi as [Hi <-].
    apply H, in_levelsOf, Hi. }
  unfold laidOut, siblingGroups. rewrite Hnone. simpl.
  split; [intros g [] |]. intros a b ga gb i j _ Ha. now destruct a.
Qed.

End LevelPass.

Section VisibleNodes.

Import TreeModel LayoutEngine.

Variable expanded : list string.

Definition hasParent (n : NodeInfo) : Prop := parent n <> None.

(** [getVisibleNodes] appends the node's own entry, which refers to the
    given parent, and then entries that all refer to a parent. *)
Lemma getVisibleNodes_spec (node : TreeNode) :
  forall (result : list NodeInfo) (parentRef : option nat),
  exists info news,
    getVisibleNodes expanded node result parentRef = result ++ info :: news
    /\ parent info = parentRef
    /\ nlevel info = TreeModel.level node
    /\ Forall hasParent news.
Proof.
  induction node as [i n v l ty ix bf pf ri cs IH] using tree_induction.
  intros result parentRef. cbn [getVisibleNodes TreeModel.level].
  set (info := mkInfo i n v ty l (nonEmpty cs) (has expanded i) parentRef 0 0).
  assert (Heach : forall (self : nat) (kids : list TreeNode) (acc : list NodeInfo),
    Forall (fun c => forall result parentRef,
              exists info news,
                getVisibleNodes expanded c result parentRef
                = result ++ info :: news
                /\ parent info = parentRef
                /\ nlevel info = TreeModel.level c
                /\ Forall hasParent news) kids ->
    exists news,
      (fix each (l : list TreeNode) (acc : list NodeInfo) : list NodeInfo :=
         match l with
         | [] => acc
         | child :: l' =>
             each l' (getVisibleNodes expanded child acc (Some self))
         end) kids acc = acc ++ news
      /\ Forall hasParent news).
  { intros self kids. induction kids as [| c kids IHk]; intros acc Hk.
    - exists []. split; [now rewrite app_nil_r | constructor].
    - apply Forall_cons_iff in Hk. destruct Hk as [Hc Hk].
      destruct (Hc acc (Some self)) as [ci [cn [Heq [Hp [_ Hn]]]]].
      rewrite Heq. destruct (IHk (acc ++ ci :: cn) Hk) as [news [Heq' Hn']].
      rewrite Heq'. exists ((ci :: cn) ++ news). split.
      + now rewrite <- app_assoc.
      + apply Forall_app. split; [| exact Hn'].
        constructor; [| exact Hn]. unfold hasParent. rewrite Hp. discriminate. }
  destruct (has expanded i && nonEmpty cs)%bool.
  - destruct (Heach (List.length result) cs (result ++ [info]) IH)
      as [news [Heq Hn]].
    exists info, news. rewrite Heq, <- app_assoc. simpl. auto.
  - exists info, []. repeat split. constructor.
Qed.

End VisibleNodes.

Section VisibleGroups.

Import TreeModel LayoutEngine.

Variable st : State.
Hypothesis Hroot : TreeModel.level (treeData st) = (-1)%Z.

Local Notation "'nodes'" := (visibleNodes st).

(** Every visible node at a level other than -1 refers to a parent. *)
Lemma visible_hasParent (i : nat) :
  i < List.length nodes -> nlevel (get nodes i) <> (-1)%Z ->
  parent (get nodes i) <> None.
Proof.
  unfold visibleNodes.
  destruct (getVisibleNodes_spec (expandedNodes st) (treeData st) [] None)
    as [info [news [Heq [_ [Hl Hn]]]]].
  rewrite Heq. simpl. unfold get. intros Hi Hlev. destruct i as [| i].
  - simpl in Hlev. congruence.
  - simpl in *. rewrite Forall_forall in Hn. apply Hn, nth_In. lia.
Qed.

Lemma pushTo_nonempty (key : string) (i : nat) (groups : list (string * list nat)) :
  Forall (fun g => snd g <> []) groups ->
  Forall (fun g => snd g <> []) (pushTo key i groups).
Proof.
  induction 1 as [| [k m] rest Hm Hrest IH]; simpl.
  - repeat constructor. discriminate.
  - destruct (String.eqb k key); constructor; auto.
    simpl. destruct m; discriminate.
Qed.

Lemma siblingGroups_nonempty (ns : list NodeInfo) (level : Z) (g : list nat) :
  In g (siblingGroups ns level) -> g <> [].
Proof.
  unfold siblingGroups. intros Hg. apply in_map_iff in Hg.
  destruct Hg as [[k m] [<- Hg]].
  assert (H : forall idxs groups,
            Forall (fun g => snd g <> []) groups ->
            Forall (fun g => snd g <> [])
              (fold_left (fun gs i => pushTo (parentId ns i) i gs) idxs groups)).
  { induction idxs as [| i idxs IH]; intros groups Hgs; [exact Hgs |].
    simpl. apply IH, pushTo_nonempty, Hgs. }
  specialize (H (levelNodes ns level) [] (Forall_nil _)).
  rewrite Forall_forall in H. exact (H _ Hg).
Qed.

(** For the visible nodes of a tree whose root sits at level -1, every
    sibling group of every other level is positioned. *)
Lemma visible_groups_placed (level : Z) (g : list nat) :
  level <> (-1)%Z -> In g (siblingGroups nodes level) -> placed nodes g.
Proof.
  intros Hl Hg. pose proof (siblingGroups_nonempty _ _ Hg) as Hne.
  destruct g as [| first rest]; [congruence |]. simpl.
  destruct (@in_siblingGroups nodes level (first :: rest) first Hg)
    as [Hlt Hlev]; [now left |].
  apply visible_hasParent; [exact Hlt | congruence].
Qed.

End VisibleGroups.

Section SameParent.

Import LayoutEngine.

Variable key : nat -> string.

Definition memberOf (groups : list (string * list nat)) (k : string) (i : nat)
    : Prop :=
  exists m, In (k, m) groups /\ In i m.

Lemma pushTo_new (k : string) (i : nat) (groups : list (string * list nat)) :
  memberOf (pushTo k i groups) k i.
Proof.
  induction groups as [| [k' m] rest IH]; simpl.
  - exists [i]. split; now left.
  - destruct (String.eqb_spec k' k) as [-> | Hne].
    + exists (m ++ [i]). split; [now left |]. apply in_or_app. right. now left.
    + destruct IH as [m' [H1 H2]]. exists m'. split; [now right | exact H2].
Qed.

Lemma pushTo_old (k k' : string) (i j : nat) (groups : list (string * list nat)) :
  memberOf groups k' j -> memberOf (pushTo k i groups) k' j.
Proof.
  induction groups as [| [k0 m0] rest IH]; intros [m [Hm Hj]];
    [contradiction |].
  simpl. destruct (String.eqb_spec k0 k) as [-> | Hne].
  - destruct Hm as [[= <- <-] | Hm].
    + exists (m0 ++ [i]). split; [now left | apply in_or_app; now left].
    + exists m. split; [now right | exact Hj].
  - destruct Hm as [[= <- <-] | Hm].
    + exists m0. split; [now left | exact Hj].
    + destruct IH as [m' [H1 H2]]; [exists m; auto |].
      exists m'. split; [now right | exact H2].
Qed.

Lemma pushTo_keys (k : string) (i : nat) (groups : list (string * list nat)) :
  NoDup (map fst groups) ->
  NoDup (map fst (pushTo k i groups))
  /\ forall x, In x (map fst (pushTo k i groups)) -> x = k \/ In x (map fst groups).
Proof.
  induction groups as [| [k' m] rest IH]; simpl; intros Hnd.
  - split; [repeat constructor; intros [] | intros x [<- | []]; now left].
  - apply NoDup_cons_iff in Hnd. destruct Hnd as [Hk Hnd].
    destruct (String.eqb_spec k' k) as [-> | Hne]; simpl.
    + split; [constructor; assumption | intros x Hx; now right].
    + destruct (IH Hnd) as [IH1 IH2]. split.
      * constructor; [| exact IH1]. intros Hin.
        destruct (IH2 _ Hin) as [-> | H]; [congruence | contradiction].
      * intros x [<- | Hx]; [right; now left |].
        destruct (IH2 _ Hx) as [-> | H]; [now left | right; now right].
Qed.

Lemma grouping_members (idxs : list nat) (groups : list (string * list nat)) :
  NoDup (map fst groups) ->
  let final := fold_left (fun gs i => pushTo (key i) i gs) idxs groups in
  NoDup (map fst final)
  /\ (forall k j, memberOf groups k j -> memberOf final k j)
  /\ (forall i, In i idxs -> memberOf final (key i) i).
Proof.
  revert groups. induction idxs as [| a idxs IH]; intros groups Hnd; simpl.
  - repeat split; auto. contradiction.
  - destruct (@pushTo_keys (key a) a groups Hnd) as [Hnd' _].
    destruct (IH _ Hnd') as [H1 [H2 H3]]. repeat split.
    + exact H1.
    + intros k j Hm. apply H2, pushTo_old, Hm.
    + intros i [<- | Hi]; [apply H2, pushTo_new | apply H3, Hi].
Qed.

Lemma same_key_same_members (groups : list (string * list nat)) (k : string)
    (m m' : list nat) :
  NoDup (map fst groups) -> In (k, m) groups -> In (k, m') groups -> m = m'.
Proof.
  induction groups as [| [k0 m0] rest IH]; simpl; [contradiction |].
  intros Hnd H1 H2. apply NoDup_cons_iff in Hnd. destruct Hnd as [Hk Hnd].
  destruct H1 as [E1 | H1], H2 as [E2 | H2]; auto.
  - congruence.
  - injection E1 as -> ->. exfalso. apply Hk, in_map_iff.
    exists (k, m'). auto.
  - injection E2 as -> ->. exfalso. apply Hk, in_map_iff.
    exists (k, m). auto.
Qed.

End SameParent.

(** Two nodes of a level with the same parent id are in the same sibling
    group. *)
Lemma same_parent_same_group (nodes : list LayoutEngine.NodeInfo) (level : Z)
    (i j : nat) :
  In i (LayoutEngine.levelNodes nodes level) ->
  In j (LayoutEngine.levelNodes nodes level) ->
  LayoutEngine.parentId nodes i = LayoutEngine.parentId nodes j ->
  exists g, In g (LayoutEngine.siblingGroups nodes level) /\ In i g /\ In j g.
Proof.
  intros Hi Hj Hkey. unfold LayoutEngine.siblingGroups.
  destruct (@grouping_members (LayoutEngine.parentId nodes)
              (LayoutEngine.levelNodes nodes level) [] (NoDup_nil _))
    as [Hnd [_ Hmem]].
  destruct (Hmem i Hi) as [m [Hm Him]]. destruct (Hmem j Hj) as [m' [Hm' Hjm]].
  rewrite <- Hkey in Hm'.
  rewrite (@same_key_same_members _ _ _ _ Hnd Hm' Hm) in Hjm.
  exists m. split; [| auto]. apply in_map_iff.
  exists (LayoutEngine.parentId nodes i, m). auto.
Qed.

Section LayoutTheorem.

Import TreeModel LayoutEngine.

Local Open Scope Q_scope.

Lemma ofCount_lt (a b : nat) : (a < b)%nat -> ofCount a < ofCount b.
Proof. intros H. unfold ofCount. rewrite <- Zlt_Qlt. lia. Qed.

Lemma offsets_differ (s ns : Q) (r r' : nat) :
  0 < ns -> r <> r' -> ~ s + ofCount r * ns == s + ofCount r' * ns.
Proof.
  intros Hns Hne Heq.
  assert (Hlt : forall a b, (a < b)%nat ->
                  ~ s + ofCount a * ns == s + ofCount b * ns).
  { intros a b Hab H. pose proof (ofCount_lt Hab) as Hc.
    assert (ofCount a * ns < ofCount b * ns)
      by (apply Qmult_lt_compat_r; assumption).
    lra. }
  destruct (Nat.lt_total r r') as [H | [H | H]].
  - exact (Hlt _ _ H Heq).
  - contradiction.
  - apply (Hlt _ _ H). symmetry. exact Heq.
Qed.

(** C9.  For the visible nodes of any tree whose root sits at level -1,
    under any set of expanded ids, and for every other level: the spacings
    are positive; every node of the level belongs to a sibling group; two
    different nodes of the level under the same parent get different [y],
    consecutive siblings being exactly [nodeSpacing] apart; and every node
    of a sibling group lies at least [groupSpacing] above every node of a
    group placed later at that level, so the envelopes of different groups
    do not overlap.  Coordinates are exact rationals. *)
Theorem C9_layout_no_overlap (st : State) (level : Z) :
  TreeModel.level (treeData st) = (-1)%Z ->
  level <> (-1)%Z ->
  noOverlap (visibleNodes st) level.
Proof.
  intros Hroot Hl. set (nodes := visibleNodes st).
  pose proof (nodeSpacing_pos nodes) as Hns.
  pose proof (groupSpacing_pos nodes) as Hgs.
  destruct (calculatePositions_laidOut nodes Hl) as [Hsib Hord].
  assert (Hplaced : forall g, In g (siblingGroups nodes level) ->
                      placed nodes g).
  { intros g Hg. apply (@visible_groups_placed st Hroot level g Hl Hg). }
  assert (Hcover : forall i, (i < List.length nodes)%nat ->
                     nlevel (get nodes i) = level ->
                     exists g, In g (siblingGroups nodes level) /\ In i g).
  { intros i Hi Hlev.
    assert (H : In i (List.concat (siblingGroups nodes level))).
    { eapply Permutation_in;
        [symmetry; apply siblingGroups_members | apply in_levelNodes; auto]. }
    apply in_concat in H. destruct H as [g [Hg Hig]]. eauto. }
  unfold noOverlap. fold nodes.
  split; [exact Hns |]. split; [exact Hgs |]. split; [exact Hcover |].
  split; [| split].
  - intros i j p Hne Hi Hj Hli Hlj Hpi Hpj.
    destruct (@same_parent_same_group nodes level i j) as [g [Hg [Hig Hjg]]].
    + apply in_levelNodes. auto.
    + apply in_levelNodes. auto.
    + unfold parentId. now rewrite Hpi, Hpj.
    + destruct (Hsib g Hg (Hplaced g Hg)) as [s Hs].
      apply In_nth_error in Hig, Hjg.
      destruct Hig as [r Hr], Hjg as [r' Hr'].
      unfold finalY. rewrite (Hs r i Hr), (Hs r' j Hr').
      apply offsets_differ; [exact Hns |]. intros ->. congruence.
  - intros g r i i' Hg Hr Hr'.
    destruct (Hsib g Hg (Hplaced g Hg)) as [s Hs].
    unfold finalY. rewrite (Hs r i Hr), (Hs (S r) i' Hr'), ofCount_succ.
    ring.
  - intros a b ga gb i j Hab Ha Hb Hi Hj.
    assert (H : finalY nodes i + groupSpacing nodes <= finalY nodes j).
    { apply (Hord a b ga gb i j Hab Ha Hb); auto;
        apply Hplaced; eapply nth_error_In; eassumption. }
    split; [exact H | lra].
Qed.

End LayoutTheorem.

(** C9 on the state [explored] (root and two of its children expanded), at
    level 1, where two sibling groups are placed. *)
Lemma C9_layout_no_overlap_witness :
  noOverlap (LayoutEngine.visibleNodes Examples.explored) 1.
Proof.
  apply (@C9_layout_no_overlap Examples.explored 1%Z).
  - vm_compute. reflexivity.
  - discriminate.
Defined.

(** ** Node ids *)

Section Ids.

Local Open Scope string_scope.

Lemma noDash_digits (d : Decimal.uint) : noDash (NilEmpty.string_of_uint d).
Proof. induction d; simpl; auto; split; auto; discriminate. Qed.

Lemma noDash_showNat (n : nat) : noDash (showNat n).
Proof. apply noDash_digits. Qed.

Lemma showNat_inj (n m : nat) : showNat n = showNat m -> n = m.
Proof.
  unfold showNat. intros H. apply Unsigned.to_uint_inj.
  assert (H' : Some (Nat.to_uint n) = Some (Nat.to_uint m)).
  { rewrite <- !NilEmpty.usu. now rewrite H. }
  now injection H'.
Qed.

Lemma showZ_of_nat (n : nat) : showZ (Z.of_nat n) = showNat n.
Proof.
  unfold showZ. destruct (Z.of_nat n) eqn:E; try lia;
    rewrite <- E, Nat2Z.id; reflexivity.
Qed.

(** A string without dashes is not of the form [x-y]. *)
Lemma noDash_not_split (a x y : string) :
  noDash a -> a <> x ++ String "-" y.
Proof.
  revert a. induction x as [| c x IH]; intros [| c' a] Ha H; simpl in *;
    try discriminate.
  - injection H as -> _. now destruct Ha.
  - injection H as _ H. destruct Ha as [_ Ha]. exact (IH a Ha H).
Qed.

(** Splitting at the first dash. *)
Lemma split_first (a b r r' : string) :
  noDash a -> noDash b ->
  a ++ String "-" r = b ++ String "-" r' -> a = b /\ r = r'.
Proof.
  revert b. induction a as [| c a IH]; intros [| c' b] Ha Hb H; simpl in *.
  - injection H as ->. auto.
  - injection H as <- _. now destruct Hb.
  - injection H as -> _. now destruct Ha.
  - injection H as -> H. destruct Ha as [_ Ha], Hb as [_ Hb].
    destruct (IH b Ha Hb H) as [-> ->]. auto.
Qed.

(** Splitting at the last dash. *)
Lemma split_last (x y a b : string) :
  noDash a -> noDash b ->
  x ++ String "-" a = y ++ String "-" b -> x = y /\ a = b.
Proof.
  revert y. induction x as [| c x IH]; intros [| c' y] Ha Hb H; simpl in *.
  - injection H as ->. auto.
  - injection H as _ H. exfalso. exact (noDash_not_split _ _ Ha H).
  - injection H as _ H. exfalso. symmetry in H.
    exact (noDash_not_split _ _ Hb H).
  - injection H as -> H. destruct (IH y Ha Hb H) as [-> ->]. auto.
Qed.

Lemma idOfPath_cons (i j : nat) (path : list nat) :
  idOfPath (i :: j :: path)
  = "h" ++ showNat (List.length (j :: path)) ++ "-" ++ idOfPath (j :: path)
      ++ "-" ++ showNat i.
Proof. reflexivity. Qed.

(** The id determines the path. *)
Lemma idOfPath_inj (p q : list nat) :
  p <> [] -> q <> [] -> idOfPath p = idOfPath q -> p = q.
Proof.
  revert q. induction p as [| i p IH]; intros q Hp Hq H; [congruence |].
  destruct q as [| j q]; [congruence |].
  destruct p as [| i' p], q as [| j' q].
  - simpl in H. injection H as H. apply showNat_inj in H. now subst.
  - rewrite idOfPath_cons in H. simpl idOfPath at 1 in H.
    simpl append in H. injection H as H.
    change (String "0" (String "-" (showNat i)))
      with (showNat 0 ++ String "-" (showNat i)) in H.
    apply split_first in H; try apply noDash_showNat.
    destruct H as [H _]. apply showNat_inj in H. discriminate.
  - rewrite idOfPath_cons in H. simpl idOfPath at 2 in H.
    simpl append in H. injection H as H.
    change (String "0" (String "-" (showNat j)))
      with (showNat 0 ++ String "-" (showNat j)) in H.
    apply split_first in H; try apply noDash_showNat.
    destruct H as [H _]. apply showNat_inj in H. discriminate.
  - rewrite !idOfPath_cons in H. simpl append in H. injection H as H.
    apply split_first in H; try apply noDash_showNat.
    destruct H as [_ H].
    apply split_last in H; try apply noDash_showNat.
    destruct H as [H1 H2]. apply showNat_inj in H2. subst j.
    f_equal. apply IH; [discriminate | discriminate | exact H1].
Qed.

Lemma idOfPath_empty (p : list nat) : idOfPath p = "" -> p = [].
Proof.
  destruct p as [| i [| j p]]; [reflexivity | discriminate |].
  rewrite idOfPath_cons. discriminate.
Qed.

Lemma idOfPath_not_root (p : list nat) : idOfPath p <> "root".
Proof.
  destruct p as [| i [| j p]]; [discriminate | discriminate |].
  rewrite idOfPath_cons. discriminate.
Qed.

End Ids.

Section WellFormedIds.

Import TreeModel.

Lemma wellFormedAt_unfold (path : list nat) (n : TreeNode) :
  wellFormedAt path n
  <-> (id n = idOfPath path
       /\ TreeModel.level n = (Z.of_nat (List.length path) - 1)%Z
       /\ nodeType n = frequency
       /\ wellFormedKids path 0 (children n)).
Proof.
  destruct n as [i n v l ty ix bf pf ri cs]. simpl.
  assert (H : forall k kids,
    (fix kids (k : nat) (cs : list TreeNode) : Prop :=
       match cs with
       | [] => True
       | c :: cs' => wellFormedAt (k :: path) c /\ kids (S k) cs'
       end) k kids <-> wellFormedKids path k kids).
  { intros k kids. revert k. induction kids as [| c kids IH]; intros k; simpl;
      [tauto |]. rewrite IH. tauto. }
  rewrite H. tauto.
Qed.

Lemma tail_last_eq {A : Type} (l1 l2 t : list A) (a b : A) :
  l1 ++ a :: t = l2 ++ b :: t -> a = b.
Proof.
  intros H.
  change (l1 ++ a :: t) with (l1 ++ [a] ++ t) in H.
  change (l2 ++ b :: t) with (l2 ++ [b] ++ t) in H.
  rewrite !app_assoc in H. apply app_inv_tail in H.
  apply app_inj_tail in H. tauto.
Qed.

(** The ids below a well-formed node are the ids of longer paths. *)
Definition below (path : list nat) (k : nat) (x : string) : Prop :=
  exists q j, k <= j /\ x = idOfPath (q ++ j :: path).

Lemma wellFormed_ids (n : TreeNode) :
  forall path,
    wellFormedAt path n ->
    NoDup (ids n)
    /\ forall x, In x (ids n) -> exists q, x = idOfPath (q ++ path).
Proof.
  induction n as [i n v l ty ix bf pf ri cs IH] using tree_induction.
  intros path Hwf. apply wellFormedAt_unfold in Hwf. cbn [id children] in Hwf.
  destruct Hwf as [Hid [_ [_ Hkids]]].
  assert (Hk : forall k kids,
    Forall (fun c => forall path, wellFormedAt path c ->
              NoDup (ids c)
              /\ forall x, In x (ids c) -> exists q, x = idOfPath (q ++ path))
           kids ->
    wellFormedKids path k kids ->
    NoDup (flat_map ids kids)
    /\ forall x, In x (flat_map ids kids) -> below path k x).
  { intros k kids Hall. revert k.
    induction Hall as [| c kids Hc _ IHk]; intros k Hw; simpl.
    - split; [constructor | contradiction].
    - destruct Hw as [Hwc Hwk]. destruct (Hc _ Hwc) as [Hnd Hin].
      destruct (IHk _ Hwk) as [Hnd' Hin']. split.
      + apply NoDup_app; [exact Hnd | exact Hnd' |].
        intros x Hx Hx'. destruct (Hin x Hx) as [q ->].
        destruct (Hin' _ Hx') as [q' [j [Hj Heq]]].
        assert (Hpq : q ++ k :: path = q' ++ j :: path).
        { apply idOfPath_inj;
            [destruct q; discriminate | destruct q'; discriminate | exact Heq]. }
        apply tail_last_eq in Hpq. lia.
      + intros x Hx. apply in_app_or in Hx. destruct Hx as [Hx | Hx].
        * destruct (Hin x Hx) as [q ->]. exists q, k. split; [lia | reflexivity].
        * destruct (Hin' x Hx) as [q [j [Hj ->]]]. exists q, j.
          split; [lia | reflexivity]. }
  destruct (Hk 0 cs IH Hkids) as [Hnd Hin]. cbn [ids]. split.
  - constructor; [| exact Hnd]. intros Hi.
    destruct (Hin _ Hi) as [q [j [_ Heq]]]. rewrite Hid in Heq.
    destruct path as [| p0 path].
    + symmetry in Heq. apply idOfPath_empty in Heq. destruct q; discriminate.
    + assert (Hpq : p0 :: path = q ++ j :: p0 :: path).
      { apply idOfPath_inj;
          [discriminate | destruct q; discriminate | exact Heq]. }
      apply (f_equal (@List.length nat)) in Hpq.
      rewrite length_app in Hpq. simpl in Hpq. lia.
  - intros x [<- | Hx].
    + exists []. exact Hid.
    + destruct (Hin x Hx) as [q [j [_ ->]]]. exists (q ++ [j]).
      now rewrite <- app_assoc.
Qed.

Lemma wellFormedKids_ids (kids : list TreeNode) (k : nat) :
  wellFormedKids [] k kids ->
  NoDup (flat_map ids kids)
  /\ forall x, In x (flat_map ids kids) -> below [] k x.
Proof.
  revert k. induction kids as [| c kids IH]; intros k Hw; simpl.
  - split; [constructor | contradiction].
  - destruct Hw as [Hwc Hwk]. destruct (wellFormed_ids c _ Hwc) as [Hnd Hin].
    destruct (IH _ Hwk) as [Hnd' Hin']. split.
    + apply NoDup_app; [exact Hnd | exact Hnd' |].
      intros x Hx Hx'. destruct (Hin x Hx) as [q ->].
      destruct (Hin' _ Hx') as [q' [j [Hj Heq]]].
      assert (Hpq : q ++ [k] = q' ++ [j]).
      { apply idOfPath_inj;
          [destruct q; discriminate | destruct q'; discriminate | exact Heq]. }
      apply app_inj_tail in Hpq. lia.
    + intros x Hx. apply in_app_or in Hx. destruct Hx as [Hx | Hx].
      * destruct (Hin x Hx) as [q ->]. exists q, k. split; [lia | reflexivity].
      * destruct (Hin' x Hx) as [q [j [Hj ->]]]. exists q, j.
        split; [lia | reflexivity].
Qed.

(** In a well-formed tree no two nodes share an id. *)
Lemma wellFormed_unique_ids (t : TreeNode) :
  wellFormed t -> NoDup (ids t).
Proof.
  intros [Hid [_ [_ Hkids]]]. destruct t as [i n v l ty ix bf pf ri cs].
  cbn [id children] in *. subst i. cbn [ids].
  destruct (wellFormedKids_ids cs 0 Hkids) as [Hnd Hin].
  constructor; [| exact Hnd]. intros Hr.
  destruct (Hin _ Hr) as [q [j [_ Heq]]]. symmetry in Heq.
  exact (idOfPath_not_root _ Heq).
Qed.

End WellFormedIds.

Section WellFormedPreserved.

Import TreeModel.

Variable toFixed : float -> nat -> string.
Variables (theBaseFreq : float) (nHarmonics : nat) (mode : string)
          (maxLevel : nat) (customRatios : option (list float)).

Local Notation "'search'" :=
  (findAndUpdateNode toFixed theBaseFreq nHarmonics mode maxLevel customRatios).
Local Notation "'generated'" :=
  (generateChildrenForNode toFixed theBaseFreq nHarmonics mode maxLevel
     customRatios).

Lemma wellFormedKids_app (path : list nat) (k : nat) (pre post : list TreeNode)
    (c : TreeNode) :
  wellFormedKids path k (pre ++ c :: post)
  <-> wellFormedKids path k pre
      /\ wellFormedAt ((k + List.length pre) :: path) c
      /\ wellFormedKids path (S (k + List.length pre)) post.
Proof.
  revert k. induction pre as [| p pre IH]; intros k; simpl.
  - rewrite Nat.add_0_r. tauto.
  - rewrite IH. replace (S k + List.length pre) with (k + S (List.length pre))
      by lia. tauto.
Qed.

Lemma jsonCopy_wellFormedAt (n : TreeNode) :
  forall path, wellFormedAt path n -> wellFormedAt path (jsonCopy n).
Proof.
  induction n as [i n v l ty ix bf pf ri cs IH] using tree_induction.
  intros path Hwf. apply wellFormedAt_unfold in Hwf.
  apply wellFormedAt_unfold. cbn in Hwf |- *.
  destruct Hwf as [H1 [H2 [H3 H4]]]. repeat split; auto.
  clear H1 H2 H3. revert H4. generalize 0.
  induction IH as [| c cs Hc _ IHcs]; intros k; simpl; [auto |].
  intros [Hwc Hwk]. split; [apply Hc, Hwc | apply IHcs, Hwk].
Qed.

Lemma jsonCopy_wellFormed (t : TreeNode) :
  wellFormed t -> wellFormed (jsonCopy t).
Proof.
  destruct t as [i n v l ty ix bf pf ri cs]. unfold wellFormed. cbn.
  intros [H1 [H2 [H3 H4]]]. repeat split; auto.
  clear H1 H2 H3. revert H4. generalize 0.
  induction cs as [| c cs IH]; intros k; simpl; [auto |].
  intros [Hwc Hwk]. split; [apply jsonCopy_wellFormedAt, Hwc | apply IH, Hwk].
Qed.

Lemma frequencyChild_wellFormed (n : TreeNode) (path : list nat)
    (freqs : list float) (k : nat) :
  path <> [] -> id n = idOfPath path ->
  wellFormedKids path k
    (mapIndexed (frequencyChild toFixed n (Z.of_nat (List.length path))) k freqs).
Proof.
  intros Hpath Hid. revert k.
  induction freqs as [| f freqs IH]; intros k;
    cbn [mapIndexed wellFormedKids]; [exact I |].
  split; [| apply IH]. apply wellFormedAt_unfold.
  unfold frequencyChild. cbn [id level nodeType children wellFormedKids].
  repeat split.
  - rewrite Hid, showZ_of_nat. destruct path as [| p0 path]; [congruence |].
    reflexivity.
  - cbn [List.length]. lia.
Qed.

Lemma rootChild_wellFormed (freqs : list float) (k : nat) :
  wellFormedKids [] k (mapIndexed (rootChild toFixed theBaseFreq) k freqs).
Proof.
  revert k. induction freqs as [| f freqs IH]; intros k;
    cbn [mapIndexed wellFormedKids]; [exact I |].
  split; [| apply IH]. apply wellFormedAt_unfold.
  unfold rootChild. cbn [id level nodeType children wellFormedKids].
  repeat split.
Qed.

Lemma generated_wellFormedAt (n : TreeNode) (path : list nat)
    (cs : list TreeNode) :
  path <> [] -> wellFormedAt path n -> generated n = Ok cs ->
  wellFormedKids path 0 cs.
Proof.
  intros Hpath Hwf. apply wellFormedAt_unfold in Hwf.
  destruct Hwf as [Hid [Hlevel [Hty _]]].
  unfold generateChildrenForNode. rewrite Hty, Hlevel.
  replace (Z.of_nat (List.length path) - 1 + 1)%Z
    with (Z.of_nat (List.length path)) by lia.
  destruct (Z.of_nat maxLevel <? Z.of_nat (List.length path))%Z.
  - intros [= <-]. exact I.
  - destruct (generateBaseFrequencies _ _ _ _) as [freqs | msg]; simpl;
      [| discriminate].
    intros [= <-]. apply frequencyChild_wellFormed; assumption.
Qed.

Lemma generated_wellFormedRoot (t : TreeNode) (cs : list TreeNode) :
  nodeType t = root -> generated t = Ok cs -> wellFormedKids [] 0 cs.
Proof.
  intros Hty. unfold generateChildrenForNode. rewrite Hty.
  destruct (generateBaseFrequencies _ _ _ _) as [freqs | msg]; simpl;
    [| discriminate].
  intros [= <-]. apply rootChild_wellFormed.
Qed.

Lemma setChildren_wellFormedAt (n : TreeNode) (path : list nat)
    (cs : list TreeNode) :
  wellFormedAt path n -> wellFormedKids path 0 cs ->
  wellFormedAt path (setChildren n cs).
Proof.
  rewrite !wellFormedAt_unfold. destruct n. cbn. tauto.
Qed.

(** A search keeps a well-formed subtree well-formed. *)
Lemma search_wellFormedAt (n : TreeNode) (targetId : string) :
  forall path n',
    path <> [] -> wellFormedAt path n ->
    search n targetId = Ok (Some n') -> wellFormedAt path n'.
Proof.
  induction n as [i nm v l ty ix bf pf ri cs IH] using tree_induction.
  intros path n' Hpath Hwf. rewrite search_unfold. cbn [id children].
  destruct (String.eqb i targetId).
  - destruct cs as [| c cs]; [| discriminate].
    destruct (generated (mkNode i nm v l ty ix bf pf ri [])) as [[| c1 cs1] | msg]
      eqn:Hg; simpl; try discriminate.
    intros [= <-]. apply setChildren_wellFormedAt; [exact Hwf |].
    eapply generated_wellFormedAt; eassumption.
  - destruct (updateFirst (fun c => search c targetId) cs) as [[r |] | msg]
      eqn:Hu; simpl; try discriminate.
    intros [= <-]. apply updateFirst_Some_inv in Hu.
    destruct Hu as [pre [c [c' [post [-> [-> [Hc _]]]]]]].
    apply setChildren_wellFormedAt; [exact Hwf |].
    apply wellFormedAt_unfold in Hwf. cbn [children] in Hwf.
    destruct Hwf as [_ [_ [_ Hkids]]].
    apply wellFormedKids_app in Hkids. apply wellFormedKids_app.
    destruct Hkids as [H1 [H2 H3]]. repeat split; auto.
    rewrite Forall_forall in IH.
    apply (IH c (in_elt c pre post) _ c'); [discriminate | exact H2 | exact Hc].
Qed.

(** A search keeps a well-formed tree well-formed. *)
Lemma search_wellFormed (t t' : TreeNode) (targetId : string) :
  wellFormed t -> search t targetId = Ok (Some t') -> wellFormed t'.
Proof.
  intros [Hid [Hlevel [Hty Hkids]]]. rewrite search_unfold.
  destruct (String.eqb (id t) targetId).
  - destruct (children t) as [| c cs] eqn:Hcs; [| discriminate].
    destruct (generated t) as [[| c1 cs1] | msg] eqn:Hg; simpl;
      try discriminate.
    intros [= <-]. pose proof (generated_wellFormedRoot _ Hty Hg) as Hnew.
    destruct t. cbn in *. repeat split; tauto.
  - destruct (updateFirst (fun c => search c targetId) (children t))
      as [[r |] | msg] eqn:Hu; simpl; try discriminate.
    intros [= <-]. apply updateFirst_Some_inv in Hu.
    destruct Hu as [pre [c [c' [post [Hcs [-> [Hc _]]]]]]].
    rewrite Hcs in Hkids. apply wellFormedKids_app in Hkids.
    destruct Hkids as [H1 [H2 H3]].
    destruct t. cbn in *. repeat split; auto.
    apply wellFormedKids_app. repeat split; auto.
    eapply search_wellFormedAt; [| exact H2 | exact Hc]. discriminate.
Qed.

Lemma initial_wellFormed (f : float) :
  wellFormed (treeData (initialState toFixed f)).
Proof. repeat split. Qed.

Lemma toggle_wellFormed (st st' : State) (nodeId : string) :
  wellFormed (treeData st) ->
  toggleNode toFixed theBaseFreq nHarmonics mode maxLevel customRatios st nodeId
  = Ok st' ->
  wellFormed (treeData st').
Proof.
  intros Hwf. unfold toggleNode, TreeModel.expand.
  destruct (has (expandedNodes st) nodeId).
  - intros [= <-]. exact Hwf.
  - destruct (search (jsonCopy (treeData st)) nodeId) as [[u |] | msg] eqn:Hs;
      simpl; try discriminate; intros [= <-]; simpl.
    + eapply search_wellFormed; [apply jsonCopy_wellFormed, Hwf | exact Hs].
    + exact Hwf.
Qed.

Lemma clicks_wellFormed (nodeIds : list string) (st st' : State) :
  wellFormed (treeData st) ->
  Examples.clicks toFixed theBaseFreq nHarmonics mode maxLevel customRatios
    st nodeIds = Ok st' ->
  wellFormed (treeData st').
Proof.
  revert st. induction nodeIds as [| i rest IH]; intros st Hwf; simpl.
  - intros [= <-]. exact Hwf.
  - destruct (toggleNode toFixed theBaseFreq nHarmonics mode maxLevel
                customRatios st i) as [st1 | msg] eqn:Ht; simpl;
      [| discriminate].
    apply IH. eapply toggle_wellFormed; eassumption.
Qed.

(** Every state the component reaches by clicks from its initial state has
    a tree with unique ids whose root sits at level -1: the premises of the
    round trip and of the layout property. *)
Lemma reachable_tree (f : float) (nodeIds : list string) (st : State) :
  Examples.clicks toFixed theBaseFreq nHarmonics mode maxLevel customRatios
    (initialState toFixed f) nodeIds = Ok st ->
  NoDup (ids (treeData st)) /\ TreeModel.level (treeData st) = (-1)%Z.
Proof.
  intros H. pose proof (clicks_wellFormed _ _ (initial_wellFormed f) H) as Hwf.
  split; [apply wellFormed_unique_ids, Hwf | apply Hwf].
Qed.

End WellFormedPreserved.

Section CollapseBelowRoot.

Import TreeModel.

Local Open Scope string_scope.

Lemma append_assoc (a b c : string) : (a ++ b) ++ c = a ++ (b ++ c).
Proof. induction a as [| x a IH]; simpl; [reflexivity | now rewrite IH]. Qed.

Lemma prefix_append (p t : string) : String.prefix p (p ++ t) = true.
Proof.
  induction p as [| x p IH]; simpl; [destruct t; reflexivity |].
  destruct (ascii_dec x x); [exact IH | congruence].
Qed.

Lemma includes_prefix (s p : string) :
  String.prefix p s = true -> includes s p = true.
Proof. intros H. destruct s; simpl in *; rewrite H; reflexivity. Qed.

Lemma includes_append (a s p : string) :
  includes s p = true -> includes (a ++ s) p = true.
Proof.
  intros H. induction a as [| x a IH]; simpl; [exact H |].
  rewrite IH. apply orb_true_r.
Qed.

Lemma regroup (sn d si t : string) :
  "-" ++ ("h" ++ sn ++ "-" ++ d ++ "-" ++ si) ++ "-" ++ t
  = ("-h" ++ sn) ++ "-" ++ d ++ "-" ++ (si ++ "-" ++ t).
Proof.
  cbn [String.append]. do 2 f_equal.
  rewrite append_assoc. f_equal. cbn [String.append]. f_equal.
  rewrite append_assoc. f_equal.
Qed.

(** The id of a path that extends [path] holds the id of [path] between
    two dashes. *)
Lemma idOfPath_includes (path q : list nat) (t : string) :
  path <> [] ->
  includes ("-" ++ idOfPath (q ++ path) ++ "-" ++ t)
    ("-" ++ idOfPath path ++ "-") = true.
Proof.
  intros Hpath. revert t. induction q as [| i q IH]; intros t.
  - apply includes_prefix.
    replace ("-" ++ idOfPath ([] ++ path) ++ "-" ++ t)
      with (("-" ++ idOfPath path ++ "-") ++ t)
      by (cbn [String.append List.app]; now rewrite append_assoc).
    apply prefix_append.
  - destruct (q ++ path)%list as [| j rest] eqn:E.
    + apply app_eq_nil in E. destruct E; congruence.
    + cbn [List.app]. rewrite E, idOfPath_cons.
      rewrite regroup. apply includes_append, IH.
Qed.

(** The collapse filter selects the id of every path that extends a
    non-empty [path]. *)
Lemma removedBy_extension (path q : list nat) :
  path <> [] -> removedBy (idOfPath path) (idOfPath (q ++ path)) = true.
Proof.
  intros Hpath. unfold removedBy. destruct q as [| i q].
  - simpl. now rewrite String.eqb_refl.
  - destruct (q ++ path)%list as [| j rest] eqn:E.
    + apply app_eq_nil in E. destruct E; congruence.
    + cbn [List.app]. rewrite E, idOfPath_cons, <- E.
      rewrite (includes_append "h" _ _); [apply orb_true_r |].
      apply includes_append, idOfPath_includes, Hpath.
Qed.

(** The node that [findNode] answers carries the id looked for, and in a
    well-formed subtree it is well-formed at an extension of the path. *)
Lemma findNode_wellFormedAt (n : TreeNode) (x : string) :
  forall path m,
    wellFormedAt path n -> findNode n x = Some m ->
    id m = x /\ exists q, wellFormedAt (q ++ path) m.
Proof.
  induction n as [i nm v l ty ix bf pf ri cs IH] using tree_induction.
  intros path m Hwf. apply wellFormedAt_unfold in Hwf as Hwf'.
  cbn [children] in Hwf'. destruct Hwf' as [_ [_ [_ Hkids]]].
  cbn [findNode]. destruct (String.eqb i x) eqn:Ex.
  - intros [= <-]. apply String.eqb_eq in Ex. split; [exact Ex |].
    exists []. exact Hwf.
  - clear Hwf Ex. revert Hkids. generalize 0.
    induction IH as [| c cs Hc _ IHcs]; intros k Hkids; [discriminate |].
    destruct Hkids as [Hwc Hwk].
    destruct (findNode c x) as [r |] eqn:Ec.
    + intros [= <-]. destruct (Hc _ _ Hwc eq_refl) as [Hid [q Hq]].
      split; [exact Hid |]. exists (q ++ [k])%list.
      now rewrite <- List.app_assoc.
    + apply (IHcs _ Hwk).
Qed.

Lemma findNode_wellFormed (t m : TreeNode) (x : string) :
  wellFormed t -> x <> "root" -> findNode t x = Some m ->
  id m = x /\ exists path, path <> [] /\ wellFormedAt path m.
Proof.
  intros [Hid [_ [_ Hkids]]] Hx. destruct t as [i nm v l ty ix bf pf ri cs].
  cbn [id children] in *. cbn [findNode]. subst i.
  destruct (String.eqb "root" x) eqn:Ex;
    [apply String.eqb_eq in Ex; congruence |].
  clear Ex. revert Hkids. generalize 0.
  induction cs as [| c cs IH]; intros k Hkids; [discriminate |].
  destruct Hkids as [Hwc Hwk].
  destruct (findNode c x) as [r |] eqn:Ec.
  - intros [= <-]. destruct (@findNode_wellFormedAt c x [k] r Hwc Ec) as [Hid [q Hq]].
    split; [exact Hid |]. exists (q ++ [k])%list. split; [| exact Hq].
    destruct q; discriminate.
  - apply (IH _ Hwk).
Qed.

(** Below the root the collapse does what its comment says: in a
    well-formed tree, collapsing a node other than the root removes from the
    expanded set the id of every node of its subtree. *)
Lemma collapse_removes_subtree (st : State) (nodeId x : string) (n : TreeNode) :
  wellFormed (treeData st) -> nodeId <> "root" ->
  findNode (treeData st) nodeId = Some n -> In x (ids n) ->
  has (expandedNodes (collapse st nodeId)) x = false.
Proof.
  intros Hwf Hroot Hfind Hx.
  destruct (@findNode_wellFormed (treeData st) n nodeId Hwf Hroot Hfind)
    as [Hid [path [Hpath Hn]]].
  destruct (@wellFormed_ids n path Hn) as [_ Hin]. destruct (Hin x Hx) as [q ->].
  apply wellFormedAt_unfold in Hn. destruct Hn as [Hn _].
  rewrite <- Hid, Hn.
  destruct (has _ _) eqn:E; [| reflexivity].
  apply has_In, in_collapse in E. destruct E as [_ E].
  rewrite removedBy_extension in E by exact Hpath. discriminate.
Qed.

End CollapseBelowRoot.

(* ================================================================== *)
(** * Part III: further properties *)
(* ================================================================== *)

(** ** The structure and its records *)

Section StructureOutcome.

Variables (breadth : nat) (mode : string) (customRatios : option (list float)).

Lemma validMode_ratiosOf :
  validMode mode customRatios <->
  exists rs, ratiosOf breadth mode customRatios = Some rs.
Proof. symmetry. apply ratiosOf_valid. Qed.

Lemma buildLevels_length (count level : nat) (prev : nested)
    (ls : list nested) :
  buildLevels breadth mode customRatios count level prev = Ok ls ->
  List.length ls = count.
Proof.
  revert level prev ls. induction count as [| count IH]; intros level prev ls.
  - intros [= <-]. reflexivity.
  - cbn [buildLevels].
    destruct (nextLevel breadth mode customRatios level prev) as [cur | msg];
      simpl; [| discriminate].
    destruct (buildLevels breadth mode customRatios count (S level) cur)
      as [rest | msg] eqn:E; simpl; [| discriminate].
    intros [= <-]. simpl. f_equal. eapply IH, E.
Qed.

(** X1.  [generateHarmonicStructure] throws the mode error exactly when the
    mode is not one of harmonic, just, equal, or custom with an array of
    ratios; for every other call, whatever the base frequency (NaN and
    zero included), it returns a structure that carries the base and
    exactly [maxLevel + 1] levels, the first of which is the output of the
    tuning rule for the base. *)
Theorem X1_structure_outcome (baseFreq : float) (maxLevel : nat) :
  (~ validMode mode customRatios ->
   generateHarmonicStructure breadth mode customRatios baseFreq maxLevel
   = Throw modeError)
  /\ (validMode mode customRatios ->
      exists s H0,
        generateHarmonicStructure breadth mode customRatios baseFreq maxLevel
        = Ok s
        /\ base s = baseFreq
        /\ List.length (levels s) = S maxLevel
        /\ generateBaseFrequencies baseFreq breadth mode customRatios = Ok H0
        /\ nth_error (levels s) 0 = Some (numbers H0)).
Proof.
  split.
  - intros Hbad. unfold generateHarmonicStructure, generate.
    rewrite generate_throws; [reflexivity |].
    destruct (ratiosOf breadth mode customRatios) as [rs |] eqn:E;
      [| reflexivity].
    exfalso. apply Hbad, validMode_ratiosOf. eauto.
  - intros Hok. apply validMode_ratiosOf in Hok. destruct Hok as [rs Hrs].
    destruct (@generateHarmonicStructure_succeeds breadth mode customRatios rs
                Hrs baseFreq maxLevel) as [higher Hs].
    eexists. eexists. split; [exact Hs |]. split; [reflexivity |].
    split; [| split; [apply generate_ratios, Hrs | reflexivity]].
    unfold generateHarmonicStructure, generate in Hs.
    rewrite (generate_ratios baseFreq _ _ _ Hrs) in Hs. simpl in Hs.
    destruct (buildLevels breadth mode customRatios maxLevel 1 _)
      as [ls |] eqn:E; simpl in Hs; [| discriminate].
    injection Hs as <-. simpl. f_equal. eapply buildLevels_length, E.
Qed.

End StructureOutcome.

Section RecordShape.

Lemma same_level_sorted (k : Z) (l : list FrequencyRecord) :
  Forall (fun r => level r = k) l -> StronglySorted Z.le (map level l).
Proof.
  induction 1 as [| r l Hr Hl IH]; simpl; constructor; [exact IH |].
  apply Forall_map. eapply Forall_impl; [| exact Hl].
  intros r' Hr'. simpl in Hr'. rewrite Hr, Hr'. apply Z.le_refl.
Qed.

Lemma extractLevel_level (t : nested) (k : nat) :
  Forall (fun r => level r = Z.of_nat k) (extractLevel t k).
Proof.
  rewrite extractLevel_processLevel.
  eapply Forall_impl; [| apply processLevel_emitted]. intros r [H _]. exact H.
Qed.

Lemma levels_ordered (ls : list nested) (k : nat) :
  StronglySorted Z.le (map level (forEachIndexed extractLevel k ls))
  /\ Forall (fun r => (Z.of_nat k <= level r < Z.of_nat (k + List.length ls))%Z)
            (forEachIndexed extractLevel k ls).
Proof.
  revert k. induction ls as [| t ls IH]; intros k; cbn [forEachIndexed].
  - split; constructor.
  - destruct (IH (S k)) as [Hsorted Hrange].
    pose proof (extractLevel_level t k) as Hk. split.
    + rewrite map_app. apply StronglySorted_app.
      * apply (@same_level_sorted (Z.of_nat k) _ Hk).
      * exact Hsorted.
      * intros a b Ha Hb. apply in_map_iff in Ha, Hb.
        destruct Ha as [ra [<- Ha]], Hb as [rb [<- Hb]].
        rewrite Forall_forall in Hk, Hrange.
        rewrite (Hk ra Ha). specialize (Hrange rb Hb). cbv beta in Hrange.
        lia.
    + apply Forall_app. split.
      * eapply Forall_impl; [| exact Hk]. intros r ->. simpl. lia.
      * eapply Forall_impl; [| exact Hrange]. intros r Hr. simpl in *. lia.
Qed.

(** X2.  [extractAllFrequenciesWithPaths] lists its records by ascending
    level, the base record (level -1) first, and every level it reports is
    the index of an entry of [structure.levels], or -1. *)
Theorem X2_records_ordered_by_level (structure : HarmonicStructure) :
  StronglySorted Z.le (map level (extractAllFrequenciesWithPaths structure))
  /\ Forall
       (fun r => (-1 <= level r < Z.of_nat (List.length (levels structure)))%Z)
       (extractAllFrequenciesWithPaths structure).
Proof.
  unfold extractAllFrequenciesWithPaths.
  destruct (falsyNumber (base structure)); [split; constructor |].
  destruct (levels_ordered (levels structure) 0) as [Hsorted Hrange].
  unfold baseRecord. destruct (isNaN (base structure)); cbn [List.app map].
  - split; [exact Hsorted |].
    eapply Forall_impl; [| exact Hrange]. intros r Hr. simpl in Hr. lia.
  - split.
    + constructor; [exact Hsorted |]. apply Forall_map.
      eapply Forall_impl; [| exact Hrange]. intros r Hr. simpl in *. lia.
    + constructor; [simpl; lia |].
      eapply Forall_impl; [| exact Hrange]. intros r Hr. simpl in Hr. lia.
Qed.

(** What a record of level [levelIndex] below the path [currentPath]
    carries. *)
Lemma leafRecord_path (levelIndex : nat) (currentPath : list nat)
    (freq : nested) (i : nat) :
  Forall (fun r => level r = Z.of_nat levelIndex
                   /\ path r = currentPath ++ [i]
                   /\ pathString r = levelLabel levelIndex (path r))
         (leafRecord levelIndex currentPath freq i).
Proof.
  destruct freq as [x | sub]; simpl; [| constructor].
  destruct (isNaN x); repeat constructor.
Qed.

Lemma processLevel_path (levelIndex depth : nat) (data : nested)
    (currentPath : list nat) :
  Forall (fun r => level r = Z.of_nat levelIndex
                   /\ (exists q, path r = currentPath ++ q
                                 /\ List.length q = S depth)
                   /\ pathString r = levelLabel levelIndex (path r))
         (processLevel levelIndex depth data currentPath).
Proof.
  revert data currentPath.
  induction depth as [| depth IH]; intros [x | items] currentPath;
    cbn [processLevel]; try constructor; apply Forall_forEachIndexed;
    intros a i.
  - eapply Forall_impl; [| apply leafRecord_path].
    intros r [H1 [H2 H3]]. repeat split; auto. exists [i]. auto.
  - destruct a as [x | sub]; [constructor |].
    eapply Forall_impl; [| apply IH].
    intros r [H1 [[q [H2 Hq]] H3]]. repeat split; auto.
    exists (i :: q). split; [now rewrite H2, <- app_assoc | simpl; lia].
Qed.

(** X3.  Every record the extractor returns is either the base record
    (level -1, empty path, label [Base], the structure's base as frequency)
    or a record of a level [d >= 0] whose path holds exactly [d + 1]
    indices and whose label is [H^d[i0,...,id]] printed from that path. *)
Theorem X3_record_paths (structure : HarmonicStructure) :
  Forall
    (fun r =>
       (level r = (-1)%Z /\ path r = [] /\ pathString r = "Base"%string
        /\ frequency r = base structure)
       \/ (exists d, level r = Z.of_nat d
                     /\ List.length (path r) = S d
                     /\ pathString r = levelLabel d (path r)))
    (extractAllFrequenciesWithPaths structure).
Proof.
  unfold extractAllFrequenciesWithPaths.
  destruct (falsyNumber (base structure)); [constructor |].
  apply Forall_app. split.
  - unfold baseRecord. destruct (isNaN (base structure)); repeat constructor.
  - apply Forall_forEachIndexed. intros t k.
    rewrite extractLevel_processLevel.
    eapply Forall_impl; [| apply processLevel_path].
    intros r [H1 [[q [H2 Hq]] H3]]. right. exists k.
    split; [exact H1 |]. split; [| exact H3]. rewrite H2. exact Hq.
Qed.

End RecordShape.

Section Enumeration.

Variables (nHarmonics : nat) (mode : string) (customRatios : option (list float)).
Variable rs : list float.
Hypothesis Hvalid : ratiosOf nHarmonics mode customRatios = Some rs.
Hypothesis Hfinite : Forall (fun r => finiteNonzero r = true) rs.

Local Notation "'series' f" := (map (fun ratio => (f * ratio)%float) rs)
  (at level 10, f at level 9).

Lemma mapM_map {A B C : Type} (f : A -> result B) (h : C -> A) (g : C -> B)
    (l : list C) :
  Forall (fun c => f (h c) = Ok (g c)) l -> mapM f (map h l) = Ok (map g l).
Proof.
  induction 1 as [| c l Hc _ IH]; simpl; [reflexivity |].
  rewrite Hc. simpl. rewrite IH. reflexivity.
Qed.

Lemma ratio_not_nan (f : float) :
  isNaN f = false -> Forall (fun ratio => isNaN (f * ratio) = false) rs.
Proof.
  intros Hf. eapply Forall_impl; [| exact Hfinite].
  intros r Hr. apply mul_not_nan; assumption.
Qed.

Lemma levelOne_numbers (l : list float) :
  Forall (fun x => isNaN x = false) l ->
  levelOne nHarmonics mode customRatios (map Num l)
  = Ok (map (fun x => numbers (series x)) l).
Proof.
  induction 1 as [| x l Hx _ IH]; simpl; [reflexivity |].
  rewrite Hx. unfold generate at 1.
  rewrite (generate_ratios x _ _ _ Hvalid). simpl. rewrite IH. reflexivity.
Qed.

Lemma levelBelow_array (d : nat) (f : float) :
  exists items, levelBelow rs d f = Arr items.
Proof. destruct d; simpl; unfold numbers; eauto. Qed.

Lemma processNestedLevel_numbers (l : list float) :
  processNestedLevel nHarmonics mode customRatios (numbers l)
  = (r <- mapM (expandLeaf nHarmonics mode customRatios) (map Num l) ;;
     Ok (Arr r)).
Proof.
  unfold numbers. rewrite processNestedLevel_Arr. destruct l; reflexivity.
Qed.

Lemma processNestedLevel_arrays (items : list nested) :
  Forall (fun it => exists sub, it = Arr sub) items ->
  processNestedLevel nHarmonics mode customRatios (Arr items)
  = (r <- mapM (processNestedLevel nHarmonics mode customRatios) items ;;
     Ok (Arr r)).
Proof.
  intros H. rewrite processNestedLevel_Arr.
  destruct items as [| [x | sub] rest]; try reflexivity.
  apply Forall_inv in H. destruct H as [sub H]. discriminate.
Qed.

(** One more turn of the generator takes the array of level [d] to the
    array of level [d + 1]. *)
Lemma processNestedLevel_levelBelow (d : nat) (f : float) :
  isNaN f = false ->
  processNestedLevel nHarmonics mode customRatios (levelBelow rs d f)
  = Ok (levelBelow rs (S d) f).
Proof.
  revert f. induction d as [| d IH]; intros f Hf.
  - cbn [levelBelow]. rewrite processNestedLevel_numbers, map_map.
    rewrite (@mapM_map _ _ _ _ _ (fun ratio => numbers (series (f * ratio)))).
    + reflexivity.
    + eapply Forall_impl; [| apply (@ratio_not_nan f Hf)].
      intros r Hr. simpl. rewrite Hr. unfold generate.
      rewrite (generate_ratios _ _ _ _ Hvalid). reflexivity.
  - change (levelBelow rs (S d) f)
      with (Arr (map (fun ratio => levelBelow rs d (f * ratio)) rs)).
    rewrite processNestedLevel_arrays.
    + rewrite (@mapM_map _ _ _ _ _ (fun ratio => levelBelow rs (S d) (f * ratio))).
      * reflexivity.
      * eapply Forall_impl; [| apply (@ratio_not_nan f Hf)].
        intros r Hr. apply IH, Hr.
    + apply Forall_map, Forall_forall. intros r _. apply levelBelow_array.
Qed.

Lemma nextLevel_levelBelow (d : nat) (f : float) :
  isNaN f = false ->
  nextLevel nHarmonics mode customRatios (S d) (levelBelow rs d f)
  = Ok (levelBelow rs (S d) f).
Proof.
  intros Hf. unfold nextLevel. destruct d as [| d].
  - cbn [Nat.eqb levelBelow]. unfold numbers.
    rewrite levelOne_numbers, map_map; [reflexivity |].
    apply Forall_map, (@ratio_not_nan f Hf).
  - cbn [Nat.eqb]. apply processNestedLevel_levelBelow, Hf.
Qed.

Lemma buildLevels_levelBelow (count d : nat) (f : float) :
  isNaN f = false ->
  buildLevels nHarmonics mode customRatios count (S d) (levelBelow rs d f)
  = Ok (map (fun k => levelBelow rs k f) (seq (S d) count)).
Proof.
  intros Hf. revert d. induction count as [| count IH]; intros d;
    [reflexivity |].
  cbn [buildLevels seq map].
  rewrite (@nextLevel_levelBelow d f Hf). simpl. rewrite IH. reflexivity.
Qed.

Lemma structure_levelBelow (baseFreq : float) (maxLevel : nat) :
  isNaN baseFreq = false ->
  generateHarmonicStructure nHarmonics mode customRatios baseFreq maxLevel
  = Ok (mkStructure baseFreq
          (map (fun d => levelBelow rs d baseFreq) (seq 0 (S maxLevel)))).
Proof.
  intros Hf. unfold generateHarmonicStructure, generate.
  rewrite (generate_ratios _ _ _ _ Hvalid). cbn [bind].
  change (numbers (series baseFreq)) with (levelBelow rs 0 baseFreq).
  rewrite (@buildLevels_levelBelow maxLevel 0 baseFreq Hf). reflexivity.
Qed.

Lemma flat_map_ext_in {A B : Type} (f g : A -> list B) (l : list A) :
  (forall a, In a l -> f a = g a) -> flat_map f l = flat_map g l.
Proof.
  induction l as [| a l IH]; intros H; simpl; [reflexivity |].
  rewrite H by (now left). rewrite IH; [reflexivity |].
  intros b Hb. apply H. now right.
Qed.

Lemma map_flat_map {A B C : Type} (g : B -> C) (f : A -> list B) (l : list A) :
  map g (flat_map f l) = flat_map (fun a => map g (f a)) l.
Proof.
  induction l as [| a l IH]; simpl; [reflexivity |].
  now rewrite map_app, IH.
Qed.

Lemma flat_map_singletons {A B : Type} (g : A -> B) (l : list A) :
  flat_map (fun a => [g a]) l = map g l.
Proof. induction l as [| a l IH]; simpl; [reflexivity | now rewrite IH]. Qed.

(** [forEach] over a mapped array, by position. *)
Lemma forEachIndexed_map {A B C : Type} (g : A -> nat -> list B) (h : C -> A)
    (dflt : C) (l : list C) (k : nat) :
  forEachIndexed g k (map h l)
  = flat_map (fun i => g (h (nth (i - k) l dflt)) i) (seq k (List.length l)).
Proof.
  revert k. induction l as [| c l IH]; intros k; [reflexivity |].
  cbn [map forEachIndexed List.length seq flat_map].
  rewrite Nat.sub_diag. cbn [nth]. f_equal. rewrite IH.
  apply flat_map_ext_in. intros i Hi. apply in_seq in Hi.
  replace (i - k) with (S (i - S k)) by lia. reflexivity.
Qed.

Lemma frequencyAt_cons (f : float) (i : nat) (p : list nat) :
  frequencyAt rs f (i :: p) = frequencyAt rs (f * nth i rs nan) p.
Proof. reflexivity. Qed.

(** The records of the array of level [d] below [f]: one for every index
    path, in order, with the product of the ratios along the path. *)
Lemma processLevel_levelBelow (levelIndex d : nat) (f : float)
    (currentPath : list nat) :
  isNaN f = false ->
  processLevel levelIndex d (levelBelow rs d f) currentPath
  = map (fun p => mkRecord (frequencyAt rs f p) (Z.of_nat levelIndex)
                    (currentPath ++ p)
                    (levelLabel levelIndex (currentPath ++ p)))
        (tuples (List.length rs) d).
Proof.
  revert f currentPath. induction d as [| d IH]; intros f currentPath Hf.
  - cbn [levelBelow tuples]. unfold numbers. cbn [processLevel].
    rewrite map_map, (forEachIndexed_map _ _ nan), map_map.
    rewrite <- flat_map_singletons. apply flat_map_ext_in.
    intros i Hi. apply in_seq in Hi. rewrite Nat.sub_0_r.
    cbn [leafRecord].
    assert (Hn : isNaN (f * nth i rs nan) = false).
    { pose proof (@ratio_not_nan f Hf) as H. rewrite Forall_forall in H.
      apply H, nth_In. lia. }
    rewrite Hn. reflexivity.
  - cbn [levelBelow tuples processLevel].
    rewrite (forEachIndexed_map _ _ nan), map_flat_map.
    apply flat_map_ext_in. intros i Hi. apply in_seq in Hi.
    rewrite Nat.sub_0_r.
    assert (Hn : isNaN (f * nth i rs nan) = false).
    { pose proof (@ratio_not_nan f Hf) as H. rewrite Forall_forall in H.
      apply H, nth_In. lia. }
    destruct (levelBelow_array d (f * nth i rs nan)) as [items Hitems].
    rewrite Hitems, <- Hitems. rewrite (IH _ _ Hn), map_map.
    apply map_ext. intros p. rewrite <- app_assoc. reflexivity.
Qed.

Lemma records_levelBelow (f : float) (n : nat) :
  isNaN f = false ->
  forEachIndexed extractLevel 0 (map (fun d => levelBelow rs d f) (seq 0 n))
  = flat_map (fun d => map (recordAt rs f d) (tuples (List.length rs) d))
             (seq 0 n).
Proof.
  intros Hf. rewrite (forEachIndexed_map _ _ 0), length_seq.
  apply flat_map_ext_in. intros i Hi. apply in_seq in Hi.
  rewrite Nat.sub_0_r, seq_nth by lia. cbn [Nat.add].
  rewrite extractLevel_processLevel, (@processLevel_levelBelow i i f [] Hf).
  reflexivity.
Qed.

End Enumeration.

(** X4.  For a base that is not NaN, a valid mode and ratios that are
    finite and not zero, [structure.levels[d]] is the array nested [d + 1]
    deep in which the entry at indices [i0, .., id] is the base multiplied
    in turn by the ratios [i0], .., [id]: the series of the base at level
    0, and at every further level one array of the previous kind below each
    member of the series. *)
Theorem X4_structure_levels (baseFreq : float) (maxLevel breadth : nat)
    (mode : string) (customRatios : option (list float)) (rs : list float) :
  isNaN baseFreq = false ->
  ratiosOf breadth mode customRatios = Some rs ->
  Forall (fun r => finiteNonzero r = true) rs ->
  generateHarmonicStructure breadth mode customRatios baseFreq maxLevel
  = Ok (mkStructure baseFreq
          (map (fun d => levelBelow rs d baseFreq) (seq 0 (S maxLevel)))).
Proof.
  intros Hbase Hvalid Hfinite. apply structure_levelBelow; assumption.
Qed.

Lemma X4_structure_levels_witness :
  generateHarmonicStructure 2 "harmonic" None 100%float 1
  = Ok (mkStructure 100%float
          (map (fun d => levelBelow [1%float; 2%float] d 100%float)
               (seq 0 2))).
Proof.
  apply (@X4_structure_levels 100%float 1 2 "harmonic" None
           [1%float; 2%float]).
  - reflexivity.
  - reflexivity.
  - repeat constructor.
Defined.

(** X5.  Under the same conditions and a base other than zero, the
    flattened list is the base record followed, level by level, by one
    record for every index path of that level in lexicographic order; the
    record at path [i0, .., id] has level [d], label [H^d[i0,..,id]] and
    frequency [base * ratio(i0) * .. * ratio(id)], multiplied from left to
    right in doubles. *)
Theorem X5_records_enumerate (baseFreq : float) (maxLevel breadth : nat)
    (mode : string) (customRatios : option (list float)) (rs : list float) :
  falsyNumber baseFreq = false ->
  ratiosOf breadth mode customRatios = Some rs ->
  Forall (fun r => finiteNonzero r = true) rs ->
  exists s,
    generateHarmonicStructure breadth mode customRatios baseFreq maxLevel = Ok s
    /\ extractAllFrequenciesWithPaths s
       = mkRecord baseFreq (-1) [] "Base"
         :: flat_map
              (fun d => map (recordAt rs baseFreq d) (tuples (List.length rs) d))
              (seq 0 (S maxLevel)).
Proof.
  intros Hbase Hvalid Hfinite.
  assert (Hnan : isNaN baseFreq = false).
  { unfold falsyNumber in Hbase. apply orb_false_iff in Hbase. apply Hbase. }
  eexists. split; [apply structure_levelBelow; eassumption |].
  unfold extractAllFrequenciesWithPaths. cbn [base levels].
  rewrite Hbase. unfold baseRecord. rewrite Hnan. cbn [List.app]. f_equal.
  apply records_levelBelow; assumption.
Qed.

Lemma X5_records_enumerate_witness :
  exists s,
    generateHarmonicStructure 2 "harmonic" None 100%float 1 = Ok s
    /\ extractAllFrequenciesWithPaths s
       = mkRecord 100%float (-1) [] "Base"
         :: flat_map
              (fun d => map (recordAt [1%float; 2%float] 100%float d)
                            (tuples 2 d))
              (seq 0 2).
Proof.
  apply (@X5_records_enumerate 100%float 1 2 "harmonic" None
           [1%float; 2%float]).
  - reflexivity.
  - reflexivity.
  - repeat constructor.
Defined.

(** ** The tuning rule and the analyses *)

Lemma firstn_seq_more (n more a : nat) : firstn n (seq a (n + more)) = seq a n.
Proof.
  revert a. induction n as [| n IH]; intros a; simpl; [reflexivity |].
  now rewrite IH.
Qed.

(** X6.  Raising the breadth only appends: what the tuning rule returns
    for a breadth is the first [breadth] entries of what it returns for any
    larger breadth, in every mode. *)
Theorem X6_breadth_prefix (f : float) (breadth more : nat) (mode : string)
    (customRatios : option (list float)) (l : list float) :
  generateBaseFrequencies f (breadth + more) mode customRatios = Ok l ->
  generateBaseFrequencies f breadth mode customRatios = Ok (firstn breadth l).
Proof.
  unfold generateBaseFrequencies, generateHarmonicSeries.
  assert (Hcut : forall table : list float,
            firstn breadth (map (fun ratio => (f * ratio)%float)
                              (firstn (breadth + more) table))
            = map (fun ratio => (f * ratio)%float) (firstn breadth table)).
  { intros table. rewrite firstn_map, firstn_firstn.
    now replace (Nat.min breadth (breadth + more)) with breadth by lia. }
  destruct (String.eqb mode "harmonic").
  - intros [= <-]. now rewrite firstn_map, firstn_seq_more.
  - destruct (String.eqb mode "just"); [intros [= <-]; now rewrite Hcut |].
    destruct (String.eqb mode "equal"); [intros [= <-]; now rewrite Hcut |].
    destruct (String.eqb mode "custom"), customRatios as [ratios |];
      try discriminate.
    intros [= <-]. now rewrite Hcut.
Qed.

Lemma X6_breadth_prefix_witness :
  generateBaseFrequencies 440%float 3 "harmonic" None
  = Ok (firstn 3 [440; 880; 1320; 1760; 2200]%float).
Proof.
  apply (@X6_breadth_prefix 440%float 3 2 "harmonic" None).
  vm_compute. reflexivity.
Defined.

(** X7.  [gcd] computes the greatest common divisor of two non-negative
    integers: its result divides both arguments and is divided by every
    common divisor; [gcd(a, 0)] is [a]. *)
Theorem X7_gcd_correct (a b : nat) :
  RationalApproximator.gcd a b = Nat.gcd a b
  /\ RationalApproximator.gcd a 0 = a
  /\ Nat.divide (RationalApproximator.gcd a b) a
  /\ Nat.divide (RationalApproximator.gcd a b) b
  /\ forall c, Nat.divide c a -> Nat.divide c b ->
               Nat.divide c (RationalApproximator.gcd a b).
Proof.
  rewrite !gcd_gcd. split; [reflexivity |]. split; [apply Nat.gcd_0_r |].
  split; [apply Nat.gcd_divide_l |]. split; [apply Nat.gcd_divide_r |].
  intros c. apply Nat.gcd_greatest.
Qed.

(** X8.  [analyzeFrequencyRatios] returns one entry for every pair
    [i < j] among the first 100 flattened records, in the order of
    [(i, j)], none skipped: with [k] the smaller of the record count and
    100 it returns [k (k - 1) / 2] entries, whatever [maxDenominator]. *)
Theorem X8_ratio_entries (structure : HarmonicStructure) (maxDenominator : nat) :
  map (fun e => (rfreq1 e, rpath1 e, rfreq2 e, rpath2 e))
      (analyzeFrequencyRatios structure maxDenominator)
  = map (fun p => (frequency (fst p), pathString (fst p),
                   frequency (snd p), pathString (snd p)))
        (pairsInOrder
           (firstn 100 (extractAllFrequenciesWithPaths structure)))
  /\ 2 * List.length (analyzeFrequencyRatios structure maxDenominator)
     = Nat.min (List.length (extractAllFrequenciesWithPaths structure)) 100
       * (Nat.min (List.length (extractAllFrequenciesWithPaths structure)) 100
          - 1).
Proof.
  rewrite analyze_pairs.
  set (recs := firstn 100 (extractAllFrequenciesWithPaths structure)).
  assert (Hrecs : Forall (fun r => isNaN (frequency r) = false) recs).
  { apply Forall_firstn, extract_not_nan. }
  assert (Hpairs : Forall (fun p => isNaN (frequency (fst p)) = false
                                    /\ isNaN (frequency (snd p)) = false)
                          (pairsInOrder recs)).
  { rewrite Forall_forall in Hrecs |- *. intros [a b] Hab.
    apply in_pairsInOrder in Hab. destruct Hab as [i [j [_ [Hi Hj]]]].
    split; apply Hrecs; eapply nth_error_In; eassumption. }
  assert (Heq : flat_map (fun p => ratioEntry maxDenominator (fst p) (snd p))
                  (pairsInOrder recs)
                = map (fun p =>
                         mkRatio (frequency (fst p)) (frequency (snd p))
                           (pathString (fst p)) (pathString (snd p))
                           (ratioOf (frequency (fst p)) (frequency (snd p)))
                           (snd (closestSimpleRatio
                                   (ratioOf (frequency (fst p))
                                      (frequency (snd p))) maxDenominator))
                           (fst (closestSimpleRatio
                                   (ratioOf (frequency (fst p))
                                      (frequency (snd p))) maxDenominator)))
                      (pairsInOrder recs)).
  { rewrite <- flat_map_singletons. apply flat_map_ext_in.
    intros p Hp. rewrite Forall_forall in Hpairs.
    destruct (Hpairs p Hp) as [H1 H2]. unfold ratioEntry.
    rewrite H1, H2. reflexivity. }
  rewrite Heq. split.
  - rewrite map_map. reflexivity.
  - rewrite length_map, length_pairsInOrder. unfold recs.
    rewrite length_firstn, (Nat.min_comm 100). reflexivity.
Qed.

Section Differences.

Local Open Scope float_scope.

Lemma SFsub_self (s : spec_float) :
  match s with S754_finite _ _ _ | S754_zero _ => True | _ => False end ->
  SFsub prec emax s s = S754_zero false.
Proof.
  destruct s as [sg | sg | | sg m e]; try contradiction; intros _.
  - destruct sg; reflexivity.
  - unfold SFsub. rewrite Z.min_id. unfold shl_align. rewrite Z.sub_diag.
    cbn [fst]. rewrite ?Z.sub_diag. reflexivity.
Qed.

(** A finite number minus itself is [+0]. *)
Lemma sub_self (x : float) : finiteNumber x = true -> x - x = 0.
Proof.
  intros H. apply Prim2SF_inj. rewrite sub_spec.
  unfold finiteNumber in H. unfold SF64sub. rewrite SFsub_self; [reflexivity |].
  destruct (Prim2SF x); try discriminate; exact I.
Qed.

Lemma diffTo_exact (c : nat * nat) :
  finiteNumber (ofNat (fst c) / ofNat (snd c)) = true ->
  diffTo (ofNat (fst c) / ofNat (snd c)) c = 0.
Proof. intros H. unfold diffTo. rewrite (sub_self _ H). reflexivity. Qed.

(** A distance that is finite and not above zero is [+0]. *)
Lemma abs_zero (z : float) :
  (abs z <? infinity) = true -> (0 <? abs z) = false -> abs z = 0.
Proof.
  rewrite !ltb_spec. intros H1 H2. apply Prim2SF_inj.
  rewrite abs_spec in *. unfold SFltb in *.
  destruct (Prim2SF z) as [[] | [] | | [] ? ?]; try discriminate; reflexivity.
Qed.

(** X9.  A ratio that is exactly the double [num / denom] of a fraction the
    search examines is reported with difference 0, by that fraction or by
    one examined before it. *)
Theorem X9_exact_ratio (maxDenominator : nat) (c : nat * nat) :
  isCandidate maxDenominator c ->
  finiteNumber (ofNat (fst c) / ofNat (snd c)) = true ->
  let b := closestSimpleRatio (ofNat (fst c) / ofNat (snd c)) maxDenominator in
  fst b = 0
  /\ isCandidate maxDenominator (snd b)
  /\ (snd b = c \/ examinedBefore (snd b) c).
Proof.
  intros Hc Hfin. set (actual := ofNat (fst c) / ofNat (snd c)).
  pose proof (diffTo_exact c Hfin) as Hzero. fold actual in Hzero.
  cbv zeta. unfold closestSimpleRatio.
  pose proof (search_invariant actual (candidates maxDenominator) sentinel)
    as Hs. cbv zeta in Hs.
  apply in_candidates in Hc.
  destruct Hs as [[_ Hnone] | [l1 [c1 [l2 [Hl [Hb [Hlt [Hmin Hfirst]]]]]]]].
  - specialize (Hnone c Hc). rewrite Hzero in Hnone. discriminate.
  - rewrite Hb. cbn [fst snd].
    assert (Hd : diffTo actual c1 = 0).
    { unfold diffTo. apply abs_zero; [exact Hlt |].
      specialize (Hmin c Hc). rewrite Hzero in Hmin. exact Hmin. }
    split; [exact Hd |]. split.
    + apply in_candidates. rewrite Hl. apply in_elt.
    + rewrite Hl in Hc. apply in_app_or in Hc.
      destruct Hc as [Hc | [Hc | Hc]].
      * specialize (Hfirst c Hc). rewrite Hzero, Hd in Hfirst. discriminate.
      * now left.
      * right. pose proof (candidates_sorted maxDenominator) as Hsorted.
        rewrite Hl in Hsorted. apply StronglySorted_after in Hsorted.
        rewrite Forall_forall in Hsorted. apply Hsorted, Hc.
Qed.

Lemma X9_exact_ratio_witness :
  let b := closestSimpleRatio (ofNat 2 / ofNat 3) 12 in
  fst b = 0 /\ isCandidate 12 (snd b)
  /\ (snd b = (2%nat, 3%nat) \/ examinedBefore (snd b) (2%nat, 3%nat)).
Proof.
  apply (@X9_exact_ratio 12 (2%nat, 3%nat)).
  - repeat split; simpl; lia.
  - vm_compute. reflexivity.
Defined.

End Differences.

Section ExactMatches.

Local Open Scope float_scope.

Lemma Math_max_cases (a b : float) :
  isNaN a = false -> isNaN b = false -> Math_max a b = a \/ Math_max a b = b.
Proof.
  intros Ha Hb. unfold Math_max. rewrite Ha, Hb. simpl.
  destruct (a <? b); auto. destruct (b <? a); auto.
  destruct (get_sign a); auto.
Qed.

(** Two equal numbers have no positive relative difference: it is a zero,
    or NaN for two zeros and for two infinities. *)
Lemma equal_not_close (a b : float) :
  (a =? b) = true -> (0 <? relativeDifference a b) = false.
Proof.
  rewrite FloatAxioms.eqb_spec. unfold SFeqb.
  destruct (SFcompare (Prim2SF a) (Prim2SF b)) as [[] |] eqn:Hc;
    try discriminate.
  intros _.
  assert (Ha : Prim2SF a <> S754_nan).
  { intros E. rewrite E in Hc. discriminate. }
  assert (Hb : Prim2SF b <> S754_nan).
  { intros E. rewrite E in Hc. destruct (Prim2SF a); discriminate. }
  pose proof (Math_max_cases a b (proj2 (isNaN_false a) Ha)
                (proj2 (isNaN_false b) Hb)) as Hmax.
  unfold relativeDifference. rewrite ltb_spec, div_spec, abs_spec, sub_spec.
  destruct (SFcompare_Eq_cases _ _ Hc) as [E | [s [s' [E1 E2]]]].
  - assert (Hm : Prim2SF (Math_max a b) = Prim2SF a)
      by (destruct Hmax as [-> | ->]; congruence).
    rewrite Hm, <- E.
    destruct (Prim2SF a) as [sg | sg | | sg m e] eqn:Es; try congruence.
    + destruct sg; reflexivity.
    + destruct sg; reflexivity.
    + unfold SF64sub. rewrite SFsub_self by exact I. destruct sg; reflexivity.
  - assert (Hm : exists sm, Prim2SF (Math_max a b) = S754_zero sm)
      by (destruct Hmax as [-> | ->]; eauto).
    destruct Hm as [sm ->]. rewrite E1, E2. destruct s, s', sm; reflexivity.
Qed.

(** X10.  [findCloseFrequencies] never pairs two equal frequencies: the
    test [relDiff > 0] drops every pair whose two frequencies compare
    equal, whatever the threshold. *)
Theorem X10_no_exact_matches (structure : HarmonicStructure)
    (threshold : float) :
  Forall (fun p => (freq1 p =? freq2 p) = false)
         (findCloseFrequencies structure threshold).
Proof.
  unfold findCloseFrequencies.
  rewrite closePairs_filter by apply extract_not_nan.
  apply Forall_map, Forall_forall. intros p Hp.
  apply filter_In in Hp. destruct Hp as [_ Hp].
  unfold isClose in Hp. apply andb_true_iff in Hp. destruct Hp as [Hpos _].
  cbn [freq1 freq2 proximityPair].
  destruct (frequency (fst p) =? frequency (snd p)) eqn:E; [| reflexivity].
  rewrite (equal_not_close E) in Hpos. discriminate.
Qed.

End ExactMatches.

(** ** The tree and the expanded set *)

Section ToggleFacts.

Import TreeModel.

Variable toFixed : float -> nat -> string.
Variables (theBaseFreq : float) (nHarmonics : nat) (mode : string)
          (maxLevel : nat) (customRatios : option (list float)).

Local Notation "'search'" :=
  (findAndUpdateNode toFixed theBaseFreq nHarmonics mode maxLevel customRatios).
Local Notation "'generated'" :=
  (generateChildrenForNode toFixed theBaseFreq nHarmonics mode maxLevel
     customRatios).
Local Notation "'toggle'" :=
  (toggleNode toFixed theBaseFreq nHarmonics mode maxLevel customRatios).
Local Notation "'clicked'" :=
  (Examples.clicks toFixed theBaseFreq nHarmonics mode maxLevel customRatios).

(** X11.  A click that does not throw flips the clicked id in the expanded
    set.  An expansion changes the set only by appending the clicked id; a
    collapse leaves the tree as it is and adds nothing to the set. *)
Theorem X11_toggle_flips (st st' : State) (nodeId : string) :
  toggle st nodeId = Ok st' ->
  has (expandedNodes st') nodeId = negb (has (expandedNodes st) nodeId)
  /\ (has (expandedNodes st) nodeId = false ->
      expandedNodes st' = expandedNodes st ++ [nodeId])
  /\ (has (expandedNodes st) nodeId = true ->
      treeData st' = treeData st
      /\ incl (expandedNodes st') (expandedNodes st)).
Proof.
  unfold toggleNode. destruct (has (expandedNodes st) nodeId) eqn:Hhas.
  - intros [= <-]. split; [apply collapse_removes_self |].
    split; [discriminate |]. intros _. split; [reflexivity |].
    intros y Hy. apply in_collapse in Hy. apply Hy.
  - unfold TreeModel.expand, add. rewrite Hhas.
    destruct (search (jsonCopy (treeData st)) nodeId) as [[u |] | msg];
      simpl; try discriminate; intros [= <-]; cbn [expandedNodes];
      (split; [| split; [reflexivity | discriminate]]);
      apply has_In, in_or_app; right; now left.
Qed.

(** X17.  A click on an id that no node of the tree carries does not
    throw: the tree stays as it is and the id joins the expanded set. *)
Theorem X17_unknown_id (st : State) (nodeId : string) :
  ~ In nodeId (ids (treeData st)) ->
  has (expandedNodes st) nodeId = false ->
  toggle st nodeId = Ok (mkState (treeData st) (expandedNodes st ++ [nodeId])).
Proof.
  intros Habsent Hhas. unfold toggleNode, TreeModel.expand, add.
  rewrite Hhas, search_absent; [reflexivity |].
  now rewrite ids_jsonCopy.
Qed.

Lemma search_keeps_ids (t : TreeNode) (targetId : string) :
  forall t', search t targetId = Ok (Some t') -> incl (ids t) (ids t').
Proof.
  induction t as [i nm v l ty ix bf pf ri cs IH] using tree_induction.
  intros t'. rewrite search_unfold. cbn [id children].
  destruct (String.eqb i targetId).
  - destruct cs as [| c cs]; [| discriminate].
    destruct (generated (mkNode i nm v l ty ix bf pf ri [])) as [[| c1 cs1] | msg];
      simpl; try discriminate.
    intros [= <-]. intros x [<- | []]. now left.
  - destruct (updateFirst (fun c => search c targetId) cs) as [[r |] | msg]
      eqn:Hu; simpl; try discriminate.
    intros [= <-]. apply updateFirst_Some_inv in Hu.
    destruct Hu as [pre [c [c' [post [-> [-> [Hc _]]]]]]].
    rewrite Forall_forall in IH.
    pose proof (IH c (in_elt c pre post) c' Hc) as Hincl.
    cbn [ids setChildren id children]. rewrite !flat_map_app. cbn [flat_map].
    intros x [<- | Hx]; [now left |]. right.
    apply in_app_or in Hx. apply in_or_app.
    destruct Hx as [Hx | Hx]; [now left | right].
    apply in_app_or in Hx. apply in_or_app.
    destruct Hx as [Hx | Hx]; [left; apply Hincl, Hx | now right].
Qed.

(** X16.  No click removes a node: every id of the tree before a click is
    an id of the tree after it (materialised children stay cached). *)
Theorem X16_nodes_stay (st st' : State) (nodeId : string) :
  toggle st nodeId = Ok st' ->
  incl (ids (treeData st)) (ids (treeData st')).
Proof.
  unfold toggleNode. destruct (has (expandedNodes st) nodeId).
  - intros [= <-]. apply incl_refl.
  - unfold TreeModel.expand.
    destruct (search (jsonCopy (treeData st)) nodeId) as [[u |] | msg] eqn:Hs;
      simpl; try discriminate; intros [= <-]; cbn [treeData];
      [| apply incl_refl].
    rewrite <- (ids_jsonCopy (treeData st)). apply (search_keeps_ids _ _ Hs).
Qed.

(** X18.  The component starts with [root] in the expanded set and a root
    without children.  So the first click on the root only collapses it and
    generates nothing; the second click materialises the H^0 children: one
    node [h0-i] per frequency the tuning rule returns for [baseFreq]. *)
Theorem X18_first_clicks (f : float) (freqs : list float) :
  generateBaseFrequencies theBaseFreq nHarmonics mode customRatios = Ok freqs ->
  freqs <> [] ->
  toggle (initialState toFixed f) "root"
  = Ok (mkState (createFrequencyTree toFixed f) [])
  /\ clicked (initialState toFixed f) ["root"; "root"]%string
     = Ok (mkState
             (setChildren (jsonCopy (createFrequencyTree toFixed f))
                (mapIndexed (rootChild toFixed theBaseFreq) 0 freqs))
             ["root"%string]).
Proof.
  intros Hgen Hne.
  assert (H1 : toggle (initialState toFixed f) "root"
               = Ok (mkState (createFrequencyTree toFixed f) [])).
  { reflexivity. }
  split; [exact H1 |]. cbn [Examples.clicks]. rewrite H1. cbn [bind].
  unfold toggleNode. cbn [expandedNodes has existsb].
  unfold TreeModel.expand. cbn [treeData expandedNodes].
  rewrite search_unfold. cbn [createFrequencyTree jsonCopy id children map].
  cbn [String.eqb Ascii.eqb Bool.eqb andb].
  unfold generateChildrenForNode. cbn [nodeType]. rewrite Hgen. cbn [bind].
  destruct freqs as [| x rest]; [congruence |]. reflexivity.
Qed.

End ToggleFacts.

Section ToggleExamples.

Import TreeModel Examples.

Lemma X11_toggle_flips_witness :
  has (expandedNodes afterExpand) "root"
  = negb (has (expandedNodes start) "root")
  /\ (has (expandedNodes start) "root" = false ->
      expandedNodes afterExpand
      = expandedNodes start ++ ["root"%string])
  /\ (has (expandedNodes start) "root" = true ->
      treeData afterExpand = treeData start
      /\ incl (expandedNodes afterExpand)
              (expandedNodes start)).
Proof.
  apply (@X11_toggle_flips noName 440%float 3 "harmonic" 2 None
           start afterExpand "root").
  vm_compute. reflexivity.
Defined.

Lemma X17_unknown_id_witness :
  toggleNode noName 440%float 3 "harmonic" 2 None
    afterExpand "h0-7"
  = Ok (mkState (treeData afterExpand)
          (expandedNodes afterExpand ++ ["h0-7"%string])).
Proof.
  apply (@X17_unknown_id noName 440%float 3 "harmonic" 2 None
           afterExpand "h0-7").
  - vm_compute. intros H. repeat (destruct H as [H | H]; [discriminate |]).
    exact H.
  - vm_compute. reflexivity.
Defined.

Lemma X16_nodes_stay_witness :
  incl (ids (treeData start))
       (ids (treeData afterExpand)).
Proof.
  apply (@X16_nodes_stay noName 440%float 3 "harmonic" 2 None
           start afterExpand "root").
  vm_compute. reflexivity.
Defined.

Lemma X18_first_clicks_witness :
  toggleNode noName 440%float 3 "harmonic" 2 None
    (initialState noName 440%float) "root"
  = Ok (mkState
          (createFrequencyTree noName 440%float) [])
  /\ clicks noName 440%float 3 "harmonic" 2 None
       (initialState noName 440%float)
       ["root"; "root"]%string
     = Ok (mkState
             (setChildren
                (jsonCopy
                   (createFrequencyTree noName 440%float))
                (mapIndexed
                   (rootChild noName 440%float) 0
                   [440%float; 880%float; 1320%float]))
             ["root"%string]).
Proof.
  apply (@X18_first_clicks noName 440%float 3 "harmonic" 2 None
           440%float [440%float; 880%float; 1320%float]).
  - vm_compute. reflexivity.
  - discriminate.
Defined.

End ToggleExamples.

Section TreeInvariants.

Import TreeModel.

Variable toFixed : float -> nat -> string.
Variables (theBaseFreq : float) (nHarmonics : nat) (mode : string)
          (maxLevel : nat) (customRatios : option (list float)).

Local Notation "'search'" :=
  (findAndUpdateNode toFixed theBaseFreq nHarmonics mode maxLevel customRatios).
Local Notation "'generated'" :=
  (generateChildrenForNode toFixed theBaseFreq nHarmonics mode maxLevel
     customRatios).
Local Notation "'toggle'" :=
  (toggleNode toFixed theBaseFreq nHarmonics mode maxLevel customRatios).
Local Notation "'clicked'" :=
  (Examples.clicks toFixed theBaseFreq nHarmonics mode maxLevel customRatios).
Local Notation "'shallow' n" := (TreeModel.level n <= Z.of_nat maxLevel)%Z
  (at level 10, n at level 9).

(** X12.  In every state reached by clicks from the initial state the tree
    is well-formed: the root is [root] at level -1, the node reached by the
    child positions [i0, .., id] sits at level [d] with the id
    [h0-i0] (for [d = 0]) or [h<d>-<id of its parent>-<id>], and no two
    nodes of the tree carry the same id. *)
Theorem X12_reachable_ids (f : float) (nodeIds : list string) (st : State) :
  clicked (initialState toFixed f) nodeIds = Ok st ->
  wellFormed (treeData st) /\ NoDup (ids (treeData st)).
Proof.
  intros H.
  pose proof (@clicks_wellFormed toFixed theBaseFreq nHarmonics mode maxLevel
                customRatios nodeIds _ _ (initial_wellFormed toFixed f) H)
    as Hwf.
  split; [exact Hwf | apply wellFormed_unique_ids, Hwf].
Qed.

Lemma treeNodes_unfold (t : TreeNode) :
  treeNodes t = t :: flat_map treeNodes (children t).
Proof. destruct t. reflexivity. Qed.

Lemma level_jsonCopy (t : TreeNode) : TreeModel.level (jsonCopy t) = TreeModel.level t.
Proof. destruct t. reflexivity. Qed.

Lemma levels_jsonCopy (t : TreeNode) :
  map TreeModel.level (treeNodes (jsonCopy t)) = map TreeModel.level (treeNodes t).
Proof.
  induction t as [i nm v l ty ix bf pf ri cs IH] using tree_induction.
  cbn [jsonCopy treeNodes map]. f_equal.
  induction IH as [| c cs Hc _ IHcs]; [reflexivity |].
  cbn [map flat_map]. rewrite !map_app. f_equal; assumption.
Qed.

Lemma withinDepth_levels (t : TreeNode) :
  withinDepth maxLevel t
  <-> Forall (fun l => (l <= Z.of_nat maxLevel)%Z) (map TreeModel.level (treeNodes t)).
Proof. unfold withinDepth. rewrite Forall_map. reflexivity. Qed.

Lemma withinDepth_jsonCopy (t : TreeNode) :
  withinDepth maxLevel t -> withinDepth maxLevel (jsonCopy t).
Proof. rewrite !withinDepth_levels, levels_jsonCopy. auto. Qed.

Lemma mapIndexed_Forall {A B : Type} (g : A -> nat -> B) (P : B -> Prop)
    (l : list A) (k : nat) :
  (forall a i, P (g a i)) -> Forall P (mapIndexed g k l).
Proof.
  intros H. revert k. induction l as [| a l IH]; intros k; simpl;
    constructor; auto.
Qed.

(** Generated children are leaves no deeper than [maxLevel]. *)
Lemma generated_shallow (t : TreeNode) (cs : list TreeNode) :
  generated t = Ok cs ->
  Forall (fun c => shallow c /\ children c = []) cs.
Proof.
  unfold generateChildrenForNode. destruct (nodeType t).
  - destruct (generateBaseFrequencies _ _ _ _) as [freqs | msg]; simpl;
      [| discriminate].
    intros [= <-]. apply mapIndexed_Forall. intros x i. simpl. split; [lia | reflexivity].
  - destruct (Z.ltb_spec (Z.of_nat maxLevel) (TreeModel.level t + 1)) as [Hlt | Hge].
    + intros [= <-]. constructor.
    + destruct (generateBaseFrequencies _ _ _ _) as [freqs | msg]; simpl;
        [| discriminate].
      intros [= <-]. apply mapIndexed_Forall. intros x i. simpl.
      split; [lia | reflexivity].
Qed.

Lemma leaves_nodes (cs : list TreeNode) :
  Forall (fun c => shallow c /\ children c = []) cs ->
  Forall (fun n => shallow n) (flat_map treeNodes cs).
Proof.
  induction 1 as [| c cs [Hc Hk] _ IH]; simpl; [constructor |].
  rewrite treeNodes_unfold, Hk. simpl. constructor; assumption.
Qed.

Lemma search_withinDepth (t : TreeNode) (targetId : string) :
  forall t', withinDepth maxLevel t -> search t targetId = Ok (Some t') ->
             withinDepth maxLevel t'.
Proof.
  induction t as [i nm v l ty ix bf pf ri cs IH] using tree_induction.
  intros t' Hin. rewrite search_unfold. cbn [id children].
  unfold withinDepth in Hin. rewrite treeNodes_unfold in Hin.
  cbn [children] in Hin. apply Forall_cons_iff in Hin.
  destruct Hin as [Hself Hkids].
  destruct (String.eqb i targetId).
  - destruct cs as [| c cs]; [| discriminate].
    destruct (generated (mkNode i nm v l ty ix bf pf ri [])) as [[| c1 cs1] | msg]
      eqn:Hg; simpl; try discriminate.
    intros [= <-]. unfold withinDepth. rewrite treeNodes_unfold.
    constructor; [exact Hself |]. apply leaves_nodes, (generated_shallow _ Hg).
  - destruct (updateFirst (fun c => search c targetId) cs) as [[r |] | msg]
      eqn:Hu; simpl; try discriminate.
    intros [= <-]. apply updateFirst_Some_inv in Hu.
    destruct Hu as [pre [c [c' [post [-> [-> [Hc _]]]]]]].
    unfold withinDepth. rewrite treeNodes_unfold.
    constructor; [exact Hself |]. cbn [children setChildren].
    rewrite flat_map_app in Hkids |- *. cbn [flat_map] in Hkids |- *.
    apply Forall_app in Hkids. destruct Hkids as [Hpre Hrest].
    apply Forall_app in Hrest. destruct Hrest as [Hc0 Hpost].
    apply Forall_app. split; [exact Hpre |].
    apply Forall_app. split; [| exact Hpost].
    rewrite Forall_forall in IH.
    apply (IH c (in_elt c pre post) c' Hc0 Hc).
Qed.

Lemma toggle_withinDepth (st st' : State) (nodeId : string) :
  withinDepth maxLevel (treeData st) -> toggle st nodeId = Ok st' ->
  withinDepth maxLevel (treeData st').
Proof.
  intros Hin. unfold toggleNode, TreeModel.expand.
  destruct (has (expandedNodes st) nodeId).
  - intros [= <-]. exact Hin.
  - destruct (search (jsonCopy (treeData st)) nodeId) as [[u |] | msg] eqn:Hs;
      simpl; try discriminate; intros [= <-]; simpl; [| exact Hin].
    eapply search_withinDepth; [apply withinDepth_jsonCopy, Hin | exact Hs].
Qed.

(** X13.  The tree never grows beyond [maxLevel]: in every state reached
    by clicks from the initial state, every node's level is at most
    [maxLevel]. *)
Theorem X13_depth_bound (f : float) (nodeIds : list string) (st : State) :
  clicked (initialState toFixed f) nodeIds = Ok st ->
  withinDepth maxLevel (treeData st).
Proof.
  assert (Hall : forall ids0 st0,
            withinDepth maxLevel (treeData st0) ->
            clicked st0 ids0 = Ok st -> withinDepth maxLevel (treeData st)).
  { induction ids0 as [| i rest IH]; intros st0 Hin; simpl.
    - intros [= <-]. exact Hin.
    - destruct (toggle st0 i) as [st1 | msg] eqn:Ht; simpl; [| discriminate].
      apply IH. eapply toggle_withinDepth; eassumption. }
  apply Hall. unfold withinDepth. cbn [initialState treeData createFrequencyTree
    treeNodes flat_map]. constructor; [cbn [TreeModel.level]; lia | constructor].
Qed.

(** X14.  Below the root a collapse does what its comment says: in a
    well-formed tree, collapsing a node other than the root removes from
    the expanded set the id of every node of that node's subtree. *)
Theorem X14_collapse_subtree (st : State) (nodeId : string) (n : TreeNode) :
  wellFormed (treeData st) -> nodeId <> "root"%string ->
  findNode (treeData st) nodeId = Some n ->
  Forall (fun x => has (expandedNodes (collapse st nodeId)) x = false) (ids n).
Proof.
  intros Hwf Hroot Hfind. apply Forall_forall. intros x Hx.
  eapply collapse_removes_subtree; eassumption.
Qed.

End TreeInvariants.

Section TreeInvariantExamples.

Import TreeModel Examples MoreExamples.

Lemma X12_reachable_ids_witness :
  wellFormed (treeData deep) /\ NoDup (ids (treeData deep)).
Proof.
  apply (@X12_reachable_ids noName 440%float 3 "harmonic" 2 None 440%float
           ["root"; "root"; "h0-1"; "h1-h0-1-0"]%string deep).
  vm_compute. reflexivity.
Defined.

Lemma X13_depth_bound_witness : withinDepth 2 (treeData deep).
Proof.
  apply (@X13_depth_bound noName 440%float 3 "harmonic" 2 None 440%float
           ["root"; "root"; "h0-1"; "h1-h0-1-0"]%string deep).
  vm_compute. reflexivity.
Defined.

Lemma X14_collapse_subtree_witness :
  Forall (fun x => has (expandedNodes (collapse deep "h0-1")) x = false)
         ["h0-1"; "h1-h0-1-0"; "h2-h1-h0-1-0-0"; "h2-h1-h0-1-0-1";
          "h2-h1-h0-1-0-2"; "h1-h0-1-1"; "h1-h0-1-2"]%string.
Proof.
  apply (@X14_collapse_subtree deep "h0-1"
           (match findNode (treeData deep) "h0-1" with
            | Some n => n
            | None => treeData deep
            end)).
  - vm_compute. repeat split.
  - discriminate.
  - vm_compute. reflexivity.
Defined.

End TreeInvariantExamples.

(** ** The collapse filter on the ids of a tree *)

Section FilterExact.

Import TreeModel Text.

Local Open Scope string_scope.

Lemma split_nonempty (sep : ascii) (s : string) : split sep s <> [].
Proof.
  induction s as [| c s IH]; simpl; [discriminate |].
  destruct (Ascii.eqb c sep); [discriminate |].
  destruct (split sep s); discriminate.
Qed.

Lemma split_append (sep : ascii) (a b : string) :
  split sep (a ++ String sep b) = (split sep a ++ split sep b)%list.
Proof.
  induction a as [| c a IH]; simpl.
  - now rewrite Ascii.eqb_refl.
  - destruct (Ascii.eqb c sep); [now rewrite IH |].
    rewrite IH. pose proof (split_nonempty sep a) as Hne.
    destruct (split sep a); [congruence | reflexivity].
Qed.

Lemma split_plain (s : string) : noDash s -> split "-" s = [s].
Proof.
  induction s as [| c s IH]; simpl; [reflexivity |].
  intros [Hc Hs]. destruct (Ascii.eqb_spec c "-"); [contradiction |].
  now rewrite IH.
Qed.

Lemma tags_cons (i : nat) (path : list nat) :
  tags (i :: path) = ("h" ++ showNat (List.length path)) :: tags path.
Proof.
  unfold tags. cbn [List.length]. rewrite seq_S, rev_app_distr. reflexivity.
Qed.

Lemma positions_cons (i : nat) (path : list nat) :
  positions (i :: path) = (positions path ++ [showNat i])%list.
Proof. unfold positions. cbn [rev]. now rewrite map_app. Qed.

(** The pieces of the id of a path. *)
Lemma split_idOfPath (path : list nat) :
  path <> [] ->
  split "-" (idOfPath path) = (tags path ++ positions path)%list.
Proof.
  induction path as [| i path IH]; [congruence |]. intros _.
  destruct path as [| j path].
  - change (idOfPath [i]) with ("h0" ++ String "-" (showNat i)).
    rewrite split_append, (@split_plain (showNat i) (noDash_showNat i)). reflexivity.
  - rewrite idOfPath_cons.
    change ("h" ++ showNat (List.length (j :: path)) ++ "-"
              ++ idOfPath (j :: path) ++ "-" ++ showNat i)
      with (("h" ++ showNat (List.length (j :: path)))
              ++ String "-" (idOfPath (j :: path) ++ String "-" (showNat i))).
    rewrite (tags_cons i (j :: path)), (positions_cons i (j :: path)).
    rewrite !split_append. rewrite IH by discriminate.
    rewrite (@split_plain (showNat i) (noDash_showNat i)), split_plain.
    + cbn [List.app]. now rewrite <- app_assoc.
    + split; [discriminate | apply noDash_showNat].
Qed.

Lemma tags_isTag (path : list nat) :
  Forall (fun s => isTag s = true) (tags path).
Proof. apply Forall_map, Forall_forall. reflexivity. Qed.

Lemma showNat_not_empty (n : nat) : showNat n <> "".
Proof.
  unfold showNat. intros H.
  assert (Hn : Some (Nat.to_uint n) = Some Decimal.Nil).
  { rewrite <- NilEmpty.usu, H. reflexivity. }
  injection Hn as Hn.
  pose proof (Unsigned.of_to n) as Hof. rewrite Hn in Hof. simpl in Hof.
  subst n. discriminate.
Qed.

Lemma showNat_not_tag (n : nat) : isTag (showNat n) = false.
Proof.
  pose proof (showNat_not_empty n) as Hne. unfold showNat in *.
  destruct (Nat.to_uint n); simpl in *; congruence.
Qed.

Lemma positions_not_tags (path : list nat) :
  Forall (fun s => isTag s = false) (positions path).
Proof. apply Forall_map, Forall_forall. intros n _. apply showNat_not_tag. Qed.

(** A list of tags followed by other pieces splits in one way only. *)
Lemma align_from_start (l1 l2 H D B : list string) :
  Forall (fun s => isTag s = true) l1 -> Forall (fun s => isTag s = false) l2 ->
  Forall (fun s => isTag s = true) H -> Forall (fun s => isTag s = false) D ->
  D <> [] ->
  (l1 ++ l2 = H ++ D ++ B)%list -> (l2 = D ++ B)%list.
Proof.
  revert H. induction l1 as [| a l1 IH]; intros H H1 H2 HH HD Hne Heq.
  - destruct H as [| h H]; [exact Heq |]. simpl in Heq. subst l2.
    apply Forall_inv in H2, HH. congruence.
  - destruct H as [| h H].
    + destruct D as [| d D]; [congruence |]. simpl in Heq.
      injection Heq as -> _. apply Forall_inv in H1, HD. congruence.
    + simpl in Heq. injection Heq as _ Heq.
      apply (IH H); auto; eapply Forall_inv_tail; eassumption.
Qed.

Lemma align_inside (A l1 l2 H D B : list string) :
  Forall (fun s => isTag s = true) l1 -> Forall (fun s => isTag s = false) l2 ->
  Forall (fun s => isTag s = true) H -> Forall (fun s => isTag s = false) D ->
  H <> [] -> D <> [] ->
  (l1 ++ l2 = A ++ H ++ D ++ B)%list -> (l2 = D ++ B)%list.
Proof.
  revert l1. induction A as [| a A IH]; intros l1 H1 H2 HH HD HneH HneD Heq.
  - apply (@align_from_start l1 l2 H D B); assumption.
  - destruct l1 as [| b l1].
    + exfalso. simpl in Heq. subst l2. destruct H as [| h H]; [congruence |].
      apply Forall_inv in HH. apply Forall_inv_tail in H2.
      apply Forall_app in H2. destruct H2 as [_ H2].
      apply Forall_inv in H2. congruence.
    + simpl in Heq. injection Heq as _ Heq.
      apply (IH l1); auto. eapply Forall_inv_tail; eassumption.
Qed.

Lemma map_showNat_inj (l l' : list nat) :
  map showNat l = map showNat l' -> l = l'.
Proof.
  revert l'. induction l as [| n l IH]; intros [| n' l'] H; simpl in H;
    try discriminate; [reflexivity |].
  injection H as Hn Hl. apply showNat_inj in Hn. f_equal; auto.
Qed.

(** The positions of one path start with the positions of another exactly
    when the first path extends the second. *)
Lemma positions_extend (p q : list nat) (B : list string) :
  (positions q = positions p ++ B)%list -> exists q', q = (q' ++ p)%list.
Proof.
  unfold positions. intros H.
  assert (Hsplit : rev q = (firstn (List.length p) (rev q)
                            ++ skipn (List.length p) (rev q))%list)
    by (symmetry; apply firstn_skipn).
  assert (Hfirst : firstn (List.length p) (rev q) = rev p).
  { apply map_showNat_inj. rewrite <- firstn_map, H.
    rewrite firstn_app, length_map, length_rev, Nat.sub_diag. cbn [firstn].
    rewrite app_nil_r. apply firstn_all2. rewrite length_map, length_rev. lia. }
  rewrite Hfirst in Hsplit. exists (rev (skipn (List.length p) (rev q))).
  apply (f_equal (@rev nat)) in Hsplit.
  rewrite rev_involutive, rev_app_distr, rev_involutive in Hsplit.
  exact Hsplit.
Qed.

Lemma prefix_inv (p s : string) :
  String.prefix p s = true -> exists b, s = p ++ b.
Proof.
  revert s. induction p as [| c p IH]; intros s H.
  - exists s. reflexivity.
  - destruct s as [| c' s]; simpl in H; [discriminate |].
    destruct (ascii_dec c c') as [<- | _]; [| discriminate].
    destruct (IH s H) as [b ->]. exists b. reflexivity.
Qed.

Lemma includes_inv (s p : string) :
  includes s p = true -> exists a b, s = a ++ p ++ b.
Proof.
  induction s as [| c s IH]; cbn [includes]; intros H;
    apply orb_true_iff in H.
  - destruct H as [H | H]; [| discriminate].
    apply prefix_inv in H. destruct H as [b H]. exists "", b. exact H.
  - destruct H as [H | H].
    + apply prefix_inv in H. destruct H as [b H]. exists "", b. exact H.
    + destruct (IH H) as [a [b ->]]. exists (String c a), b. reflexivity.
Qed.

Lemma positions_nonempty (p : list nat) : p <> [] -> positions p <> [].
Proof.
  destruct p as [| i p]; [congruence |]. intros _.
  rewrite positions_cons. destruct (positions p); discriminate.
Qed.

Lemma tags_nonempty (p : list nat) : p <> [] -> tags p <> [].
Proof. destruct p as [| i p]; [congruence |]. rewrite tags_cons. discriminate. Qed.

(** What the filter selects among the ids of paths. *)
Lemma removedBy_inv (p q : list nat) :
  p <> [] -> q <> [] ->
  removedBy (idOfPath p) (idOfPath q) = true -> exists q', q = (q' ++ p)%list.
Proof.
  intros Hp Hq H. unfold removedBy, startsWith in H.
  apply orb_true_iff in H. destruct H as [H | H];
    [apply orb_true_iff in H; destruct H as [H | H] |].
  - apply String.eqb_eq in H. apply idOfPath_inj in H; auto.
    exists []. now subst.
  - apply prefix_inv in H. destruct H as [b Hb].
    assert (Hpieces : split "-" (idOfPath q)
                      = (split "-" (idOfPath p) ++ split "-" b)%list).
    { rewrite Hb, append_assoc. apply split_append. }
    rewrite !split_idOfPath in Hpieces by assumption.
    rewrite <- app_assoc in Hpieces.
    apply align_from_start in Hpieces;
      auto using tags_isTag, positions_not_tags, positions_nonempty.
    eapply positions_extend, Hpieces.
  - apply includes_inv in H. destruct H as [a [b Hb]].
    assert (Hpieces : split "-" (idOfPath q)
                      = (split "-" a ++ split "-" (idOfPath p)
                           ++ split "-" b)%list).
    { rewrite Hb.
      replace (a ++ ("-" ++ idOfPath p ++ "-") ++ b)
        with (a ++ String "-" (idOfPath p ++ String "-" b)).
      - now rewrite !split_append.
      - cbn [String.append]. now rewrite append_assoc. }
    rewrite !split_idOfPath in Hpieces by assumption.
    rewrite <- (app_assoc (tags p)) in Hpieces.
    apply align_inside in Hpieces;
      auto using tags_isTag, positions_not_tags, positions_nonempty,
        tags_nonempty.
    eapply positions_extend, Hpieces.
Qed.

(** X15.  On the ids of a tree the collapse filter is exact below the
    root: for the node at a path [p] it selects the id of the node at a
    path [q] exactly when [q] extends [p], that is for the node itself and
    its descendants and for no other node; it never selects [root]. *)
Theorem X15_filter_exact (p q : list nat) :
  p <> [] -> q <> [] ->
  (removedBy (idOfPath p) (idOfPath q) = true
   <-> exists q', q = (q' ++ p)%list)
  /\ removedBy (idOfPath p) "root" = false.
Proof.
  intros Hp Hq. split; [split |].
  - apply removedBy_inv; assumption.
  - intros [q' ->]. apply removedBy_extension, Hp.
  - destruct p as [| i [| j p]]; [congruence | reflexivity |].
    rewrite idOfPath_cons. reflexivity.
Qed.

Lemma X15_filter_exact_witness :
  (removedBy (idOfPath [1]) (idOfPath [0; 1]) = true
   <-> exists q', [0; 1] = (q' ++ [1])%list)
  /\ removedBy (idOfPath [1]) "root" = false.
Proof. apply (@X15_filter_exact [1] [0; 1]); discriminate. Defined.

End FilterExact.

(** ** The layout pass *)

Section LayoutFrame.

Import TreeModel LayoutEngine.

Local Open Scope Q_scope.

Lemma setXY_twice (a b c d : Q) (n : NodeInfo) :
  setXY a b (setXY c d n) = setXY a b n.
Proof. reflexivity. Qed.

Lemma update_fields (i : nat) (nx ny : Q) (st : list NodeInfo) :
  map (setXY 0 0) (update i (setXY nx ny) st) = map (setXY 0 0) st.
Proof.
  revert i. induction st as [| n st IH]; intros [| i]; simpl;
    try reflexivity; now rewrite IH.
Qed.

Lemma placeSiblings_fields (g : list nat) (k : nat) (gx startY ns : Q)
    (st : list NodeInfo) :
  map (setXY 0 0) (placeSiblings g k gx startY ns st) = map (setXY 0 0) st.
Proof.
  revert k st. induction g as [| i g IH]; intros k st; simpl; [reflexivity |].
  now rewrite IH, update_fields.
Qed.

Lemma placeGroup_fields (ns gs : Q) (c : Cursor) (g : list nat) :
  map (setXY 0 0) (store (placeGroup ns gs c g)) = map (setXY 0 0) (store c).
Proof.
  unfold placeGroup. destruct g as [| first rest]; [reflexivity |].
  destruct (parent (get (store c) first)); [| reflexivity].
  cbn [store]. apply placeSiblings_fields.
Qed.

Lemma placeLevel_fields (nodes : list NodeInfo) (ns gs : Q)
    (st : list NodeInfo) (level : Z) :
  map (setXY 0 0) (placeLevel nodes ns gs st level) = map (setXY 0 0) st.
Proof.
  unfold placeLevel. destruct (level =? -1)%Z; [reflexivity |].
  generalize (siblingGroups nodes level).
  assert (H : forall groups c,
            map (setXY 0 0) (store (fold_left (placeGroup ns gs) groups c))
            = map (setXY 0 0) (store c)).
  { induction groups as [| g groups IH]; intros c; simpl; [reflexivity |].
    now rewrite IH, placeGroup_fields. }
  intros groups. apply H.
Qed.

Lemma positionRoot_fields (nodes : list NodeInfo) :
  map (setXY 0 0) (positionRoot nodes) = map (setXY 0 0) nodes.
Proof.
  unfold positionRoot.
  destruct (findRoot nodes 0); [apply update_fields | reflexivity].
Qed.

Lemma levels_fields (nodes : list NodeInfo) (ns gs : Q) (todo : list Z)
    (st : list NodeInfo) :
  map (setXY 0 0) (fold_left (placeLevel nodes ns gs) todo st)
  = map (setXY 0 0) st.
Proof.
  revert st. induction todo as [| l todo IH]; intros st; simpl;
    [reflexivity |].
  now rewrite IH, placeLevel_fields.
Qed.

(** X19.  The layout pass writes coordinates and nothing else: it returns
    as many nodes as it was given, in the same order, each with its id,
    name, value, type, level, flags and parent reference unchanged. *)
Theorem X19_layout_keeps_fields (nodes : list NodeInfo) :
  map (setXY 0 0) (calculatePositions nodes) = map (setXY 0 0) nodes
  /\ List.length (calculatePositions nodes) = List.length nodes.
Proof.
  assert (H : map (setXY 0 0) (calculatePositions nodes)
              = map (setXY 0 0) nodes).
  { unfold calculatePositions.
    now rewrite levels_fields, positionRoot_fields. }
  split; [exact H |].
  apply (f_equal (@List.length NodeInfo)) in H. now rewrite !length_map in H.
Qed.

(** X20.  The spacings stay in their ranges and shrink with the number of
    visible frequency nodes: node spacing lies in [20, 50] and group
    spacing in [10, 40], always 10 below the node spacing; with no
    frequency node visible they are 50 and 40, and from 60 visible
    frequency nodes on they are 20 and 10. *)
Theorem X20_spacing_bounds (nodes : list NodeInfo) :
  20 <= nodeSpacing nodes <= 50
  /\ 10 <= groupSpacing nodes <= 40
  /\ groupSpacing nodes == nodeSpacing nodes - 10
  /\ (totalNodes nodes = 0%nat -> nodeSpacing nodes == 50)
  /\ ((60 <= totalNodes nodes)%nat -> nodeSpacing nodes == 20).
Proof.
  assert (H0 : 0 <= nodeSpacingFactor nodes) by apply Q.le_max_l.
  assert (H1 : nodeSpacingFactor nodes <= 1).
  { unfold nodeSpacingFactor. apply Q.max_lub; [lra | apply Q.le_min_l]. }
  unfold nodeSpacing, groupSpacing, minNodeSpacing, maxNodeSpacing,
    minGroupSpacing, maxGroupSpacing.
  split; [lra |]. split; [lra |]. split; [lra |]. split.
  - intros Hn.
    assert (Hf : nodeSpacingFactor nodes == 1).
    { unfold nodeSpacingFactor. rewrite Hn. reflexivity. }
    rewrite Hf. reflexivity.
  - intros Hn.
    assert (Hf : nodeSpacingFactor nodes == 0).
    { apply Qle_antisym; [| exact H0]. unfold nodeSpacingFactor.
      apply Q.max_lub; [lra |].
      eapply Qle_trans; [apply Q.le_min_r |].
      assert (Hc : 60 <= ofCount (totalNodes nodes)).
      { change 60 with (ofCount 60). apply ofCount_le, Hn. }
      apply Qle_shift_div_r; lra. }
    rewrite Hf. reflexivity.
Qed.

Lemma update_Forall (P : NodeInfo -> Prop) (i : nat) (f : NodeInfo -> NodeInfo)
    (st : list NodeInfo) :
  (forall n, P n -> P (f n)) -> Forall P st -> Forall P (update i f st).
Proof.
  intros Hf. revert i. induction st as [| n st IH]; intros [| i] H; simpl;
    try exact H; apply Forall_cons_iff in H; destruct H as [Hn Hst];
    constructor; auto.
Qed.

Lemma placeSiblings_top (g : list nat) (k : nat) (gx startY ns : Q)
    (st : list NodeInfo) :
  0 < ns -> -500 <= startY ->
  Forall (fun n => -500 <= y n) st ->
  Forall (fun n => -500 <= y n) (placeSiblings g k gx startY ns st).
Proof.
  intros Hns Hs. revert k st. induction g as [| i g IH]; intros k st H; simpl;
    [exact H |].
  apply IH. apply update_Forall; [| exact H]. intros n _. cbn [y setXY].
  pose proof (ofCount_nonneg k) as Hk.
  assert (0 <= ofCount k * ns) by (apply Qmult_le_0_compat; lra). lra.
Qed.

(** X22.  No node is placed above the absolute top: every [y] the layout
    pass leaves on the visible nodes of a state is at least -500. *)
Theorem X22_layout_top (st : State) :
  Forall (fun n => -500 <= y n) (calculatePositions (visibleNodes st)).
Proof.
  set (nodes := visibleNodes st).
  assert (Hstart : Forall (fun n => -500 <= y n) nodes).
  { unfold nodes, visibleNodes.
    assert (Hall : forall node result parentRef,
              Forall (fun n => -500 <= y n) result ->
              Forall (fun n => -500 <= y n)
                (getVisibleNodes (expandedNodes st) node result parentRef)).
    { induction node as [i nm v l ty ix bf pf ri cs IH] using tree_induction.
      intros result parentRef Hres. cbn [getVisibleNodes].
      assert (Hown : Forall (fun n => -500 <= y n)
                (result ++ [mkInfo i nm v ty l (nonEmpty cs)
                              (has (expandedNodes st) i) parentRef 0 0])).
      { apply Forall_app. split; [exact Hres |]. repeat constructor.
        cbn [y]. lra. }
      destruct (has (expandedNodes st) i && nonEmpty cs)%bool; [| exact Hown].
      revert Hown. generalize (result ++ [mkInfo i nm v ty l (nonEmpty cs)
                              (has (expandedNodes st) i) parentRef 0 0]).
      induction IH as [| c cs' Hc _ IHcs]; intros acc Hacc; [exact Hacc |].
      apply IHcs, Hc, Hacc. }
    apply Hall. constructor. }
  unfold calculatePositions.
  assert (Hroot : Forall (fun n => -500 <= y n) (positionRoot nodes)).
  { unfold positionRoot. destruct (findRoot nodes 0); [| exact Hstart].
    apply update_Forall; [| exact Hstart]. intros info _. cbn [y setXY]. lra. }
  revert Hroot. generalize (positionRoot nodes).
  induction (levelsOf nodes) as [| l levels IH]; intros s Hs; [exact Hs |].
  simpl. apply IH. unfold placeLevel. destruct (l =? -1)%Z; [exact Hs |].
  assert (Hgroups : forall groups c,
            -10 <= globalY c -> Forall (fun n => -500 <= y n) (store c) ->
            Forall (fun n => -500 <= y n)
              (store (fold_left (placeGroup (nodeSpacing nodes)
                                   (groupSpacing nodes)) groups c))).
  { induction groups as [| g groups IHg]; intros c Hc Hst; [exact Hst |].
    simpl. unfold placeGroup at 2. destruct g as [| first rest];
      [apply IHg; assumption |].
    destruct (parent (get (store c) first)) as [p |];
      [| apply IHg; assumption].
    apply IHg; cbn [store globalY].
    - eapply Qle_trans; [exact Hc | apply Q.le_max_l].
    - apply placeSiblings_top; [apply nodeSpacing_pos | | exact Hst].
      destruct (isFirstGroup c).
      + apply Q.le_max_l.
      + eapply Qle_trans; [| apply Q.le_max_l]. lra. }
  apply Hgroups; [cbn [globalY]; lra | exact Hs].
Qed.

End LayoutFrame.

(** ** The visible nodes *)

Section VisibleLinks.

Import TreeModel LayoutEngine.

Lemma stepsDown_unfold (t : TreeNode) :
  stepsDown t
  <-> Forall (fun c => TreeModel.level c = (TreeModel.level t + 1)%Z)
             (children t)
      /\ Forall stepsDown (children t).
Proof.
  unfold stepsDown. destruct t as [i nm v l ty ix bf pf ri cs].
  cbn [treeNodes children TreeModel.level].
  rewrite Forall_cons_iff, Forall_flat_map. cbn [children TreeModel.level].
  reflexivity.
Qed.

Lemma wellFormedKids_steps (path : list nat) (cs : list TreeNode) :
  Forall (fun c => forall p, wellFormedAt p c -> stepsDown c) cs ->
  forall k, wellFormedKids path k cs ->
    Forall (fun c => TreeModel.level c = Z.of_nat (List.length path)) cs
    /\ Forall stepsDown cs.
Proof.
  induction 1 as [| c cs Hc _ IH]; intros k Hk; [split; constructor |].
  destruct Hk as [Hwc Hwk]. destruct (IH _ Hwk) as [H1 H2].
  split; constructor; auto.
  - apply wellFormedAt_unfold in Hwc. destruct Hwc as [_ [Hl _]].
    rewrite Hl. cbn [List.length]. lia.
  - eapply Hc, Hwc.
Qed.

Lemma wellFormedAt_stepsDown (n : TreeNode) :
  forall path, wellFormedAt path n -> stepsDown n.
Proof.
  induction n as [i nm v l ty ix bf pf ri cs IH] using tree_induction.
  intros path Hwf. apply wellFormedAt_unfold in Hwf.
  cbn [id TreeModel.level nodeType children] in Hwf.
  destruct Hwf as [_ [Hl [_ Hkids]]].
  destruct (@wellFormedKids_steps path cs IH 0 Hkids) as [H1 H2].
  apply stepsDown_unfold. cbn [children TreeModel.level]. split; [| exact H2].
  eapply Forall_impl; [| exact H1]. intros c Hc. cbv beta in Hc |- *. lia.
Qed.

Lemma wellFormed_stepsDown (t : TreeNode) : wellFormed t -> stepsDown t.
Proof.
  intros [_ [Hl [_ Hkids]]].
  assert (Hall : Forall (fun c => forall p, wellFormedAt p c -> stepsDown c)
                        (children t)).
  { apply Forall_forall. intros c _. apply wellFormedAt_stepsDown. }
  destruct (@wellFormedKids_steps [] (children t) Hall 0 Hkids) as [H1 H2].
  apply stepsDown_unfold. split; [| exact H2].
  eapply Forall_impl; [| exact H1]. intros c Hc. cbv beta in Hc |- *.
  rewrite Hc, Hl. reflexivity.
Qed.

Lemma linked_single (start : nat) (info : NodeInfo) : linked start [info].
Proof. intros k n H. destruct k; discriminate. Qed.

(** A run grows by the run of one more child of its first node. *)
Lemma linked_grow (start : nat) (a h : NodeInfo) (l1 t : list NodeInfo) :
  linked start (a :: l1) ->
  parent h = Some start -> nlevel h = (nlevel a + 1)%Z ->
  isExpanded a = true -> hasChildren a = true ->
  linked (start + S (List.length l1)) (h :: t) ->
  linked start (a :: l1 ++ h :: t).
Proof.
  intros Hold Hp Hl He Hc Hnew k n Hk.
  change (a :: l1 ++ h :: t) with ((a :: l1) ++ h :: t) in *.
  destruct (Nat.lt_ge_cases (S k) (List.length (a :: l1))) as [Hlt | Hge].
  - rewrite nth_error_app1 in Hk by exact Hlt.
    destruct (Hold k n Hk) as [p [m [H1 [H2 [H3 H4]]]]].
    exists p, m. repeat split; try tauto.
    rewrite nth_error_app1; [exact H3 | simpl in *; lia].
  - rewrite nth_error_app2 in Hk by exact Hge.
    destruct (S k - List.length (a :: l1)) as [| k'] eqn:Ek.
    + injection Hk as <-. exists 0, a. rewrite Nat.add_0_r.
      repeat split; auto. lia.
    + destruct (Hnew k' n Hk) as [p [m [H1 [H2 [H3 H4]]]]].
      exists (List.length (a :: l1) + p), m. repeat split; try tauto.
      * rewrite H1. f_equal. simpl. lia.
      * simpl in *. lia.
      * rewrite nth_error_app2 by lia.
        now replace (List.length (a :: l1) + p - List.length (a :: l1)) with p
          by lia.
Qed.

Variable expanded : list string.

Lemma getVisibleNodes_linked (node : TreeNode) :
  forall (result : list NodeInfo) (parentRef : option nat),
    stepsDown node ->
    exists info news,
      getVisibleNodes expanded node result parentRef = result ++ info :: news
      /\ parent info = parentRef
      /\ nlevel info = TreeModel.level node
      /\ nid info = id node
      /\ nnodeType info = nodeType node
      /\ linked (List.length result) (info :: news).
Proof.
  induction node as [i nm v l ty ix bf pf ri cs IH] using tree_induction.
  intros result parentRef Hsteps.
  apply stepsDown_unfold in Hsteps. cbn [children TreeModel.level] in Hsteps.
  destruct Hsteps as [Hlevels Hkids].
  cbn [getVisibleNodes TreeModel.level id nodeType].
  set (info := mkInfo i nm v ty l (nonEmpty cs) (has expanded i) parentRef 0 0).
  destruct (has expanded i && nonEmpty cs)%bool eqn:Hopen.
  2:{ exists info, []. repeat split. apply linked_single. }
  apply andb_true_iff in Hopen. destruct Hopen as [Hexp Hne].
  assert (Heach : forall kids done,
    Forall (fun c => forall result parentRef,
              stepsDown c ->
              exists info news,
                getVisibleNodes expanded c result parentRef
                = result ++ info :: news
                /\ parent info = parentRef
                /\ nlevel info = TreeModel.level c
                /\ nid info = id c
                /\ nnodeType info = nodeType c
                /\ linked (List.length result) (info :: news)) kids ->
    Forall (fun c => TreeModel.level c = (l + 1)%Z) kids ->
    Forall stepsDown kids ->
    linked (List.length result) (info :: done) ->
    exists news,
      (fix each (l : list TreeNode) (acc : list NodeInfo) : list NodeInfo :=
         match l with
         | [] => acc
         | child :: l' =>
             each l' (getVisibleNodes expanded child acc
                        (Some (List.length result)))
         end) kids (result ++ info :: done) = result ++ info :: news
      /\ linked (List.length result) (info :: news)).
  { induction kids as [| c kids IHk]; intros done Hk Hl Hs Hdone.
    - exists done. auto.
    - apply Forall_cons_iff in Hk, Hl, Hs.
      destruct Hk as [Hc Hk], Hl as [Hcl Hl], Hs as [Hcs Hs].
      destruct (Hc (result ++ info :: done) (Some (List.length result)) Hcs)
        as [ci [cn [Heq [Hp [Hlev [_ [_ Hlinked]]]]]]].
      rewrite Heq, <- app_assoc. cbn [List.app].
      apply (IHk (done ++ ci :: cn) Hk Hl Hs).
      apply linked_grow; auto.
      + rewrite Hlev, Hcl. reflexivity.
      + rewrite length_app in Hlinked. cbn [List.length] in Hlinked.
        exact Hlinked. }
  destruct (Heach cs [] IH Hlevels Hkids (linked_single _ info))
    as [news [Heq Hlinked]].
  exists info, news. change (result ++ [info]) with (result ++ info :: []).
  rewrite Heq. repeat split. exact Hlinked.
Qed.

End VisibleLinks.

Lemma visible_links_shape (st : TreeModel.State) :
  wellFormed (TreeModel.treeData st) ->
  exists info news,
    LayoutEngine.visibleNodes st = info :: news
    /\ LayoutEngine.nid info = "root"%string
    /\ LayoutEngine.nlevel info = (-1)%Z
    /\ LayoutEngine.nnodeType info = TreeModel.root
    /\ LayoutEngine.parent info = None
    /\ linked 0 (info :: news).
Proof.
  intros Hwf. unfold LayoutEngine.visibleNodes.
  destruct (@getVisibleNodes_linked (TreeModel.expandedNodes st)
              (TreeModel.treeData st) [] None (wellFormed_stepsDown Hwf))
    as [info [news [Heq [Hp [Hl [Hi [Ht Hlinked]]]]]]].
  destruct Hwf as [Hid [Hlevel [Hty _]]].
  exists info, news. rewrite Heq.
  split; [reflexivity |]. split; [congruence |]. split; [congruence |].
  split; [congruence |]. split; [exact Hp | exact Hlinked].
Qed.

(** X24.  The visible nodes of a well-formed tree form a tree of
    references: the list starts with the root, which refers to no parent,
    and every other entry refers to an entry earlier in the list that is
    expanded, has children and sits exactly one level up. *)
Theorem X24_visible_links (st : TreeModel.State) :
  wellFormed (TreeModel.treeData st) ->
  exists info news,
    LayoutEngine.visibleNodes st = info :: news
    /\ LayoutEngine.nid info = "root"%string
    /\ LayoutEngine.nlevel info = (-1)%Z
    /\ LayoutEngine.nnodeType info = TreeModel.root
    /\ LayoutEngine.parent info = None
    /\ linked 0 (info :: news).
Proof. apply visible_links_shape. Qed.

Lemma X24_visible_links_witness :
  exists info news,
    LayoutEngine.visibleNodes MoreExamples.deep = info :: news
    /\ LayoutEngine.nid info = "root"%string
    /\ LayoutEngine.nlevel info = (-1)%Z
    /\ LayoutEngine.nnodeType info = TreeModel.root
    /\ LayoutEngine.parent info = None
    /\ linked 0 (info :: news).
Proof.
  apply (@X24_visible_links MoreExamples.deep). vm_compute. repeat split.
Defined.

(** ** Columns *)

Section Columns.

Import TreeModel LayoutEngine.

Local Open Scope Q_scope.

Lemma placeSiblings_x (g : list nat) (k : nat) (gx startY ns : Q)
    (st : list NodeInfo) (i : nat) :
  In i g -> (i < List.length st)%nat ->
  x (get (placeSiblings g k gx startY ns st) i) = gx.
Proof.
  revert k st. induction g as [| a g IH]; intros k st Hi Hlt; [contradiction |].
  cbn [placeSiblings].
  destruct (in_dec Nat.eq_dec i g) as [Hin | Hout].
  - apply IH; [exact Hin | now rewrite length_update].
  - destruct Hi as [-> | Hi]; [| contradiction].
    rewrite placeSiblings_other by exact Hout.
    now rewrite get_update_same by exact Hlt.
Qed.

Lemma insertLevel_sorted (l : Z) (ls : list Z) :
  StronglySorted Z.lt ls -> StronglySorted Z.lt (insertLevel l ls).
Proof.
  induction 1 as [| k ls Hs IH Hk]; simpl; [repeat constructor |].
  destruct (Z.ltb_spec l k) as [Hlt | Hge].
  - constructor; [constructor; assumption |].
    constructor; [exact Hlt |].
    eapply Forall_impl; [| exact Hk]. intros z Hz. cbv beta in Hz. lia.
  - destruct (Z.eqb_spec l k) as [-> | Hne]; [constructor; assumption |].
    constructor; [exact IH |].
    apply Forall_forall. intros z Hz. apply in_insertLevel in Hz.
    destruct Hz as [-> | Hz]; [lia |].
    rewrite Forall_forall in Hk. apply Hk, Hz.
Qed.

Lemma levelsOf_sorted (nodes : list NodeInfo) :
  StronglySorted Z.lt (levelsOf nodes).
Proof.
  unfold levelsOf.
  assert (H : forall l acc, StronglySorted Z.lt acc ->
            StronglySorted Z.lt
              (fold_left (fun acc n => insertLevel (nlevel n) acc) l acc)).
  { induction l as [| n l IH]; intros acc Hacc; [exact Hacc |].
    simpl. apply IH, insertLevel_sorted, Hacc. }
  apply H. constructor.
Qed.

Variable nodes : list NodeInfo.

(** The shape of the visible nodes of a well-formed tree. *)
Hypothesis Hfirst : exists info news,
  nodes = info :: news /\ nlevel info = (-1)%Z /\ nnodeType info = root
  /\ linked 0 (info :: news).

Lemma nodes_parent (i : nat) :
  (0 < i < List.length nodes)%nat ->
  exists p, (p < i)%nat /\ parent (get nodes i) = Some p
            /\ nlevel (get nodes i) = (nlevel (get nodes p) + 1)%Z.
Proof.
  destruct Hfirst as [info [news [Hn [_ [_ Hlinked]]]]]. intros [Hpos Hlt].
  destruct i as [| k]; [lia |].
  assert (Hk : nth_error nodes (S k) = Some (get nodes (S k))).
  { unfold get. apply nth_error_nth'. exact Hlt. }
  rewrite Hn in Hk. destruct (Hlinked k _ Hk) as [p [m [H1 [H2 [H3 [H4 _]]]]]].
  rewrite <- Hn in *. exists p. split; [lia |]. split; [exact H1 |].
  unfold get at 2. now rewrite (nth_error_nth _ _ blank H3).
Qed.

Lemma nodes_root_level : nlevel (get nodes 0) = (-1)%Z.
Proof. destruct Hfirst as [info [news [-> [H _]]]]. exact H. Qed.

Lemma nodes_levels (i : nat) :
  (0 < i < List.length nodes)%nat -> (0 <= nlevel (get nodes i))%Z.
Proof.
  induction i as [i IH] using lt_wf_ind. intros Hi.
  destruct (nodes_parent Hi) as [p [Hp [_ Hl]]]. rewrite Hl.
  destruct p as [| p]; [rewrite nodes_root_level; lia |].
  assert (0 <= nlevel (get nodes (S p)))%Z by (apply IH; lia). lia.
Qed.

Lemma nodes_findRoot : findRoot nodes 0 = Some 0%nat.
Proof.
  destruct Hfirst as [info [news [-> [_ [H _]]]]]. simpl. now rewrite H.
Qed.

Variables (ns gs : Q).

(** One level's pass puts every node of the level one column to the right
    of the nodes one level up, and leaves the other nodes alone. *)
Lemma placeLevel_column (s : list NodeInfo) (level : Z) (X : Q) :
  level <> (-1)%Z -> sameShape s nodes ->
  (forall j, (j < List.length nodes)%nat ->
             nlevel (get nodes j) = (level - 1)%Z -> x (get s j) == X) ->
  forall i, (i < List.length nodes)%nat -> nlevel (get nodes i) = level ->
            x (get (placeLevel nodes ns gs s level) i) == X + 250.
Proof.
  intros Hl Hshape Hprev. unfold placeLevel.
  destruct (Z.eqb_spec level (-1)) as [| _]; [contradiction |].
  assert (Hpass : forall todo done c,
    (forall g, In g todo -> In g (siblingGroups nodes level)) ->
    sameShape (store c) nodes ->
    (forall j, nlevel (get nodes j) <> level -> get (store c) j = get s j) ->
    (forall g i, In g done -> In i g -> x (get (store c) i) == X + 250) ->
    let c' := fold_left (placeGroup ns gs) todo c in
    forall g i, In g (done ++ todo) -> In i g ->
                x (get (store c') i) == X + 250).
  { induction todo as [| g todo IH]; intros done c Hsub Hsh Hframe Hdone.
    - cbv zeta. intros g i Hg. rewrite app_nil_r in Hg. simpl. eauto.
    - cbv zeta. intros g' i Hg' Hi. cbn [fold_left].
      assert (Hmembers : forall j, In j g ->
                (j < List.length nodes)%nat /\ nlevel (get nodes j) = level).
      { intros j Hj. apply (@in_siblingGroups nodes level g j); [| exact Hj].
        apply Hsub. now left. }
      replace (done ++ g :: todo) with ((done ++ [g]) ++ todo) in Hg'
        by (now rewrite <- app_assoc).
      apply (IH (done ++ [g]) (placeGroup ns gs c g)) with (g := g'); auto.
      + intros g0 Hg0. apply Hsub. now right.
      + unfold placeGroup. destruct g as [| first rest]; [exact Hsh |].
        destruct (parent (get (store c) first)); [| exact Hsh].
        cbn [store]. eapply sameShape_trans; [apply placeSiblings_shape |].
        exact Hsh.
      + intros j Hj. unfold placeGroup. destruct g as [| first rest]; [auto |].
        destruct (parent (get (store c) first)); [| auto].
        cbn [store]. rewrite placeSiblings_other; [auto |].
        intros Hin. apply Hmembers in Hin. tauto.
      + intros g0 j Hg0 Hj.
        assert (Hkeep : (forall g1, In g1 done -> In j g1 ->
                           x (get (store c) j) == X + 250) ->
                        In g0 done ->
                        x (get (store c) j) == X + 250) by eauto.
        unfold placeGroup. destruct g as [| first rest].
        { apply in_app_or in Hg0. destruct Hg0 as [Hg0 | [<- | []]];
            [eauto | contradiction]. }
        destruct (Hmembers first (or_introl eq_refl)) as [Hflt Hflev].
        assert (Hfpos : (0 < first < List.length nodes)%nat).
        { split; [| exact Hflt]. destruct first; [| lia].
          rewrite nodes_root_level in Hflev. congruence. }
        destruct (nodes_parent Hfpos) as [p [Hp [Hpar Hplev]]].
        assert (Hpar' : parent (get (store c) first) = Some p).
        { destruct Hsh as [_ Hsh]. destruct (Hsh first) as [-> _]. exact Hpar. }
        rewrite Hpar'. cbn [store].
        assert (Hgx : x (get (store c) p) + horizontalSpacing == X + 250).
        { rewrite Hframe by lia. unfold horizontalSpacing.
          rewrite (Hprev p) by lia. reflexivity. }
        destruct (in_dec Nat.eq_dec j (first :: rest)) as [Hin | Hout].
        * rewrite placeSiblings_x; [exact Hgx | exact Hin |].
          destruct Hsh as [-> _]. apply Hmembers, Hin.
        * rewrite placeSiblings_other by exact Hout.
          apply in_app_or in Hg0. destruct Hg0 as [Hg0 | [<- | []]];
            [eauto | contradiction]. }
  intros i Hi Hlev.
  assert (Hin : In i (List.concat (siblingGroups nodes level))).
  { eapply Permutation_in; [symmetry; apply siblingGroups_members |].
    apply in_levelNodes. auto. }
  apply in_concat in Hin. destruct Hin as [g [Hg Hig]].
  apply (Hpass (siblingGroups nodes level) [] (mkCursor s (-10) true))
    with (g := g); auto.
  intros g0 j [].
Qed.

End Columns.

Section ColumnFold.

Import TreeModel LayoutEngine.

Local Open Scope Q_scope.

Variable nodes : list NodeInfo.

Hypothesis Hfirst : exists info news,
  nodes = info :: news /\ nlevel info = (-1)%Z /\ nnodeType info = root
  /\ linked 0 (info :: news).

Local Notation "'ns'" := (nodeSpacing nodes).
Local Notation "'gs'" := (groupSpacing nodes).

Lemma columnOf_next (l : Z) : columnOf (l - 1) + 250 == columnOf l.
Proof.
  unfold columnOf. replace (l + 1)%Z with ((l - 1 + 1) + 1)%Z by lia.
  rewrite (inject_Z_plus (l - 1 + 1) 1). change (inject_Z 1) with 1. ring.
Qed.

Lemma columnOf_root : columnOf (-1) == 50.
Proof. reflexivity. Qed.

Lemma nodes_nonempty : (0 < List.length nodes)%nat.
Proof. destruct Hfirst as [info [news [-> _]]]. simpl. lia. Qed.

Lemma columns_fold (todo : list Z) (s : list NodeInfo) :
  sameShape s nodes -> StronglySorted Z.lt todo ->
  x (get s 0) == 50 ->
  (forall j, (j < List.length nodes)%nat ->
             ~ In (nlevel (get nodes j)) todo ->
             x (get s j) == columnOf (nlevel (get nodes j))) ->
  get (fold_left (placeLevel nodes ns gs) todo s) 0 = get s 0
  /\ forall j, (j < List.length nodes)%nat ->
       x (get (fold_left (placeLevel nodes ns gs) todo s) j)
       == columnOf (nlevel (get nodes j)).
Proof.
  revert s. induction todo as [| l todo IH]; intros s Hshape Hsorted Hroot Hinv.
  - split; [reflexivity |]. intros j Hj. apply Hinv; auto.
  - cbn [fold_left]. inversion Hsorted as [| ? ? Htail Hall]; subst.
    rewrite Forall_forall in Hall.
    assert (Hframe0 : get (placeLevel nodes ns gs s l) 0 = get s 0).
    { destruct (Z.eq_dec l (-1)) as [-> | Hne]; [reflexivity |].
      apply placeLevel_frame; [exact Hshape |].
      intros Hin. apply in_levelNodes in Hin. destruct Hin as [_ Hin].
      rewrite (nodes_root_level Hfirst) in Hin. congruence. }
    destruct (IH (placeLevel nodes ns gs s l)) as [H0 Hcols].
    + apply placeLevel_shape, Hshape.
    + exact Htail.
    + now rewrite Hframe0.
    + intros j Hj Hout.
      destruct (Z.eq_dec (nlevel (get nodes j)) l) as [Hjl | Hjl].
      * destruct (Z.eq_dec l (-1)) as [-> | Hne].
        -- assert (j = 0)%nat as ->.
           { destruct j; [reflexivity |].
             assert (0 <= nlevel (get nodes (S j)))%Z
               by (apply (nodes_levels Hfirst); lia). lia. }
           rewrite Hframe0, Hjl, Hroot. reflexivity.
        -- rewrite Hjl, <- columnOf_next.
           apply (@placeLevel_column nodes Hfirst ns gs s l (columnOf (l - 1)));
             auto.
           intros j' Hj' Hlev. rewrite <- Hlev. apply Hinv; [exact Hj' |].
           rewrite Hlev. intros [Heq | Hin]; [lia |].
           specialize (Hall _ Hin). lia.
      * rewrite placeLevel_frame.
        -- apply Hinv; [exact Hj |]. intros [Heq | Hin]; [congruence | auto].
        -- exact Hshape.
        -- intros Hin. apply in_levelNodes in Hin. tauto.
    + split; [now rewrite H0 | exact Hcols].
Qed.

(** The finished layout of such nodes. *)
Lemma calculatePositions_columns :
  get (calculatePositions nodes) 0 = setXY 50 200 (get nodes 0)
  /\ forall j, (j < List.length nodes)%nat ->
       finalX nodes j == columnOf (nlevel (get nodes j)).
Proof.
  unfold finalX, calculatePositions.
  assert (Hroot : positionRoot nodes = update 0 (setXY 50 200) nodes).
  { unfold positionRoot. now rewrite (nodes_findRoot Hfirst). }
  assert (H0 : get (positionRoot nodes) 0 = setXY 50 200 (get nodes 0)).
  { rewrite Hroot. apply get_update_same, nodes_nonempty. }
  destruct (@columns_fold (levelsOf nodes) (positionRoot nodes)) as [Hr Hcols].
  - apply positionRoot_shape.
  - apply levelsOf_sorted.
  - rewrite H0. reflexivity.
  - intros j Hj Hout. exfalso. apply Hout, in_levelsOf, Hj.
  - split; [now rewrite Hr |]. exact Hcols.
Qed.

End ColumnFold.

(** X23.  The layout pass arranges the visible nodes of a well-formed tree
    in columns by depth: the root is placed at (50, 200); every node of
    level [d] gets [x = 50 + 250 (d + 1)]; so every node lies exactly one
    horizontal spacing (250) to the right of the node it refers to as its
    parent.  Coordinates are exact rationals. *)
Theorem X23_columns (st : TreeModel.State) :
  wellFormed (TreeModel.treeData st) ->
  let nodes := LayoutEngine.visibleNodes st in
  (finalX nodes 0 == 50 /\ finalY nodes 0 == 200)%Q
  /\ (forall i, i < List.length nodes ->
        (finalX nodes i
         == columnOf (LayoutEngine.nlevel (LayoutEngine.get nodes i)))%Q)
  /\ (forall i p, i < List.length nodes ->
        LayoutEngine.parent (LayoutEngine.get nodes i) = Some p ->
        (finalX nodes i == finalX nodes p + 250)%Q).
Proof.
  intros Hwf. cbv zeta. set (nodes := LayoutEngine.visibleNodes st).
  destruct (@visible_links_shape st Hwf) as [info [news Hshape]].
  fold nodes in Hshape.
  assert (Hfirst : exists info news,
            nodes = info :: news /\ LayoutEngine.nlevel info = (-1)%Z
            /\ LayoutEngine.nnodeType info = TreeModel.root
            /\ linked 0 (info :: news)).
  { exists info, news. tauto. }
  destruct (@calculatePositions_columns nodes Hfirst) as [Hroot Hcols].
  split; [| split].
  - unfold finalX, finalY. rewrite Hroot. split; reflexivity.
  - exact Hcols.
  - intros i p Hi Hp.
    assert (Hpos : 0 < i < List.length nodes).
    { split; [| exact Hi]. destruct i; [| lia].
      destruct Hshape as [Hn [_ [_ [_ [Hnone _]]]]].
      assert (H0 : LayoutEngine.parent (LayoutEngine.get nodes 0) = None)
        by (rewrite Hn; exact Hnone).
      congruence. }
    destruct (@nodes_parent nodes Hfirst i Hpos) as [p' [Hlt [Hp' Hlev]]].
    assert (p' = p) as -> by congruence.
    rewrite (Hcols i Hi), (Hcols p) by lia. rewrite Hlev.
    rewrite <- (columnOf_next (LayoutEngine.nlevel (LayoutEngine.get nodes p) + 1)).
    now replace (LayoutEngine.nlevel (LayoutEngine.get nodes p) + 1 - 1)%Z
      with (LayoutEngine.nlevel (LayoutEngine.get nodes p)) by lia.
Qed.

Lemma X23_columns_witness :
  let nodes := LayoutEngine.visibleNodes MoreExamples.deep in
  (finalX nodes 0 == 50 /\ finalY nodes 0 == 200)%Q
  /\ (forall i, i < List.length nodes ->
        (finalX nodes i
         == columnOf (LayoutEngine.nlevel (LayoutEngine.get nodes i)))%Q)
  /\ (forall i p, i < List.length nodes ->
        LayoutEngine.parent (LayoutEngine.get nodes i) = Some p ->
        (finalX nodes i == finalX nodes p + 250)%Q).
Proof.
  apply (@X23_columns MoreExamples.deep). vm_compute. repeat split.
Defined.

(** ** Close matches in the tree view *)

Section Matches.

Import TreeModel LayoutEngine MatchFinder.

Local Open Scope float_scope.

Lemma shown_cases (n : NodeInfo) :
  shown n = []
  \/ (shown n
       = [mkShown (nid n) (toNumber (nvalue n)) (x n) (y n) (nname n)]
      /\ nnodeType n = frequency
      /\ nvalue n = Some (toNumber (nvalue n))
      /\ falsyNumber (toNumber (nvalue n)) = false).
Proof.
  unfold shown. destruct (nvalue n) as [f |]; simpl; [| now left].
  destruct (falsyNumber f) eqn:Hf; simpl; [now left |].
  destruct (nnodeType n); simpl; [now left | right; auto].
Qed.

(** A frequency node with a truthy value is an entry of [allFrequencies]. *)
Lemma shown_frequency (n : NodeInfo) (f : float) :
  nnodeType n = frequency -> nvalue n = Some f ->
  isNaN f = false -> (f =? 0) = false ->
  shown n = [mkShown (nid n) f (x n) (y n) (nname n)].
Proof.
  intros Ht Hv Hnan Hzero. unfold shown, truthyValue, falsyNumber.
  rewrite Hv, Ht, Hnan, Hzero. reflexivity.
Qed.

Lemma in_shown (l : list NodeInfo) (s : Shown) :
  In s (flat_map shown l) ->
  exists j n, nth_error l j = Some n /\ shown n = [s].
Proof.
  induction l as [| n l IH]; simpl; [contradiction |].
  intros H. apply in_app_or in H. destruct H as [H | H].
  - exists 0%nat, n. split; [reflexivity |].
    destruct (shown_cases n) as [E | [E _]]; rewrite E in H |- *;
      [contradiction |].
    destruct H as [<- | []]. reflexivity.
  - destruct (IH H) as [j [m [Hj Hm]]]. exists (S j), m. auto.
Qed.

(** Two entries of [allFrequencies] in order come from two visible nodes
    in the same order. *)
Lemma pairs_shown (l : list NodeInfo) (s1 s2 : Shown) :
  In (s1, s2) (pairsInOrder (flat_map shown l)) ->
  exists i j a b,
    (i < j)%nat /\ nth_error l i = Some a /\ nth_error l j = Some b
    /\ shown a = [s1] /\ shown b = [s2].
Proof.
  induction l as [| n l IH]; simpl; [contradiction |].
  assert (Hrest : In (s1, s2) (pairsInOrder (flat_map shown l)) ->
            exists i j a b,
              (i < j)%nat /\ nth_error (n :: l) i = Some a
              /\ nth_error (n :: l) j = Some b
              /\ shown a = [s1] /\ shown b = [s2]).
  { intros H. destruct (IH H) as [i [j [a [b [Hij [Hi [Hj Hab]]]]]]].
    exists (S i), (S j), a, b. repeat split; try tauto. lia. }
  destruct (shown_cases n) as [E | [E _]]; rewrite E; simpl; [exact Hrest |].
  intros H. apply in_app_or in H. destruct H as [H | H]; [| auto].
  apply in_map_iff in H. destruct H as [s [[= <- <-] Hs]].
  destruct (in_shown _ _ Hs) as [j [b [Hj Hb]]].
  exists 0%nat, (S j), n, b. repeat split; auto. lia.
Qed.

(** Two visible nodes in order that both give an entry of
    [allFrequencies] give a pair of entries in order. *)
Lemma shown_pairs (l : list NodeInfo) (i j : nat) (a b : NodeInfo)
    (s1 s2 : Shown) :
  (i < j)%nat -> nth_error l i = Some a -> nth_error l j = Some b ->
  shown a = [s1] -> shown b = [s2] ->
  In (s1, s2) (pairsInOrder (flat_map shown l)).
Proof.
  revert i j. induction l as [| n l IH]; intros i j Hij Hi Hj Ha Hb.
  - now destruct i.
  - destruct j as [| j]; [lia |]. cbn [nth_error] in Hj.
    cbn [flat_map]. destruct i as [| i]; cbn [nth_error] in Hi.
    + injection Hi as ->. rewrite Ha. cbn [List.app pairsInOrder].
      apply in_or_app. left. apply in_map. apply in_flat_map.
      exists b. split; [eapply nth_error_In, Hj |]. rewrite Hb. now left.
    + assert (Hrest : In (s1, s2) (pairsInOrder (flat_map shown l))).
      { apply (IH i j); auto. lia. }
      destruct (shown_cases n) as [E | [E _]]; rewrite E; [exact Hrest |].
      cbn [List.app pairsInOrder]. apply in_or_app. right. exact Hrest.
Qed.

(** X25.  [findMatches] reports exactly the pairs of two different visible
    frequency nodes, the one earlier in the list first, whose values are
    neither null, NaN nor zero and whose relative difference lies strictly
    between 0 and the threshold: every reported match is such a pair, with
    the ids, names and values of the two nodes and the coordinates the
    layout gave them, and every such pair is reported.  The root is never
    part of a match, and with only root-type nodes visible nothing is
    reported. *)
Theorem X25_matches (st : State) (threshold : float) :
  let nodes := calculatePositions (visibleNodes st) in
  Forall
    (fun m =>
       exists i j a b,
         (i < j)%nat /\ nth_error nodes i = Some a /\ nth_error nodes j = Some b
         /\ nnodeType a = frequency /\ nnodeType b = frequency
         /\ nvalue a = Some (mfreq1 m) /\ nvalue b = Some (mfreq2 m)
         /\ isNaN (mfreq1 m) = false /\ (mfreq1 m =? 0) = false
         /\ isNaN (mfreq2 m) = false /\ (mfreq2 m =? 0) = false
         /\ id1 m = nid a /\ id2 m = nid b
         /\ name1 m = nname a /\ name2 m = nname b
         /\ x1 m = x a /\ y1 m = y a /\ x2 m = x b /\ y2 m = y b
         /\ mdifference m = relativeDifference (mfreq1 m) (mfreq2 m)
         /\ (0 <? mdifference m) = true
         /\ (mdifference m <? threshold) = true)
    (findMatches st threshold)
  /\ (forall i j a b f1 f2,
        (i < j)%nat -> nth_error nodes i = Some a -> nth_error nodes j = Some b ->
        nnodeType a = frequency -> nnodeType b = frequency ->
        nvalue a = Some f1 -> nvalue b = Some f2 ->
        isNaN f1 = false -> (f1 =? 0) = false ->
        isNaN f2 = false -> (f2 =? 0) = false ->
        (0 <? relativeDifference f1 f2) = true ->
        (relativeDifference f1 f2 <? threshold) = true ->
        In (mkMatch (nid a) (nid b) f1 f2 (x a) (x b) (y a) (y b)
              (relativeDifference f1 f2) (nname a) (nname b))
           (findMatches st threshold))
  /\ (Forall (fun n => nnodeType n = root) (visibleNodes st) ->
      findMatches st threshold = []).
Proof.
  cbv zeta. unfold findMatches.
  set (nodes := calculatePositions (visibleNodes st)).
  rewrite forPairs_pairsInOrder, firstn_all. split; [| split].
  - apply Forall_forall. intros m Hm. apply in_flat_map in Hm.
    destruct Hm as [[s1 s2] [Hp Hm]]. cbn [fst snd] in Hm.
    destruct (pairs_shown _ _ _ Hp) as [i [j [a [b [Hij [Hi [Hj [Ha Hb]]]]]]]].
    unfold matchPair in Hm.
    destruct ((abs (sfreq s1 - sfreq s2) / Math_max (sfreq s1) (sfreq s2)
               <? threshold)
              && (0 <? abs (sfreq s1 - sfreq s2)
                       / Math_max (sfreq s1) (sfreq s2)))%bool eqn:Hclose;
      [| contradiction].
    destruct Hm as [<- | []]. apply andb_true_iff in Hclose.
    destruct Hclose as [Hlt Hpos].
    destruct (shown_cases a) as [Ea | [Ea [Hta [Hva Hfa]]]]; rewrite Ea in Ha;
      [discriminate |].
    destruct (shown_cases b) as [Eb | [Eb [Htb [Hvb Hfb]]]]; rewrite Eb in Hb;
      [discriminate |].
    injection Ha as <-. injection Hb as <-.
    unfold falsyNumber in Hfa, Hfb.
    apply orb_false_iff in Hfa. apply orb_false_iff in Hfb.
    destruct Hfa as [Hna Hza]. destruct Hfb as [Hnb Hzb].
    exists i, j, a, b. cbn. repeat split; auto.
  - intros i j a b f1 f2 Hij Hi Hj Hta Htb Hva Hvb Hna Hza Hnb Hzb Hpos Hlt.
    apply in_flat_map.
    exists (mkShown (nid a) f1 (x a) (y a) (nname a),
            mkShown (nid b) f2 (x b) (y b) (nname b)).
    split.
    + apply (@shown_pairs nodes i j a b); auto using shown_frequency.
    + cbn [fst snd]. unfold matchPair. cbn [sfreq sid sx sy sname].
      change (abs (f1 - f2) / Math_max f1 f2) with (relativeDifference f1 f2).
      rewrite Hlt, Hpos. now left.
  - intros Hroots.
    assert (Htypes : map nnodeType nodes = map nnodeType (visibleNodes st)).
    { unfold nodes, calculatePositions.
      pose proof (levels_fields (visibleNodes st)
                    (nodeSpacing (visibleNodes st))
                    (groupSpacing (visibleNodes st))
                    (levelsOf (visibleNodes st))
                    (positionRoot (visibleNodes st))) as H.
      rewrite positionRoot_fields in H.
      apply (f_equal (map nnodeType)) in H. rewrite !map_map in H. exact H. }
    assert (Hnone : flat_map shown nodes = []).
    { assert (Hall : Forall (fun n => nnodeType n = root) nodes).
      { assert (H1 : Forall (fun t => t = root) (map nnodeType nodes)).
        { rewrite Htypes. apply Forall_map. exact Hroots. }
        apply Forall_map in H1. exact H1. }
      clear Htypes. induction Hall as [| n l Hn _ IH]; [reflexivity |].
      simpl. rewrite IH, app_nil_r.
      destruct (shown_cases n) as [E | [_ [E _]]]; [exact E | congruence]. }
    rewrite Hnone. reflexivity.
Qed.

End Matches.

(** ** The custom ratios input *)

Section CustomRatios.

Import Explorer.

Variable parseNumber : string -> float.

Lemma parseRatios_accepted (value : string) :
  Forall (fun r => accepted r = true) (parseRatios parseNumber value).
Proof.
  unfold parseRatios. apply Forall_forall. intros r Hr.
  apply filter_In in Hr. apply Hr.
Qed.

Lemma last_any_default {A : Type} (l : list A) (d d' : A) :
  l <> [] -> last l d = last l d'.
Proof.
  induction l as [| a l IH]; [congruence |]. intros _.
  destruct l as [| b l]; [reflexivity |].
  change (last (a :: b :: l) d) with (last (b :: l) d).
  change (last (a :: b :: l) d') with (last (b :: l) d').
  apply IH. discriminate.
Qed.

Lemma handle_storable (st : Inputs) (value : string) :
  storable (customRatios st) ->
  storable (customRatios (handleCustomRatiosChange parseNumber st value)).
Proof.
  intros Hst. unfold handleCustomRatiosChange.
  destruct (2 <=? List.length (parseRatios parseNumber value)) eqn:H2;
    [| exact Hst].
  destruct (List.length (parseRatios parseNumber value) <=? 20) eqn:H20;
    [| exact Hst].
  cbn [andb customRatios]. apply Nat.leb_le in H2, H20.
  split; [lia | apply parseRatios_accepted].
Qed.

(** X26.  Whatever is typed into the custom ratios field, the ratios the
    explorer keeps are always between 2 and 20 numbers, each greater than
    zero and not NaN: a text that parses to fewer than 2 or more than 20
    such numbers is stored as text but leaves the ratios as they were. *)
Theorem X26_custom_ratios (typed : list string) :
  let st := fold_left (handleCustomRatiosChange parseNumber) typed
              initialInputs in
  storable (customRatios st)
  /\ customRatiosInput st = last typed (customRatiosInput initialInputs)
  /\ forall value,
       (List.length (parseRatios parseNumber value) < 2
        \/ 20 < List.length (parseRatios parseNumber value)) ->
       handleCustomRatiosChange parseNumber st value
       = mkInputs (customRatios st) value.
Proof.
  cbv zeta.
  assert (Hinit : storable (customRatios initialInputs)).
  { split; [simpl; lia |]. repeat constructor. }
  assert (Hall : forall inputs st0,
            storable (customRatios st0) ->
            storable (customRatios
                        (fold_left (handleCustomRatiosChange parseNumber)
                           inputs st0))
            /\ customRatiosInput
                 (fold_left (handleCustomRatiosChange parseNumber) inputs st0)
               = last inputs (customRatiosInput st0)).
  { induction inputs as [| v inputs IH]; intros st0 Hst0; [auto |].
    cbn [fold_left].
    destruct (IH _ (handle_storable st0 v Hst0)) as [H1 H2].
    split; [exact H1 |]. rewrite H2.
    assert (Hin : customRatiosInput
                    (handleCustomRatiosChange parseNumber st0 v) = v).
    { unfold handleCustomRatiosChange.
      destruct (_ && _)%bool; reflexivity. }
    rewrite Hin. destruct inputs as [| w inputs]; [reflexivity |].
    change (last (v :: w :: inputs) (customRatiosInput st0))
      with (last (w :: inputs) (customRatiosInput st0)).
    apply last_any_default. discriminate. }
  destruct (Hall typed initialInputs Hinit) as [H1 H2].
  split; [exact H1 |]. split; [exact H2 |].
  intros value Hbad. unfold handleCustomRatiosChange.
  destruct (Nat.leb_spec 2 (List.length (parseRatios parseNumber value)));
    destruct (Nat.leb_spec (List.length (parseRatios parseNumber value)) 20);
    try reflexivity.
  lia.
Qed.

End CustomRatios.

(** ** The phase space chart *)

Section PhaseSpacePoints.

Import PhaseSpace.

Local Open Scope float_scope.

Lemma length_forEachIndexed_le {A B : Type} (f : A -> nat -> list B)
    (c : nat) (l : list A) (k : nat) :
  (forall a i, (List.length (f a i) <= c)%nat) ->
  (List.length (forEachIndexed f k l) <= List.length l * c)%nat.
Proof.
  intros H. revert k. induction l as [| a l IH]; intros k; simpl; [lia |].
  rewrite length_app. specialize (H a k). specialize (IH (S k)). lia.
Qed.

Lemma length_flat_map_le {A B : Type} (f : A -> list B) (c : nat)
    (l : list A) :
  (forall a, (List.length (f a) <= c)%nat) ->
  (List.length (flat_map f l) <= List.length l * c)%nat.
Proof.
  intros H. induction l as [| a l IH]; simpl; [lia |].
  rewrite length_app. specialize (H a). lia.
Qed.

Lemma length_point (h0 h1 h2 : FrequencyRecord) (index h1Index : nat) :
  (List.length (point h0 h1 h2 index h1Index) <= 1)%nat.
Proof.
  unfold point. destruct (_ && _ && _)%bool; [| simpl; lia].
  destruct (_ && _ && _ && _)%bool; simpl; lia.
Qed.

Lemma point_in_range (h0 h1 h2 : FrequencyRecord) (index h1Index : nat) :
  Forall
    (fun pt =>
       px pt = ratio01 pt /\ py pt = ratio12 pt
       /\ (1 <=? px pt) = true /\ (px pt <=? 8) = true
       /\ (1 <=? py pt) = true /\ (py pt <=? 8) = true
       /\ stabilityError pt = abs (px pt - py pt)
       /\ isStable pt = (stabilityError pt <? 0x1.999999999999ap-5))
    (point h0 h1 h2 index h1Index).
Proof.
  unfold point. destruct (_ && _ && _)%bool; [| constructor].
  destruct ((1 <=? frequency h1 / frequency h0)
            && (frequency h1 / frequency h0 <=? 8)
            && (1 <=? frequency h2 / frequency h1)
            && (frequency h2 / frequency h1 <=? 8))%bool eqn:E;
    [| constructor].
  apply andb_true_iff in E. destruct E as [E E4].
  apply andb_true_iff in E. destruct E as [E E3].
  apply andb_true_iff in E. destruct E as [E1 E2].
  repeat constructor; assumption.
Qed.

(** X27.  The phase space chart holds at most 8 x 8 x 4 = 256 points,
    whatever the structure; every point has both ratios between 1 and 8
    and is marked stable exactly when the two ratios differ by less than
    0.05. *)
Theorem X27_phase_space_points (allFreqs : list FrequencyRecord) :
  (List.length (phaseSpaceData allFreqs) <= 256)%nat
  /\ Forall
       (fun pt =>
          px pt = ratio01 pt /\ py pt = ratio12 pt
          /\ (1 <=? px pt) = true /\ (px pt <=? 8) = true
          /\ (1 <=? py pt) = true /\ (py pt <=? 8) = true
          /\ stabilityError pt = abs (px pt - py pt)
          /\ isStable pt = (stabilityError pt <? 0x1.999999999999ap-5))
       (phaseSpaceData allFreqs).
Proof.
  unfold phaseSpaceData. split.
  - eapply Nat.le_trans.
    + apply (@length_forEachIndexed_le _ _ _ 32). intros h0 index.
      eapply Nat.le_trans.
      * apply (@length_forEachIndexed_le _ _ _ 4). intros h1 h1Index.
        eapply Nat.le_trans.
        -- apply (@length_flat_map_le _ _ _ 1). intros h2. apply length_point.
        -- unfold h2Freqs. rewrite length_firstn. lia.
      * unfold h1Freqs. rewrite length_firstn. lia.
    + unfold h0Freqs. rewrite length_firstn. lia.
  - apply Forall_forEachIndexed. intros h0 index.
    apply Forall_forEachIndexed. intros h1 h1Index.
    apply Forall_flat_map, Forall_forall. intros h2 _. apply point_in_range.
Qed.

Lemma forEachIndexed_nil {A B : Type} (f : A -> nat -> list B) (l : list A)
    (k : nat) :
  (forall a i, f a i = []) -> forEachIndexed f k l = [].
Proof.
  intros H. revert k. induction l as [| a l IH]; intros k; simpl;
    [reflexivity |].
  now rewrite H, IH.
Qed.

(** X28.  A structure with fewer than three levels (recursion level below
    2) gives the phase space chart no point at all: every point needs a
    record of level 2. *)
Theorem X28_phase_space_needs_depth (structure : HarmonicStructure) :
  (List.length (levels structure) <= 2)%nat ->
  phaseSpaceData (extractAllFrequenciesWithPaths structure) = [].
Proof.
  intros Hshallow.
  assert (Hnone : forall index h1Index,
            h2Freqs (extractAllFrequenciesWithPaths structure) index h1Index
            = []).
  { intros index h1Index. unfold h2Freqs.
    assert (Hfilter : forall p,
              filter (fun f => (atLevelZ 2 f && p f)%bool)
                     (extractAllFrequenciesWithPaths structure) = []).
    { intros p. unfold extractAllFrequenciesWithPaths.
      destruct (falsyNumber (base structure)); [reflexivity |].
      rewrite filter_app.
      assert (Hb : filter (fun f => (atLevelZ 2 f && p f)%bool)
                     (baseRecord (base structure)) = []).
      { unfold baseRecord. destruct (isNaN (base structure)); reflexivity. }
      rewrite Hb. cbn [List.app].
      destruct (levels_ordered (levels structure) 0) as [_ Hrange].
      induction Hrange as [| r l Hr _ IH]; [reflexivity |].
      cbn [filter]. rewrite IH. unfold atLevelZ.
      destruct (Z.eqb_spec (level r) 2) as [E | _]; [| reflexivity].
      cbv beta in Hr. lia. }
    specialize (Hfilter (fun f => ((3 <=? List.length (path f))%nat
                                   && pathIs f 0 index
                                   && pathIs f 1 h1Index)%bool)).
    erewrite filter_ext; [rewrite Hfilter; reflexivity |].
    intros f. cbv beta. now rewrite !andb_assoc. }
  unfold phaseSpaceData. apply forEachIndexed_nil. intros h0 index.
  apply forEachIndexed_nil. intros h1 h1Index. now rewrite Hnone.
Qed.

Lemma X28_phase_space_needs_depth_witness :
  phaseSpaceData
    (extractAllFrequenciesWithPaths
       (mkStructure 440%float [numbers [440%float; 880%float]]))
  = [].
Proof.
  apply (@X28_phase_space_needs_depth
           (mkStructure 440%float [numbers [440%float; 880%float]])).
  simpl. lia.
Defined.

End PhaseSpacePoints.

(** ** Thresholds, results and connection lines *)

Section ThresholdEdge.

Local Open Scope float_scope.

(** X21.  A threshold that is not positive - zero, negative or NaN - makes
    [findCloseFrequencies] report nothing, whatever the structure. *)
Theorem X21_threshold_not_positive (structure : HarmonicStructure)
    (threshold : float) :
  (0 <? threshold) = false ->
  findCloseFrequencies structure threshold = [].
Proof.
  intros Hthr. unfold findCloseFrequencies.
  rewrite closePairs_filter by apply extract_not_nan.
  assert (Hnone : forall l, filter (isClose threshold) l = []).
  { induction l as [| p l IH]; [reflexivity |]. cbn [filter]. rewrite IH.
    unfold isClose.
    destruct (0 <? relativeDifference (frequency (fst p)) (frequency (snd p)))
      eqn:H1; [| reflexivity].
    destruct (relativeDifference (frequency (fst p)) (frequency (snd p))
              <? threshold) eqn:H2; [| reflexivity].
    rewrite (ltb_trans H1 H2) in Hthr. discriminate. }
  now rewrite Hnone.
Qed.

Lemma X21_threshold_not_positive_witness :
  findCloseFrequencies
    (mkStructure 440 [numbers [440; 441]]) (-1) = [].
Proof.
  apply (@X21_threshold_not_positive (mkStructure 440 [numbers [440; 441]])
           (-1)).
  reflexivity.
Defined.

End ThresholdEdge.

Section ResultsFacts.

Import Explorer.

(** X30.  With a mode from the four options of the selector,
    [calculateResults] never ends in its catch branch: it stores a
    structure with [recursionLevel + 1] levels together with the two
    analyses of that structure.  With any other mode the exception is
    swallowed and the results stored before stay as they were. *)
Theorem X30_calculate_results (baseFrequency : float)
    (recursionLevel nHarmonics : nat) (mode : string)
    (ratiosKept : list float) (threshold : float) (maxDenominator : nat)
    (previous : Results) :
  let after := calculateResults baseFrequency recursionLevel nHarmonics mode
                 ratiosKept threshold maxDenominator previous in
  ((mode = "harmonic" \/ mode = "just" \/ mode = "equal" \/ mode = "custom")%string ->
   exists structure,
     harmonicStructure after = Some structure
     /\ base structure = baseFrequency
     /\ List.length (levels structure) = S recursionLevel
     /\ closePairs after = findCloseFrequencies structure threshold
     /\ ratios after = analyzeFrequencyRatios structure maxDenominator)
  /\ (~ (mode = "harmonic" \/ mode = "just" \/ mode = "equal"
         \/ mode = "custom")%string ->
      after = previous).
Proof.
  cbv zeta. unfold calculateResults.
  set (given := if String.eqb mode "custom" then Some ratiosKept else None).
  assert (Hvalid : (mode = "harmonic" \/ mode = "just" \/ mode = "equal"
                    \/ mode = "custom")%string
                   <-> validMode mode given).
  { unfold validMode, given. destruct (String.eqb_spec mode "custom").
    - split; intros _; [| tauto]. do 3 right. split; [assumption | discriminate].
    - tauto. }
  split.
  - intros Hmode. apply Hvalid, (validMode_ratiosOf nHarmonics) in Hmode.
    destruct Hmode as [rs Hrs].
    destruct (@generateHarmonicStructure_succeeds nHarmonics mode given rs
                Hrs baseFrequency recursionLevel) as [higher Hs].
    rewrite Hs. eexists. split; [reflexivity |]. split; [reflexivity |].
    split; [| split; reflexivity].
    unfold generateHarmonicStructure, generate in Hs.
    rewrite (generate_ratios baseFrequency _ _ _ Hrs) in Hs. cbn [bind] in Hs.
    destruct (buildLevels nHarmonics mode given recursionLevel 1 _)
      as [ls |] eqn:E; cbn [bind] in Hs; [| discriminate].
    injection Hs as <-. cbn [levels List.length]. f_equal.
    eapply buildLevels_length, E.
  - intros Hbad. unfold generateHarmonicStructure, generate.
    rewrite generate_throws; [reflexivity |].
    destruct (ratiosOf nHarmonics mode given) as [rs |] eqn:E; [| reflexivity].
    exfalso. apply Hbad, Hvalid, (validMode_ratiosOf nHarmonics). eauto.
Qed.

End ResultsFacts.

Section LinkLines.

Import TreeModel LayoutEngine TreeRender.

Local Open Scope Q_scope.





End LinkLines.
